(** * FOEDUS: the NUMA-local page pool and the snapshot manager

    A shallow embedding of

      - [foedus-core/src/foedus/memory/page_pool_pimpl.cpp]
        ([PagePoolPimpl::grab], [PagePoolPimpl::release]) and
      - [foedus-core/src/foedus/snapshot/snapshot_manager_pimpl.cpp]
        ([SnapshotManagerPimpl::handle_snapshot],
        [handle_snapshot_triggered] and the four phases it drives),

    followed by the properties of both that the design document states.

    Machine integers are [Z] with the wrap-around of their width written
    out ([u64], [u32]); the free-pool array is a [list] indexed as the
    code indexes the pointer [free_pool_]; the code running under
    [lock_] is a function of the state it locks. *)

From stdpp Require Import base list gmap strings pretty.
From Stdlib Require Import ZArith Lia.

Local Open Scope Z_scope.

(** ** Error codes and call results *)

(** The codes that the two source files name, and [kErrorCodeOther] for
    the codes a collaborator of the snapshot manager may hand back. *)
Inductive ErrorCode : Type :=
  | kErrorCodeOk
  | kErrorCodeMemoryNoFreePages
  | kErrorCodeMemoryDuplicatePage
  | kErrorCodeFsMkdirFailed
  | kErrorCodeOther (code : nat).

Global Instance ErrorCode_eq_dec : EqDecision ErrorCode.
Proof. solve_decision. Defined.

(** Modelled from the spec: the macro [COERCE_ERROR] (error_stack.hpp is
    not part of the sources at hand).  "Fatal kinds propagate to a
    process-level coerce-and-abort": a call either returns to its caller
    or ends the process with the error it was coerced on. *)
Inductive outcome (A : Type) : Type :=
  | Returned (a : A)
  | Aborted (e : ErrorCode).
Global Arguments Returned {A} a.
Global Arguments Aborted {A} e.

(** ** Fixed-width arithmetic *)

Definition u64 (x : Z) : Z := x mod 2 ^ 64.
Definition u32 (x : Z) : Z := x mod 2 ^ 32.

Module Memory.

(** ** Data model of the page pool *)

(** An offset of a page from [pool_base_], in pages. *)
Definition PagePoolOffset : Type := Z.

(** Modelled from the spec: [PagePoolOffsetChunk] (page_pool.hpp is not
    part of the sources at hand), the "bounded buffer of offsets
    exchanged at the boundary".  [push_back(begin, end)] appends the
    range to the buffer; [move_to(destination, count)] copies the last
    [count] entries to [destination] and shrinks the buffer by them.
    Both are used within the preconditions that [grab] and [release]
    assert ([size + desired <= capacity], [size >= desired]); outside
    them [push_back] here appends all the same and [move_to] copies what
    there is. *)
Record PagePoolOffsetChunk : Type := mkChunk {
  capacity : Z;
  chunk_ : list PagePoolOffset
}.

Definition size (c : PagePoolOffsetChunk) : Z := Z.of_nat (length (chunk_ c)).

Definition clear (c : PagePoolOffsetChunk) : PagePoolOffsetChunk :=
  {| capacity := capacity c; chunk_ := [] |}.

Definition empty (c : PagePoolOffsetChunk) : bool := bool_decide (chunk_ c = []).

Definition push_back (c : PagePoolOffsetChunk) (range : list PagePoolOffset)
  : PagePoolOffsetChunk :=
  {| capacity := capacity c; chunk_ := chunk_ c ++ range |}.

(** The entries copied out, and the chunk that remains. *)
Definition move_to (c : PagePoolOffsetChunk) (count : Z)
  : list PagePoolOffset * PagePoolOffsetChunk :=
  let keep := Z.to_nat (size c - count) in
  (take (Z.to_nat count) (drop keep (chunk_ c)),
   {| capacity := capacity c; chunk_ := take keep (chunk_ c) |}).

(** The members of [PagePoolPimpl] that [grab] and [release] touch.
    [free_pool_] is the array of [free_pool_capacity_] offsets at the
    start of the arena. *)
Record PagePoolPimpl : Type := mkPool {
  pool_size_ : Z;
  pages_for_free_pool_ : Z;
  free_pool_ : list PagePoolOffset;
  free_pool_capacity_ : Z;
  free_pool_head_ : Z;
  free_pool_count_ : Z
}.

Definition set_free_pool (a : list PagePoolOffset) (p : PagePoolPimpl) :=
  {| pool_size_ := pool_size_ p; pages_for_free_pool_ := pages_for_free_pool_ p;
     free_pool_ := a; free_pool_capacity_ := free_pool_capacity_ p;
     free_pool_head_ := free_pool_head_ p; free_pool_count_ := free_pool_count_ p |}.

Definition set_free_pool_head (h : Z) (p : PagePoolPimpl) :=
  {| pool_size_ := pool_size_ p; pages_for_free_pool_ := pages_for_free_pool_ p;
     free_pool_ := free_pool_ p; free_pool_capacity_ := free_pool_capacity_ p;
     free_pool_head_ := h; free_pool_count_ := free_pool_count_ p |}.

Definition set_free_pool_count (n : Z) (p : PagePoolPimpl) :=
  {| pool_size_ := pool_size_ p; pages_for_free_pool_ := pages_for_free_pool_ p;
     free_pool_ := free_pool_ p; free_pool_capacity_ := free_pool_capacity_ p;
     free_pool_head_ := free_pool_head_ p; free_pool_count_ := n |}.

(** The pointer range [[a + from, a + from + n)]. *)
Definition read_range (a : list PagePoolOffset) (from n : Z) : list PagePoolOffset :=
  take (Z.to_nat n) (drop (Z.to_nat from) a).

(** [memcpy(a + at, src, |src|)].  A copy that would run past the end of
    the array is cut at the end here; the code never issues one from a
    pool that satisfies [pool_shape] below. *)
Definition write_range (a : list PagePoolOffset) (at_ : Z) (src : list PagePoolOffset)
  : list PagePoolOffset :=
  list_inserts (Z.to_nat at_) src a.

(** ** [PagePoolPimpl::grab] (page_pool_pimpl.cpp, lines 80-110) *)

Definition grab (desired_grab_count : Z) (p : PagePoolPimpl) (chunk : PagePoolOffsetChunk)
  : ErrorCode * PagePoolPimpl * PagePoolOffsetChunk :=
  if free_pool_count_ p =? 0 then (kErrorCodeMemoryNoFreePages, p, chunk)
  else
    (* grab from the head *)
    let grab_count := Z.min desired_grab_count (free_pool_count_ p) in
    let head := free_pool_head_ p in
    let '(p, chunk, grab_count, head) :=
      if u64 (free_pool_head_ p + grab_count) >? free_pool_capacity_ p then
        (* wrap around *)
        let wrap_count := u64 (free_pool_capacity_ p - free_pool_head_ p) in
        let chunk := push_back chunk (read_range (free_pool_ p) head wrap_count) in
        let p := set_free_pool_head 0 p in
        let p := set_free_pool_count (u64 (free_pool_count_ p - wrap_count)) p in
        (p, chunk, u64 (grab_count - wrap_count), 0)
      else (p, chunk, grab_count, head) in
    (* no wrap around (or no more wrap around) *)
    let chunk := push_back chunk (read_range (free_pool_ p) head grab_count) in
    let p := set_free_pool_head (u64 (free_pool_head_ p + grab_count)) p in
    let p := set_free_pool_count (u64 (free_pool_count_ p - grab_count)) p in
    (kErrorCodeOk, p, chunk).

(** ** [PagePoolPimpl::release] (page_pool_pimpl.cpp, lines 112-145) *)

Definition release (desired_release_count : Z) (p : PagePoolPimpl)
    (chunk : PagePoolOffsetChunk)
  : outcome (PagePoolPimpl * PagePoolOffsetChunk) :=
  if u64 (free_pool_count_ p + desired_release_count) >? free_pool_capacity_ p then
    Aborted kErrorCodeMemoryDuplicatePage
  else
    (* append to the tail *)
    let release_count := Z.min desired_release_count (size chunk) in
    let tail := u64 (free_pool_head_ p + free_pool_count_ p) in
    let tail := if tail >=? free_pool_capacity_ p
                then u64 (tail - free_pool_capacity_ p) else tail in
    let '(p, chunk, release_count, tail) :=
      if u64 (tail + release_count) >? free_pool_capacity_ p then
        (* wrap around *)
        let wrap_count := u32 (u64 (free_pool_capacity_ p - tail)) in
        let '(moved, chunk) := move_to chunk wrap_count in
        let p := set_free_pool (write_range (free_pool_ p) tail moved) p in
        let p := set_free_pool_count (u64 (free_pool_count_ p + wrap_count)) p in
        (p, chunk, u64 (release_count - wrap_count), 0)
      else (p, chunk, release_count, tail) in
    (* no wrap around (or no more wrap around) *)
    let '(moved, chunk) := move_to chunk (u32 release_count) in
    let p := set_free_pool (write_range (free_pool_ p) tail moved) p in
    let p := set_free_pool_count (u64 (free_pool_count_ p + release_count)) p in
    Returned (p, chunk).

(** ** The live window of the circular free list *)

(** The [free_pool_count_] entries from [free_pool_head_] on, going
    round the end of the array: the offsets that are free, in the order
    in which [grab] hands them out. *)
Definition live_window (p : PagePoolPimpl) : list PagePoolOffset :=
  let h := Z.to_nat (free_pool_head_ p) in
  take (Z.to_nat (free_pool_count_ p)) (drop h (free_pool_ p) ++ take h (free_pool_ p)).

(** The shape that [initialize_once] sets up and that [grab] and
    [release] keep ([grab_spec] and [release_spec] below): the array has
    [free_pool_capacity_] entries, head and count stay within it (the
    head may rest at the capacity itself, after a grab that ends at the
    last entry), the pages of the array come first in the arena, and the
    arena has no more pages than the 2^52 bytes that
    [page_pool_size_mb_per_node_ << 20] can reach. *)
Record pool_shape (p : PagePoolPimpl) : Prop := mkShape {
  shape_length : Z.of_nat (length (free_pool_ p)) = free_pool_capacity_ p;
  shape_head : 0 <= free_pool_head_ p <= free_pool_capacity_ p;
  shape_count : 0 <= free_pool_count_ p <= free_pool_capacity_ p;
  shape_pages : 0 <= pages_for_free_pool_ p;
  shape_size : pages_for_free_pool_ p + free_pool_capacity_ p <= pool_size_ p;
  shape_bound : pool_size_ p <= 2 ^ 52
}.

Definition in_pool (p : PagePoolPimpl) (x : PagePoolOffset) : Prop :=
  pages_for_free_pool_ p <= x < pool_size_ p.

(** The invariant of the data model: the live window holds pairwise
    distinct offsets of pages behind the free-pool array. *)
Record pool_invariant (p : PagePoolPimpl) : Prop := mkInv {
  inv_shape : pool_shape p;
  inv_nodup : NoDup (live_window p);
  inv_range : Forall (in_pool p) (live_window p)
}.

(** ** Sequences of calls *)

(** A call as the pool sees it: the count asked for and the chunk that
    the caller hands in. *)
Inductive call : Type :=
  | Grab (desired : Z) (chunk : PagePoolOffsetChunk)
  | Release (desired : Z) (chunk : PagePoolOffsetChunk).

(** The offsets handed out and taken back so far. *)
Record tally : Type := mkTally {
  sum_grabbed : Z;
  sum_released : Z
}.

(** One call: the pool after it, and the tally moved on by the number of
    offsets that entered or left the caller's chunk. *)
Definition step (c : call) (p : PagePoolPimpl) (t : tally)
  : outcome (PagePoolPimpl * tally) :=
  match c with
  | Grab desired chunk =>
    let '(_, p', chunk') := grab desired p chunk in
    Returned (p', {| sum_grabbed := sum_grabbed t + (size chunk' - size chunk);
                     sum_released := sum_released t |})
  | Release desired chunk =>
    match release desired p chunk with
    | Returned (p', chunk') =>
      Returned (p', {| sum_grabbed := sum_grabbed t;
                       sum_released := sum_released t + (size chunk - size chunk') |})
    | Aborted e => Aborted e
    end
  end.

(** [P] holds of the pool and the tally after each call of the
    sequence, none of which ends the process. *)
Fixpoint after_each_call (P : PagePoolPimpl -> tally -> Prop) (calls : list call)
    (p : PagePoolPimpl) (t : tally) : Prop :=
  match calls with
  | [] => True
  | c :: calls =>
    match step c p t with
    | Returned (p', t') => P p' t' /\ after_each_call P calls p' t'
    | Aborted _ => False
    end
  end.

(** The offsets that [release(desired, chunk)] takes from the chunk. *)
Definition tail_of (desired : Z) (chunk : PagePoolOffsetChunk) : list PagePoolOffset :=
  drop (Z.to_nat (size chunk - desired)) (chunk_ chunk).

(** The preconditions of the calls of a sequence, each at the state in
    which it is made: counts are 32-bit; a grab fits the chunk; a
    release takes no more than the chunk holds, and the total released
    stays within the total grabbed plus [initial_content].  With
    [owned], a release moreover hands back pages of this pool that are
    not free already, each once. *)
Fixpoint preconditions (owned : bool) (initial_content : Z) (calls : list call)
    (p : PagePoolPimpl) (t : tally) : Prop :=
  match calls with
  | [] => True
  | c :: calls =>
    match c with
    | Grab desired chunk =>
      0 <= desired < 2 ^ 32 /\ size chunk + desired <= capacity chunk
    | Release desired chunk =>
      0 <= desired < 2 ^ 32 /\ size chunk >= desired
      /\ sum_released t + desired <= sum_grabbed t + initial_content
      /\ (owned = true ->
          NoDup (tail_of desired chunk ++ live_window p)
          /\ Forall (in_pool p) (tail_of desired chunk))
    end
    /\ match step c p t with
       | Returned (p', t') => preconditions owned initial_content calls p' t'
       | Aborted _ => True
       end
  end.

(** What the conservation property says of the pool after a call, for a
    pool that held [initial] free pages at the start. *)
Definition conserved (initial : Z) (p : PagePoolPimpl) (t : tally) : Prop :=
  free_pool_count_ p = initial - sum_grabbed t + sum_released t
  /\ 0 <= free_pool_count_ p <= free_pool_capacity_ p
  /\ NoDup (live_window p)
  /\ Forall (in_pool p) (live_window p).

(** The part of it that is about the count alone. *)
Definition count_conserved (initial : Z) (p : PagePoolPimpl) (t : tally) : Prop :=
  free_pool_count_ p = initial - sum_grabbed t + sum_released t
  /\ 0 <= free_pool_count_ p <= free_pool_capacity_ p.


(** ** [PagePoolPimpl::initialize_once] (page_pool_pimpl.cpp, lines 19-62) *)

Section initialize.

(** The constants and helpers of other headers that [initialize_once]
    uses: [storage::kPageSize], [sizeof(PagePoolOffset)],
    [assorted::int_div_ceil], and the size in bytes of the block that
    [AlignedMemory] holds when asked for a size. *)
Variable kPageSize : Z.
Variable sizeof_PagePoolOffset : Z.
Variable int_div_ceil : Z -> Z -> Z.
Variable get_size : Z -> Z.

(** The narrowing of [pages_for_free_pool_ + i] to a [PagePoolOffset]
    at line 54. *)
Definition to_PagePoolOffset (x : Z) : PagePoolOffset :=
  x mod 2 ^ (8 * sizeof_PagePoolOffset).

Definition initialize_once (page_pool_size_mb_per_node_ : Z) : ErrorCode * PagePoolPimpl :=
  let size := u64 (Z.shiftl page_pool_size_mb_per_node_ 20) in
  let memory_size := get_size size in
  let pool_size := memory_size / kPageSize in
  let total_pages := memory_size / kPageSize in
  let pointers_total_size := u64 (total_pages * sizeof_PagePoolOffset) in
  let pages_for_free_pool := int_div_ceil pointers_total_size kPageSize in
  (* Constructing circular free pool... *)
  let free_pool_capacity := u64 (total_pages - pages_for_free_pool) in
  (* all pages after pages_for_free_pool_-th page is in the free pool at first *)
  let free_pool :=
    (fun i => to_PagePoolOffset (u64 (pages_for_free_pool + i)))
      <$> seqZ 0 free_pool_capacity in
  (kErrorCodeOk,
   {| pool_size_ := pool_size;
      pages_for_free_pool_ := pages_for_free_pool;
      free_pool_ := free_pool;
      free_pool_capacity_ := free_pool_capacity;
      free_pool_head_ := 0;
      free_pool_count_ := free_pool_capacity |}).

End initialize.

(** ** [PagePoolPimpl::uninitialize_once] (page_pool_pimpl.cpp, lines 64-78) *)

(** The error code returned, whether the warning of line 68 is logged,
    and the pool without its block. *)
Definition uninitialize_once (p : PagePoolPimpl) : ErrorCode * bool * PagePoolPimpl :=
  let warned := negb (free_pool_count_ p =? free_pool_capacity_ p) in
  (kErrorCodeOk, warned, set_free_pool [] p).

(** The calls of a sequence one after another. *)
Fixpoint run_calls (calls : list call) (p : PagePoolPimpl) (t : tally)
  : outcome (PagePoolPimpl * tally) :=
  match calls with
  | [] => Returned (p, t)
  | c :: calls =>
    match step c p t with
    | Returned (p', t') => run_calls calls p' t'
    | Aborted e => Aborted e
    end
  end.

End Memory.

Module SnapshotManager.
Import Memory.

(** ** Data model of the snapshot manager *)

(** An error stack is told apart here by its code only; [kRetOk] is the
    stack without an error. *)
Abbreviation ErrorStack := ErrorCode.
Definition kRetOk : ErrorStack := kErrorCodeOk.
Definition ERROR_STACK (code : ErrorCode) : ErrorStack := code.
Definition is_error (r : ErrorStack) : bool := bool_decide (r <> kErrorCodeOk).

(** Modelled from the spec: [Epoch] (epoch.hpp is not part of the
    sources at hand).  "Monotonically increasing integer; [is_valid()]
    iff nonzero; totally ordered." *)
Abbreviation Epoch := Z.
Definition is_valid (e : Epoch) : bool := negb (e =? 0).

(** Modelled from the spec: [SnapshotId], [kNullSnapshotId] and
    [increment] (snapshot_id.hpp is not part of the sources at hand).
    "32-bit integer, 0 reserved as null; successor defined by
    [increment] (wrap-safe, skipping 0)." *)
Abbreviation SnapshotId := Z.
Definition kNullSnapshotId : SnapshotId := 0.
Definition increment (id : SnapshotId) : SnapshotId :=
  let next := u32 (id + 1) in
  if next =? kNullSnapshotId then 1 else next.

Abbreviation StorageId := Z.
Abbreviation SnapshotPagePointer := Z.

Record Snapshot : Type := mkSnapshot {
  id_ : SnapshotId;
  base_epoch_ : Epoch;
  valid_until_epoch_ : Epoch;
  max_storage_id_ : StorageId
}.

(** [SnapshotMetadata]: the four header fields that [snapshot_metadata]
    sets, and of the storages' metadata the [root_snapshot_page_id_] of
    each. *)
Record SnapshotMetadata : Type := mkSnapshotMetadata {
  metadata_id_ : SnapshotId;
  metadata_base_epoch_ : Epoch;
  metadata_valid_until_epoch_ : Epoch;
  largest_storage_id_ : StorageId;
  root_snapshot_page_id_ : gmap Z Z
}.

(** The fields of the shared control block that this file reads or
    writes outside the gleaner. *)
Record SnapshotManagerControlBlock : Type := mkControlBlock {
  snapshot_epoch_ : Epoch;
  previous_snapshot_id_ : SnapshotId;
  immediate_snapshot_requested_ : bool
}.

(** Calls whose effect leaves the snapshot thread, in the order made. *)
Inductive Effect : Type :=
  | GleanerExecuted (id : SnapshotId)
  | MetadataFileSaved (id : SnapshotId)
  | MetadataFileSynced (id : SnapshotId)
  | SavepointTaken (id : SnapshotId) (epoch : Epoch)
  | XctPaused
  | ComposerInvoked (storage : StorageId)
  | XctResumed
  | SnapshotTakenBroadcast.

Global Instance Effect_eq_dec : EqDecision Effect.
Proof. solve_decision. Defined.

(** The state that a snapshot run reads and writes: the control block,
    the manager's own clock reading, and of the collaborators what the
    run changes in them (whether the transaction manager accepts
    transactions, the metadata files in the primary folder, the latest
    snapshot of the savepoint, the volatile pool of each node). *)
Record Engine : Type := mkEngine {
  control_block_ : SnapshotManagerControlBlock;
  previous_snapshot_time_ : Z;
  accepting_xct : bool;
  metadata_files : gmap Z SnapshotMetadata;
  latest_savepoint : SnapshotId * Epoch;
  volatile_pools : list PagePoolPimpl;
  effects : list Effect
}.

(** What lies outside the two source files and stays fixed during one
    wake-up of the daemon: options and constants, and the answers of the
    collaborators (log manager, storage manager, gleaner, file system,
    savepoint manager, snapshot file set, composers, clock). *)
Record Collaborators : Type := mkCollaborators {
  snapshot_interval_milliseconds_ : Z;
  ticks_per_millisecond : Z;
  get_soc_count : nat;
  kMaxSize : Z;
  get_durable_global_epoch : Epoch;
  get_largest_storage_id : StorageId;
  gleaner_execute : Snapshot -> ErrorStack;
  get_new_root_page_pointers : Snapshot -> gmap Z Z;
  clone_all_storage_metadata : ErrorStack * gmap Z Z;
  fs_exists : bool;
  fs_create_directories : bool;
  save_to_file : SnapshotMetadata -> ErrorStack;
  take_savepoint_after_snapshot : SnapshotId -> Epoch -> ErrorStack;
  fileset_initialize : ErrorStack;
  composer_replace_pointers :
    StorageId -> Snapshot -> SnapshotPagePointer ->
    list PagePoolOffsetChunk -> list PagePoolPimpl ->
    ErrorStack * list PagePoolOffsetChunk * list PagePoolPimpl;
  system_clock_now : Z
}.

(** ** Code that may return or end the process *)

Definition M (A : Type) : Type := Engine -> outcome (A * Engine).

Definition ret {A} (a : A) : M A := fun e => Returned (a, e).

Definition bind {A B} (m : M A) (k : A -> M B) : M B :=
  fun e => match m e with
           | Returned (a, e') => k a e'
           | Aborted c => Aborted c
           end.

Notation "'let*' x := m 'in' k" := (bind m (fun x => k))
  (at level 10, x name, m at level 200, k at level 200, only parsing).

Definition get : M Engine := fun e => Returned (e, e).
Definition modify (f : Engine -> Engine) : M unit := fun e => Returned (tt, f e).

(** [CHECK_ERROR(x)]: leave the function with [x] when it is an error. *)
Definition CHECK_ERROR (x : M ErrorStack) (rest : M ErrorStack) : M ErrorStack :=
  let* r := x in if is_error r then ret r else rest.

(** [COERCE_ERROR(x)]: end the process when [x] is an error. *)
Definition COERCE_ERROR (x : M ErrorStack) : M unit :=
  fun e => match x e with
           | Returned (r, e') => if is_error r then Aborted r else Returned (tt, e')
           | Aborted c => Aborted c
           end.

Definition set_control_block (cb : SnapshotManagerControlBlock) (e : Engine) : Engine :=
  {| control_block_ := cb; previous_snapshot_time_ := previous_snapshot_time_ e;
     accepting_xct := accepting_xct e; metadata_files := metadata_files e;
     latest_savepoint := latest_savepoint e; volatile_pools := volatile_pools e;
     effects := effects e |}.

Definition set_previous_snapshot_time (t : Z) (e : Engine) : Engine :=
  {| control_block_ := control_block_ e; previous_snapshot_time_ := t;
     accepting_xct := accepting_xct e; metadata_files := metadata_files e;
     latest_savepoint := latest_savepoint e; volatile_pools := volatile_pools e;
     effects := effects e |}.

Definition set_accepting_xct (b : bool) (e : Engine) : Engine :=
  {| control_block_ := control_block_ e;
     previous_snapshot_time_ := previous_snapshot_time_ e;
     accepting_xct := b; metadata_files := metadata_files e;
     latest_savepoint := latest_savepoint e; volatile_pools := volatile_pools e;
     effects := effects e |}.

Definition set_metadata_files (f : gmap Z SnapshotMetadata) (e : Engine) : Engine :=
  {| control_block_ := control_block_ e;
     previous_snapshot_time_ := previous_snapshot_time_ e;
     accepting_xct := accepting_xct e; metadata_files := f;
     latest_savepoint := latest_savepoint e; volatile_pools := volatile_pools e;
     effects := effects e |}.

Definition set_latest_savepoint (s : SnapshotId * Epoch) (e : Engine) : Engine :=
  {| control_block_ := control_block_ e;
     previous_snapshot_time_ := previous_snapshot_time_ e;
     accepting_xct := accepting_xct e; metadata_files := metadata_files e;
     latest_savepoint := s; volatile_pools := volatile_pools e;
     effects := effects e |}.

Definition set_volatile_pools (ps : list PagePoolPimpl) (e : Engine) : Engine :=
  {| control_block_ := control_block_ e;
     previous_snapshot_time_ := previous_snapshot_time_ e;
     accepting_xct := accepting_xct e; metadata_files := metadata_files e;
     latest_savepoint := latest_savepoint e; volatile_pools := ps;
     effects := effects e |}.

Definition emit (x : Effect) (e : Engine) : Engine :=
  {| control_block_ := control_block_ e;
     previous_snapshot_time_ := previous_snapshot_time_ e;
     accepting_xct := accepting_xct e; metadata_files := metadata_files e;
     latest_savepoint := latest_savepoint e; volatile_pools := volatile_pools e;
     effects := effects e ++ [x] |}.

Section run.
Variable env : Collaborators.

(** ** [glean_logs] (lines 306-319) *)

(** The result of the gleaner, and the root pages it reports, which are
    handed on whether or not it failed. *)
Definition glean_logs (new_snapshot : Snapshot) : M (ErrorStack * gmap Z Z) :=
  let* _ := modify (emit (GleanerExecuted (id_ new_snapshot))) in
  let result := gleaner_execute env new_snapshot in
  ret (result, get_new_root_page_pointers env new_snapshot).

(** ** [snapshot_metadata] (lines 321-370) *)

(** The loop of lines 334-343 over the storage ids [1 .. largest]. *)
Definition install_root_pages (largest : StorageId) (new_root_page_pointers : gmap Z Z)
    (roots : gmap Z Z) : gmap Z Z :=
  foldl (fun roots id =>
           match new_root_page_pointers !! id with
           | Some new_pointer => <[id := new_pointer]> roots
           | None => roots
           end)
        roots (seqZ 1 largest).

Definition snapshot_metadata (new_snapshot : Snapshot) (new_root_page_pointers : gmap Z Z)
  : M ErrorStack :=
  (* construct metadata object *)
  let '(cloned, roots) := clone_all_storage_metadata env in
  CHECK_ERROR (ret cloned) (
  (* we modified the root page. install it. *)
  let metadata :=
    {| metadata_id_ := id_ new_snapshot;
       metadata_base_epoch_ := base_epoch_ new_snapshot;
       metadata_valid_until_epoch_ := valid_until_epoch_ new_snapshot;
       largest_storage_id_ := max_storage_id_ new_snapshot;
       root_snapshot_page_id_ :=
         install_root_pages (max_storage_id_ new_snapshot) new_root_page_pointers roots |} in
  (* save it to a file *)
  if negb (fs_exists env) && negb (fs_create_directories env)
  then ret (ERROR_STACK kErrorCodeFsMkdirFailed)
  else
    CHECK_ERROR (ret (save_to_file env metadata)) (
    let* _ := modify (fun e => emit (MetadataFileSaved (id_ new_snapshot))
                       (set_metadata_files
                          (<[id_ new_snapshot := metadata]> (metadata_files e)) e)) in
    let* _ := modify (emit (MetadataFileSynced (id_ new_snapshot))) in
    ret kRetOk)).

(** ** [snapshot_savepoint] (lines 388-397) *)

Definition snapshot_savepoint (new_snapshot : Snapshot) : M ErrorStack :=
  CHECK_ERROR
    (ret (take_savepoint_after_snapshot env (id_ new_snapshot)
            (valid_until_epoch_ new_snapshot))) (
  let* _ := modify (fun e => emit (SavepointTaken (id_ new_snapshot) (valid_until_epoch_ new_snapshot))
                     (set_latest_savepoint
                        (id_ new_snapshot, valid_until_epoch_ new_snapshot) e)) in
  ret kRetOk).

(** ** [replace_pointers] (lines 407-494) *)

(** The loop of lines 448-471 over the storage ids left in [ids], which
    stops at the first composer that fails.  The counts that the
    composers report are only logged and are left out.  A composer is
    handed the chunks of dropped pages and may, as the interface says,
    flush one that fills to its pool; so it answers with the chunks and
    the pools as it leaves them. *)
Fixpoint replace_pointers_storages (new_snapshot : Snapshot)
    (new_root_page_pointers : gmap Z Z) (ids : list StorageId)
    (result : ErrorStack) (dropped_chunks : list PagePoolOffsetChunk)
  : M (ErrorStack * list PagePoolOffsetChunk) :=
  match ids with
  | [] => ret (result, dropped_chunks)
  | id :: ids =>
    match new_root_page_pointers !! id with
    | Some new_root_page_pointer =>
      let* e := get in
      let '(result, dropped_chunks, pools) :=
        composer_replace_pointers env id new_snapshot new_root_page_pointer
          dropped_chunks (volatile_pools e) in
      let* _ := modify (fun e => emit (ComposerInvoked id) (set_volatile_pools pools e)) in
      if is_error result then ret (result, dropped_chunks)
      else replace_pointers_storages new_snapshot new_root_page_pointers ids
             result dropped_chunks
    | None =>
      replace_pointers_storages new_snapshot new_root_page_pointers ids
        result dropped_chunks
    end
  end.

(** The loop of lines 483-491: each node's chunk of dropped pages goes
    back to that node's volatile pool. *)
Fixpoint release_dropped_chunks (dropped_chunks : list PagePoolOffsetChunk)
    (pools : list PagePoolPimpl) : outcome (list PagePoolPimpl) :=
  match dropped_chunks, pools with
  | chunk :: dropped_chunks, volatile_pool :: pools =>
    let released :=
      if negb (empty chunk) then
        match release (u32 (size chunk)) volatile_pool chunk with
        | Returned (volatile_pool, _) => Returned volatile_pool
        | Aborted c => Aborted c
        end
      else Returned volatile_pool in
    match released with
    | Returned volatile_pool =>
      match release_dropped_chunks dropped_chunks pools with
      | Returned pools => Returned (volatile_pool :: pools)
      | Aborted c => Aborted c
      end
    | Aborted c => Aborted c
    end
  | _, _ => Returned pools
  end.

(** The 100 ms that line 444 sleeps after the pause pass no state and
    are not modelled; a failure to close the file set is only logged. *)
Definition replace_pointers (new_snapshot : Snapshot) (new_root_page_pointers : gmap Z Z)
  : M ErrorStack :=
  (* To avoid invoking volatile pool for every dropped page, we cache them in chunks *)
  let dropped_chunks :=
    replicate (get_soc_count env) (clear {| capacity := kMaxSize env; chunk_ := [] |}) in
  CHECK_ERROR (ret (fileset_initialize env)) (
  (* initializations done. *)
  let* _ := modify (fun e => emit XctPaused (set_accepting_xct false e)) in
  let* looped := replace_pointers_storages new_snapshot new_root_page_pointers
                 (seqZ 1 (max_storage_id_ new_snapshot)) kRetOk dropped_chunks in
  let '(result, dropped_chunks) := looped in
  let* _ := modify (fun e => emit XctResumed (set_accepting_xct true e)) in
  let* e := get in
  match release_dropped_chunks dropped_chunks (volatile_pools e) with
  | Returned pools => let* _ := modify (set_volatile_pools pools) in ret result
  | Aborted c => fun _ => Aborted c
  end).

(** ** [handle_snapshot_triggered] (lines 246-304) *)

(** Lines 248-266: the snapshot that a run triggered in state [e] is
    about. *)
Definition new_snapshot_of (e : Engine) : Snapshot :=
  let durable_epoch := get_durable_global_epoch env in
  let previous_epoch := snapshot_epoch_ (control_block_ e) in
  (* determine the snapshot ID *)
  let snapshot_id :=
    if previous_snapshot_id_ (control_block_ e) =? kNullSnapshotId then 1
    else increment (previous_snapshot_id_ (control_block_ e)) in
  {| id_ := snapshot_id;
     base_epoch_ := previous_epoch;
     valid_until_epoch_ := durable_epoch;
     max_storage_id_ := get_largest_storage_id env |}.

(** Lines 290-302: the new snapshot becomes the current one. *)
Definition publish (new_snapshot : Snapshot) : M unit :=
  let new_snapshot_epoch := valid_until_epoch_ new_snapshot in
  (* done. notify waiters if exist *)
  let epoch_after := new_snapshot_epoch in
  let* _ := modify (fun e => set_control_block
            {| snapshot_epoch_ := snapshot_epoch_ (control_block_ e);
               previous_snapshot_id_ := id_ new_snapshot;
               immediate_snapshot_requested_ :=
                 immediate_snapshot_requested_ (control_block_ e) |} e) in
  let* _ := modify (set_previous_snapshot_time (system_clock_now env)) in
  let* _ := modify (fun e => set_control_block
            {| snapshot_epoch_ := epoch_after;
               previous_snapshot_id_ := previous_snapshot_id_ (control_block_ e);
               immediate_snapshot_requested_ :=
                 immediate_snapshot_requested_ (control_block_ e) |} e) in
  modify (emit SnapshotTakenBroadcast).

(** The error stack returned, and the snapshot written to
    [*new_snapshot]. *)
Definition handle_snapshot_triggered : M (ErrorStack * Snapshot) :=
  let* e := get in
  let new_snapshot := new_snapshot_of e in
  let* returned := (let* gleaned := glean_logs new_snapshot in
     let '(result, new_root_page_pointers) := gleaned in
     CHECK_ERROR (ret result) (
     (* Write out the metadata file. *)
     CHECK_ERROR (snapshot_metadata new_snapshot new_root_page_pointers) (
     (* Invokes savepoint module to make sure this snapshot has "happened". *)
     CHECK_ERROR (snapshot_savepoint new_snapshot) (
     (* install pointers to snapshot pages and drop volatile pages. *)
     CHECK_ERROR (replace_pointers new_snapshot new_root_page_pointers) (
     let* _ := publish new_snapshot in
     ret kRetOk))))) in
  ret (returned, new_snapshot).

(** ** [handle_snapshot] (lines 146-178): one wake-up of the daemon *)

(** Lines 152-169: whether this wake-up, at clock reading [now], starts
    a snapshot. *)
Definition check_triggers (now : Z) : M bool :=
  let* e := get in
  let until := previous_snapshot_time_ e
               + snapshot_interval_milliseconds_ env * ticks_per_millisecond env in
  let durable_epoch := get_durable_global_epoch env in
  let previous_epoch := snapshot_epoch_ (control_block_ e) in
  if is_valid previous_epoch && (previous_epoch =? durable_epoch) then
    ret false
  else if immediate_snapshot_requested_ (control_block_ e) then
    (* if someone requested immediate snapshot, do it. *)
    let* _ := modify (fun e => set_control_block
              {| snapshot_epoch_ := snapshot_epoch_ (control_block_ e);
                 previous_snapshot_id_ := previous_snapshot_id_ (control_block_ e);
                 immediate_snapshot_requested_ := false |} e) in
    ret true
  else if now >=? until then
    ret true
  else
    ret false.

(** Lines 151-177: the body of the loop after the stop check. *)
Definition handle_snapshot_wakeup (now : Z) : M unit :=
  let* triggered := check_triggers now in
  if (triggered : bool) then
    COERCE_ERROR (let* r := handle_snapshot_triggered in ret (fst r))
  else ret tt.

End run.

(** ** Runs one after another *)

(** Calls of [handle_snapshot_triggered] one after another, each with
    the collaborators' answers of its time: the snapshots of the calls
    that returned [kRetOk], oldest first.  A call that ends the process
    ends the sequence. *)
Fixpoint snapshot_runs (envs : list Collaborators) (e : Engine) : list Snapshot :=
  match envs with
  | [] => []
  | env :: envs =>
    match handle_snapshot_triggered env e with
    | Returned ((r, s), e') =>
      if is_error r then snapshot_runs envs e' else s :: snapshot_runs envs e'
    | Aborted _ => []
    end
  end.

(** The assertion of lines 252-253, at each call of the sequence. *)
Fixpoint epochs_asserted (envs : list Collaborators) (e : Engine) : Prop :=
  match envs with
  | [] => True
  | env :: envs =>
    (is_valid (get_durable_global_epoch env) = true
     /\ (is_valid (snapshot_epoch_ (control_block_ e)) = false
         \/ get_durable_global_epoch env > snapshot_epoch_ (control_block_ e)))
    /\ match handle_snapshot_triggered env e with
       | Returned (_, e') => epochs_asserted envs e'
       | Aborted _ => True
       end
  end.

(** ** Predicates on runs *)

(** From [e] to [e'] nothing was published: the control block is the
    same and no [snapshot_taken] broadcast was added. *)
Definition unpublished (e e' : Engine) : Prop :=
  control_block_ e' = control_block_ e
  /\ previous_snapshot_time_ e' = previous_snapshot_time_ e
  /\ exists added, effects e' = effects e ++ added /\ SnapshotTakenBroadcast ∉ added.

(** [glean_logs], [snapshot_metadata] and [snapshot_savepoint] of the
    run triggered in [e] succeed one after another, with the root pages
    [ptrs], and leave the state [e3]. *)
Definition earlier_phases_succeed (env : Collaborators) (e : Engine)
    (ptrs : gmap Z Z) (e3 : Engine) : Prop :=
  let s := new_snapshot_of env e in
  exists e1 e2,
    glean_logs env s e = Returned ((kRetOk, ptrs), e1)
    /\ snapshot_metadata env s ptrs e1 = Returned (kRetOk, e2)
    /\ snapshot_savepoint env s e2 = Returned (kRetOk, e3).

(** All four phases succeed, and leave the state [e4]. *)
Definition phases_succeed (env : Collaborators) (e e4 : Engine) : Prop :=
  exists ptrs e3,
    earlier_phases_succeed env e ptrs e3
    /\ replace_pointers env (new_snapshot_of env e) ptrs e3 = Returned (kRetOk, e4).

(** The phases before some phase succeed and that phase returns the
    error [r], in state [e']. *)
Definition phase_fails (env : Collaborators) (e : Engine) (r : ErrorStack)
    (e' : Engine) : Prop :=
  let s := new_snapshot_of env e in
  is_error r = true
  /\ ((exists ptrs, glean_logs env s e = Returned ((r, ptrs), e'))
      \/ (exists ptrs e1,
            glean_logs env s e = Returned ((kRetOk, ptrs), e1)
            /\ snapshot_metadata env s ptrs e1 = Returned (r, e'))
      \/ (exists ptrs e1 e2,
            glean_logs env s e = Returned ((kRetOk, ptrs), e1)
            /\ snapshot_metadata env s ptrs e1 = Returned (kRetOk, e2)
            /\ snapshot_savepoint env s e2 = Returned (r, e'))
      \/ (exists ptrs e3,
            earlier_phases_succeed env e ptrs e3
            /\ replace_pointers env s ptrs e3 = Returned (r, e'))).

(** In [replace_pointers] started in state [e], the loop of lines
    448-471 comes to [storage] without an error, and the composer of
    [storage], invoked with the chunks and the pools as they are then,
    answers [r]. *)
Definition composer_answers (env : Collaborators) (s : Snapshot) (ptrs : gmap Z Z)
    (e : Engine) (storage : StorageId) (r : ErrorStack) : Prop :=
  exists pointer r0 chunks e_at,
    1 <= storage <= max_storage_id_ s
    /\ ptrs !! storage = Some pointer
    /\ replace_pointers_storages env s ptrs (seqZ 1 (storage - 1)) kRetOk
         (replicate (get_soc_count env) (clear {| capacity := kMaxSize env; chunk_ := [] |}))
         (emit XctPaused (set_accepting_xct false e))
       = Returned ((r0, chunks), e_at)
    /\ is_error r0 = false
    /\ (composer_replace_pointers env storage s pointer chunks (volatile_pools e_at)).1.1
       = r.

(** Snapshots that follow one another from a control block with
    [snapshot_epoch_ = epoch] and [previous_snapshot_id_ = id]. *)
Fixpoint chained (epoch : Epoch) (id : SnapshotId) (ss : list Snapshot) : Prop :=
  match ss with
  | [] => True
  | s :: ss =>
    base_epoch_ s = epoch
    /\ valid_until_epoch_ s <> 0
    /\ (epoch <> 0 -> epoch < valid_until_epoch_ s)
    /\ id_ s = (if id =? kNullSnapshotId then 1 else increment id)
    /\ chained (valid_until_epoch_ s) (id_ s) ss
  end.

(** ** A small engine for the instances *)

(** One node; a volatile pool of six pages of which 5 and 6 are free;
    three storages, of which the gleaner gives 1 and 2 a new root page.
    The composer of [failing_storage] fails; the others drop one page
    each, storage [i] the page [first_dropped + i - 1]. *)
Definition example_env (durable : Epoch) (failing_storage : StorageId)
    (first_dropped : PagePoolOffset) : Collaborators :=
  {| snapshot_interval_milliseconds_ := 1000;
     ticks_per_millisecond := 1000;
     get_soc_count := 1;
     kMaxSize := 4095;
     get_durable_global_epoch := durable;
     get_largest_storage_id := 3;
     gleaner_execute := fun _ => kRetOk;
     get_new_root_page_pointers := fun _ => <[1 := 100]> (<[2 := 200]> ∅);
     clone_all_storage_metadata := (kRetOk, <[1 := 10]> (<[2 := 20]> (<[3 := 30]> ∅)));
     fs_exists := true;
     fs_create_directories := true;
     save_to_file := fun _ => kRetOk;
     take_savepoint_after_snapshot := fun _ _ => kRetOk;
     fileset_initialize := kRetOk;
     composer_replace_pointers := fun storage _ _ dropped_chunks pools =>
       if storage =? failing_storage then (kErrorCodeOther 7, dropped_chunks, pools)
       else
         (kRetOk,
          match dropped_chunks with
          | chunk :: rest => push_back chunk [first_dropped + storage - 1] :: rest
          | [] => []
          end,
          pools);
     system_clock_now := 5000000 |}.

Definition example_engine (epoch : Epoch) (id : SnapshotId) : Engine :=
  {| control_block_ :=
       {| snapshot_epoch_ := epoch; previous_snapshot_id_ := id;
          immediate_snapshot_requested_ := false |};
     previous_snapshot_time_ := 0;
     accepting_xct := true;
     metadata_files := ∅;
     latest_savepoint := (id, epoch);
     volatile_pools :=
       [{| pool_size_ := 7; pages_for_free_pool_ := 1; free_pool_ := [1; 2; 3; 4; 5; 6];
           free_pool_capacity_ := 6; free_pool_head_ := 4; free_pool_count_ := 2 |}];
     effects := [] |}.

(** The state in which a call returned ([e] when it ended the process). *)
Definition state_after {A} (o : outcome (A * Engine)) (e : Engine) : Engine :=
  match o with
  | Returned (_, e') => e'
  | Aborted _ => e
  end.


(** ** [get_snapshot_metadata_file_path] (lines 399-405) *)

(** [fs::Path] is not part of the sources at hand: a path is the string
    it holds, and [path_append] stands for its operator [/=].
    [std::to_string] of an id is its decimal numeral. *)
Definition get_snapshot_metadata_file_path (path_append : string -> string -> string)
    (primary_folder_path : string) (snapshot_id : SnapshotId) : string :=
  let folder := primary_folder_path in
  let file := folder in
  path_append file ("snapshot_metadata_" +:+ pretty snapshot_id +:+ ".xml").

(** ** [trigger_snapshot_immediate] (lines 221-244), not waiting *)

(** The call with [wait_completion == false], in which the loop of
    lines 230-242 is left after its first round; [stop_requested] is
    what [is_stop_requested()] answers.  The signal on [snapshot_wakeup]
    only shortens the sleep of the daemon and is not modelled. *)
Definition trigger_snapshot_immediate (env : Collaborators) (stop_requested : bool)
  : M unit :=
  let* e := get in
  let before := snapshot_epoch_ (control_block_ e) in
  let durable_epoch := get_durable_global_epoch env in
  if is_valid before && (before =? durable_epoch) then ret tt
  else
    let* e := get in
    if (before =? snapshot_epoch_ (control_block_ e)) && negb stop_requested then
      modify (fun e => set_control_block
                {| snapshot_epoch_ := snapshot_epoch_ (control_block_ e);
                   previous_snapshot_id_ := previous_snapshot_id_ (control_block_ e);
                   immediate_snapshot_requested_ := true |} e)
    else ret tt.

(** Calls of [handle_snapshot_triggered] one after another, whatever
    they return: the state after the last. *)
Fixpoint run_all (envs : list Collaborators) : M unit :=
  match envs with
  | [] => ret tt
  | env :: envs => let* _ := handle_snapshot_triggered env in run_all envs
  end.

(** The id that the next run issues from a control block that holds
    [id] (lines 259-264). *)
Definition next_snapshot_id (id : SnapshotId) : SnapshotId :=
  if id =? kNullSnapshotId then 1 else increment id.

(** The storages for which [replace_pointers] invokes a composer when
    none fails: those from 1 to [max_storage_id_] that have a new root
    page, in ascending order. *)
Definition storages_to_replace (new_snapshot : Snapshot)
    (new_root_page_pointers : gmap Z Z) : list StorageId :=
  filter (fun id => is_Some (new_root_page_pointers !! id))
    (seqZ 1 (max_storage_id_ new_snapshot)).

(** The savepoint names the snapshot of the control block, or the one
    that the next run issues. *)
Definition savepoint_in_step (e : Engine) : Prop :=
  latest_savepoint e
    = (previous_snapshot_id_ (control_block_ e), snapshot_epoch_ (control_block_ e))
  \/ (latest_savepoint e).1 = next_snapshot_id (previous_snapshot_id_ (control_block_ e)).

(** ** [initialize_once] (lines 44-89), in the master engine *)

(** The call in the master engine ([is_master()] true): the check of
    the log manager (lines 46-48), the control block taken from the
    savepoint (lines 53-59) and the clock reading (line 70).  The counts
    of the gleaner (lines 61-66) lie in a part of the control block that
    no run reads here, and the launch of the daemon thread (line 83)
    is what [handle_snapshot_wakeup] stands for; both are left out.
    [kErrorCodeDepedentModuleUnavailableInit] is a constant of the error
    codes, which are not among the sources at hand. *)
Definition initialize_once (env : Collaborators) (log_manager_is_initialized : bool)
    (kErrorCodeDepedentModuleUnavailableInit : ErrorCode) : M ErrorStack :=
  if negb log_manager_is_initialized then
    ret (ERROR_STACK kErrorCodeDepedentModuleUnavailableInit)
  else
    (* get snapshot status from savepoint *)
    let* e := get in
    let* _ := modify (set_control_block
                {| snapshot_epoch_ := (latest_savepoint e).2;
                   previous_snapshot_id_ := (latest_savepoint e).1;
                   immediate_snapshot_requested_ := false |}) in
    let* _ := modify (set_previous_snapshot_time (system_clock_now env)) in
    ret kRetOk.

End SnapshotManager.

Module PagePoolFacts.
Import Memory.

Lemma u64_small x : 0 <= x < 2 ^ 64 -> u64 x = x.
Proof. intros; unfold u64; rewrite Z.mod_small; lia. Qed.

Lemma u32_small x : 0 <= x < 2 ^ 32 -> u32 x = x.
Proof. intros; unfold u32; rewrite Z.mod_small; lia. Qed.

Section ring.
Context {A : Type}.
Implicit Types (a k : list A) (h c n i : nat).

(** Entry [i] of the array rotated to start at [h]. *)
Lemma rotated_lookup a h i :
  (h <= length a)%nat -> (i < length a)%nat ->
  (drop h a ++ take h a) !! i =
    a !! (if decide (h + i < length a)%nat then h + i else h + i - length a)%nat.
Proof.
  intros Hh Hi. case_decide.
  - rewrite lookup_app_l; [by rewrite lookup_drop | rewrite length_drop; lia].
  - rewrite lookup_app_r; rewrite length_drop; [| lia].
    rewrite lookup_take_lt; [f_equal; lia | lia].
Qed.

Lemma rotated_length a h : length (drop h a ++ take h a) = length a.
Proof. rewrite length_app, length_drop, length_take. lia. Qed.

(** Moving the start [n] entries on, round the end of the array. *)
Lemma rotated_advance a h n :
  (h <= length a)%nat -> (n <= length a)%nat ->
  let h' := (if decide (h + n <= length a)%nat then h + n else h + n - length a)%nat in
  drop h' a ++ take h' a
  = drop n (drop h a ++ take h a) ++ take n (drop h a ++ take h a).
Proof.
  intros Hh Hn h'. apply list_eq; intros i.
  destruct (decide (i < length a)%nat) as [Hi|Hi].
  - assert (Hh' : (h' <= length a)%nat) by (subst h'; case_decide; lia).
    rewrite rotated_lookup by done.
    destruct (decide (i < length a - n)%nat) as [Hin|Hin].
    + rewrite lookup_app_l by (rewrite length_drop, rotated_length; lia).
      rewrite lookup_drop, rotated_lookup by lia.
      f_equal. subst h'. repeat case_decide; lia.
    + rewrite lookup_app_r by (rewrite length_drop, rotated_length; lia).
      rewrite length_drop, rotated_length.
      rewrite lookup_take_lt by lia. rewrite rotated_lookup by lia.
      f_equal. subst h'. repeat case_decide; lia.
  - rewrite !lookup_ge_None_2; [done | |].
    + rewrite length_app, length_drop, length_take, rotated_length. lia.
    + rewrite rotated_length. lia.
Qed.
End ring.

Lemma live_window_length p :
  pool_shape p -> Z.of_nat (length (live_window p)) = free_pool_count_ p.
Proof.
  intros []. unfold live_window. rewrite length_take, rotated_length. lia.
Qed.


Lemma window_after_grab (a : list PagePoolOffset) (h c n h' : nat) :
  (h <= length a)%nat -> (c <= length a)%nat -> (n <= c)%nat ->
  h' = (if decide (h + n <= length a)%nat then h + n else h + n - length a)%nat ->
  take (c - n) (drop h' a ++ take h' a)
  = drop n (take c (drop h a ++ take h a)).
Proof.
  intros Hh Hc Hn ->.
  rewrite (rotated_advance a h n) by lia.
  rewrite take_app_le by (rewrite length_drop, rotated_length; lia).
  rewrite take_drop_commute. do 2 f_equal. lia.
Qed.

Lemma grab_spec d p ch :
  pool_shape p -> 0 < free_pool_count_ p -> 0 <= d ->
  let n := Z.to_nat (Z.min d (free_pool_count_ p)) in
  exists p',
    grab d p ch = (kErrorCodeOk, p', push_back ch (take n (live_window p)))
    /\ live_window p' = drop n (live_window p)
    /\ free_pool_count_ p' = free_pool_count_ p - Z.min d (free_pool_count_ p)
    /\ free_pool_ p' = free_pool_ p
    /\ free_pool_capacity_ p' = free_pool_capacity_ p
    /\ pages_for_free_pool_ p' = pages_for_free_pool_ p
    /\ pool_size_ p' = pool_size_ p
    /\ pool_shape p'.
Proof.
  intros Hs Hpos Hd n. pose proof Hs as [Hlen Hh Hc Hp Hsz Hb].
  unfold grab. destruct (Z.eqb_spec (free_pool_count_ p) 0) as [|_]; [lia|].
  set (g := Z.min d (free_pool_count_ p)) in *.
  assert (Hg : 0 <= g <= free_pool_count_ p) by (subst g; lia).
  rewrite (u64_small (_ + g)) by lia.
  destruct (Z.gtb_spec (free_pool_head_ p + g) (free_pool_capacity_ p)) as [Hw|Hw];
    cbn [set_free_pool_head set_free_pool_count free_pool_ free_pool_head_
         free_pool_count_ free_pool_capacity_ pool_size_ pages_for_free_pool_].
  - (* the head wraps *)
    rewrite (u64_small (free_pool_capacity_ p - _)) by lia.
    rewrite (u64_small (g - _)), (u64_small (free_pool_count_ p - _)) by lia.
    rewrite (u64_small (0 + _)), (u64_small (_ - _ - _)) by lia.
    eexists; split; [apply f_equal2; [reflexivity|] |].
    + unfold push_back; cbn. f_equal. rewrite <- app_assoc. f_equal.
      unfold read_range, live_window. rewrite drop_0.
      rewrite take_take, Nat.min_l by lia. rewrite take_app.
      rewrite length_drop. rewrite !(take_ge (drop _ _)) by (rewrite length_drop; lia).
      f_equal. rewrite take_take. f_equal. lia.
    + cbn. split; [|repeat split; cbn; lia].
      unfold live_window; cbn.
      match goal with |- take ?k _ = _ =>
        replace k with (Z.to_nat (free_pool_count_ p) - n)%nat by lia end.
      apply window_after_grab; [lia.. | case_decide; lia].
  - (* no wrap around *)
    rewrite ?(u64_small (_ + g)), (u64_small (_ - g)) by lia.
    eexists; split; [apply f_equal2; [reflexivity|] |].
    + unfold push_back; cbn. do 2 f_equal. unfold read_range, live_window.
      rewrite take_take, Nat.min_l by lia.
      rewrite take_app_le by (rewrite length_drop; lia). done.
    + cbn. split; [|repeat split; cbn; lia].
      unfold live_window; cbn.
      match goal with |- take ?k _ = _ =>
        replace k with (Z.to_nat (free_pool_count_ p) - n)%nat by lia end.
      apply window_after_grab; [lia.. | case_decide; lia].
Qed.


(** The window after a release that writes [k1] at the tail [t] and,
    when that reaches the end of the array, [k2] at its start. *)
Lemma window_after_release (a k1 k2 : list PagePoolOffset) (h c t : nat) :
  (h <= length a)%nat ->
  (c + length k1 + length k2 <= length a)%nat ->
  t = (if decide (h + c < length a)%nat then h + c else h + c - length a)%nat ->
  (t + length k1 <= length a)%nat ->
  (k2 = [] \/ t + length k1 = length a)%nat ->
  let a' := list_inserts 0 k2 (list_inserts t k1 a) in
  take (c + length k1 + length k2) (drop h a' ++ take h a')
  = take c (drop h a ++ take h a) ++ k1 ++ k2.
Proof.
  intros Hh Hc Ht Hk1 Hk2 a'.
  assert (Hlen : length a' = length a) by (subst a'; by rewrite !length_inserts).
  assert (Hk2' : (length k2 = 0 \/ t + length k1 = length a)%nat)
    by (destruct Hk2 as [->|]; [by left | by right]).
  clear Hk2.
  apply list_eq; intros i.
  destruct (decide (i < c + length k1 + length k2)%nat) as [Hi|Hi].
  - rewrite lookup_take_lt, rotated_lookup by lia. rewrite Hlen. subst a'.
    destruct (decide (i < c)%nat) as [Hic|Hic].
    + rewrite lookup_app_l by (rewrite length_take, rotated_length; lia).
      rewrite lookup_take_lt, rotated_lookup by lia.
      rewrite list_lookup_inserts_ge by (repeat case_decide; lia).
      destruct (decide (h + c < length a)%nat).
      * rewrite list_lookup_inserts_lt by (repeat case_decide; lia). done.
      * case_decide.
        -- rewrite list_lookup_inserts_ge by lia. done.
        -- rewrite list_lookup_inserts_lt by lia. done.
    + rewrite lookup_app_r by (rewrite length_take, rotated_length; lia).
      rewrite length_take, rotated_length, Nat.min_l by lia.
      destruct (decide (i < c + length k1)%nat) as [Hik|Hik].
      * rewrite lookup_app_l by lia.
        rewrite list_lookup_inserts_ge by (repeat case_decide; lia).
        rewrite list_lookup_inserts by (repeat case_decide; lia).
        f_equal. repeat case_decide; lia.
      * rewrite lookup_app_r by lia.
        rewrite list_lookup_inserts
          by (rewrite ?length_inserts; repeat case_decide; lia).
        f_equal. repeat case_decide; lia.
  - rewrite !lookup_ge_None_2; [done | |].
    + rewrite !length_app, length_take, rotated_length. lia.
    + rewrite length_take. lia.
Qed.


Lemma release_spec d p ch :
  pool_shape p -> 0 <= d <= size ch -> d < 2 ^ 32 ->
  free_pool_count_ p + d <= free_pool_capacity_ p ->
  let keep := Z.to_nat (size ch - d) in
  let released := drop keep (chunk_ ch) in
  exists p' (w : nat),
    (w <= Z.to_nat d)%nat
    /\ release d p ch
       = Returned (p', {| capacity := capacity ch; chunk_ := take keep (chunk_ ch) |})
    /\ live_window p'
       = live_window p ++ drop (Z.to_nat d - w) released ++ take (Z.to_nat d - w) released
    /\ free_pool_count_ p' = free_pool_count_ p + d
    /\ free_pool_capacity_ p' = free_pool_capacity_ p
    /\ pages_for_free_pool_ p' = pages_for_free_pool_ p
    /\ pool_size_ p' = pool_size_ p
    /\ pool_shape p'.
Proof.
  intros Hs Hd Hd32 Hfit keep released. pose proof Hs as [Hlen Hh Hc Hp Hsz Hb].
  assert (Hrel : length released = Z.to_nat d).
  { subst released keep. rewrite length_drop. unfold size in *. lia. }
  unfold release. rewrite (u64_small (_ + d)) by lia.
  destruct (Z.gtb_spec (free_pool_count_ p + d) (free_pool_capacity_ p)) as [|_]; [lia|].
  rewrite Z.min_l by lia.
  rewrite (u64_small (free_pool_head_ p + _)) by lia.
  set (t := if _ >=? _ then _ else _).
  assert (Ht : t = Z.of_nat
            (if decide (Z.to_nat (free_pool_head_ p) + Z.to_nat (free_pool_count_ p)
                        < length (free_pool_ p))%nat
             then Z.to_nat (free_pool_head_ p) + Z.to_nat (free_pool_count_ p)
             else Z.to_nat (free_pool_head_ p) + Z.to_nat (free_pool_count_ p)
                  - length (free_pool_ p))%nat).
  { subst t. destruct (Z.geb_spec (free_pool_head_ p + free_pool_count_ p)
                         (free_pool_capacity_ p)).
    - rewrite u64_small by lia. case_decide; lia.
    - case_decide; lia. }
  assert (Ht0 : 0 <= t <= free_pool_capacity_ p) by (rewrite Ht; case_decide; lia).
  clearbody t.
  rewrite (u64_small (t + d)) by lia.
  destruct (Z.gtb_spec (t + d) (free_pool_capacity_ p)) as [Hw|Hw].
  - (* the tail wraps *)
    rewrite (u64_small (free_pool_capacity_ p - t)) by lia.
    rewrite (u32_small (free_pool_capacity_ p - t)) by lia.
    remember (free_pool_capacity_ p - t) as w eqn:Hweq.
    unfold size in Hd.
    unfold move_to at 1. cbn [chunk_ capacity].
    cbn [set_free_pool set_free_pool_count free_pool_ free_pool_head_
         free_pool_count_ free_pool_capacity_ pool_size_ pages_for_free_pool_].
    rewrite (u64_small (d - w)), (u64_small (_ + w)) by lia.
    rewrite (u32_small (d - w)) by lia.
    unfold move_to, size. cbn [chunk_ capacity].
    cbn [set_free_pool set_free_pool_count free_pool_ free_pool_head_
         free_pool_count_ free_pool_capacity_ pool_size_ pages_for_free_pool_].
    rewrite (u64_small (_ + w + _)) by lia.
    set (k1 := take (Z.to_nat w) _). set (k2 := take (Z.to_nat (d - w)) _).
    assert (Hk1 : k1 = drop (Z.to_nat d - Z.to_nat w) released).
    { subst k1 released keep. rewrite drop_drop. unfold size.
      rewrite take_ge by (rewrite length_drop; lia). f_equal. lia. }
    assert (Hk2 : k2 = take (Z.to_nat d - Z.to_nat w) released).
    { subst k2 released keep. unfold size. rewrite length_take.
      rewrite (take_drop_commute (take _ _)), take_take.
      rewrite (take_drop_commute (chunk_ ch)).
      f_equal; [lia | f_equal; lia]. }
    exists (set_free_pool_count (free_pool_count_ p + w + (d - w))
              (set_free_pool (write_range (write_range (free_pool_ p) t k1) 0 k2) p)),
           (Z.to_nat w).
    split; [lia|]. split.
    { do 3 f_equal. unfold size. rewrite take_take. f_equal. rewrite length_take. subst keep. unfold size. lia. }
    split.
    { unfold live_window, write_range; cbn.
      rewrite <- Hk1, <- Hk2.
      assert (length k1 = Z.to_nat w) by (rewrite Hk1, length_drop; lia).
      assert (length k2 = Z.to_nat (d - w)) by (rewrite Hk2, length_take; lia).
      replace (Z.to_nat (free_pool_count_ p + w + (d - w)))
        with (Z.to_nat (free_pool_count_ p) + length k1 + length k2)%nat by lia.
      rewrite Ht, Nat2Z.id, Z2Nat.inj_0.
      apply window_after_release; [lia | lia | done | case_decide; lia | case_decide; lia]. }
    repeat split; cbn; rewrite ?length_inserts; unfold write_range;
      rewrite ?length_inserts; lia.
  - (* no wrap around *)
    rewrite (u32_small d) by lia.
    unfold move_to. cbn [chunk_ capacity].
    cbn [set_free_pool set_free_pool_count free_pool_ free_pool_head_
         free_pool_count_ free_pool_capacity_ pool_size_ pages_for_free_pool_].
    rewrite (u64_small (_ + d)) by lia.
    fold keep. fold released.
    rewrite (take_ge released) by lia.
    exists (set_free_pool_count (free_pool_count_ p + d)
              (set_free_pool (write_range (free_pool_ p) t released) p)),
           (Z.to_nat d).
    split; [lia|]. split; [done|]. split.
    { pose proof (window_after_release (free_pool_ p) released []
                    (Z.to_nat (free_pool_head_ p)) (Z.to_nat (free_pool_count_ p)) _
                    ltac:(lia) ltac:(cbn; lia) eq_refl
                    ltac:(case_decide; lia) ltac:(by left)) as Hwin.
      cbn [list_inserts length] in Hwin. rewrite app_nil_r, Nat.add_0_r in Hwin.
      unfold live_window, write_range; cbn.
      rewrite Nat.sub_diag, drop_0, take_0, app_nil_r.
      rewrite Ht, Nat2Z.id, <- Hwin. f_equal. lia. }
    repeat split; cbn; unfold write_range; rewrite ?length_inserts; lia.
Qed.


(** The first [n] live entries lie in the array from the head to its
    end and, when that is short of [n], on from its start. *)
Lemma window_segments p (n : nat) :
  pool_shape p -> (n <= Z.to_nat (free_pool_count_ p))%nat ->
  let w := (n `min` Z.to_nat (free_pool_capacity_ p - free_pool_head_ p))%nat in
  take n (live_window p)
  = read_range (free_pool_ p) (free_pool_head_ p) (Z.of_nat w)
    ++ read_range (free_pool_ p) 0 (Z.of_nat (n - w)).
Proof.
  intros [Hlen Hh Hc _ _ _] Hn w. unfold live_window, read_range.
  rewrite take_take, Nat.min_l, take_app, length_drop, !Nat2Z.id, drop_0 by lia.
  f_equal.
  - destruct (decide (n <= Z.to_nat (free_pool_capacity_ p - free_pool_head_ p))%nat).
    + f_equal. lia.
    + rewrite !take_ge by (rewrite length_drop; lia). done.
  - rewrite take_take. f_equal. lia.
Qed.

Lemma NoDup_drop_suffix {A} (l : list A) n : NoDup l -> NoDup (drop n l).
Proof. intros H. rewrite <- (take_drop n l) in H. by apply NoDup_app in H as (_ & _ & ?). Qed.

Lemma Forall_drop_suffix {A} (P : A -> Prop) (l : list A) n : Forall P l -> Forall P (drop n l).
Proof. intros H. rewrite <- (take_drop n l) in H. by apply Forall_app in H as [_ ?]. Qed.

(** [grab] keeps the invariant, and moves as many offsets into the
    chunk as it takes from the pool. *)
Lemma grab_keeps_invariant d p ch :
  pool_invariant p -> 0 <= d ->
  exists e p' ch' n,
    grab d p ch = (e, p', ch')
    /\ 0 <= n
    /\ size ch' = size ch + n
    /\ free_pool_count_ p' = free_pool_count_ p - n
    /\ free_pool_capacity_ p' = free_pool_capacity_ p
    /\ pool_invariant p'.
Proof.
  intros [Hs Hnd Hr] Hd.
  destruct (decide (free_pool_count_ p = 0)) as [Hz|Hz].
  - exists kErrorCodeMemoryNoFreePages, p, ch, 0. unfold grab.
    rewrite Hz. cbn. split; [done|]. do 3 (split; [lia|]). split; [done|]. by constructor.
  - assert (Hpos : 0 < free_pool_count_ p) by (destruct Hs; lia).
    destruct (grab_spec d p ch Hs Hpos Hd) as (p' & Hg & Hl & Hc & _ & Hcap & Hpf & Hps & Hs').
    eexists _, p', _, (Z.min d (free_pool_count_ p)). split; [exact Hg|].
    split; [lia|]. split.
    { unfold size, push_back; cbn. rewrite length_app, length_take.
      pose proof (live_window_length p Hs). lia. }
    split; [done|]. split; [done|]. constructor; [done | |]; rewrite Hl.
    + by apply NoDup_drop_suffix.
    + apply Forall_drop_suffix. unfold in_pool in *. by rewrite Hpf, Hps.
Qed.

(** [release] keeps the invariant when the pages handed back are pages
    of the pool that are not free already, each once. *)
Lemma release_keeps_invariant d p ch :
  pool_invariant p -> 0 <= d <= size ch -> d < 2 ^ 32 ->
  free_pool_count_ p + d <= free_pool_capacity_ p ->
  NoDup (tail_of d ch ++ live_window p) ->
  Forall (in_pool p) (tail_of d ch) ->
  exists p' ch',
    release d p ch = Returned (p', ch')
    /\ size ch' = size ch - d
    /\ free_pool_count_ p' = free_pool_count_ p + d
    /\ free_pool_capacity_ p' = free_pool_capacity_ p
    /\ pool_invariant p'.
Proof.
  intros [Hs Hnd Hr] Hd Hd32 Hfit Hown Hin.
  destruct (release_spec d p ch Hs Hd Hd32 Hfit)
    as (p' & w & Hw & Hrel & Hl & Hc & Hcap & Hpf & Hps & Hs').
  fold (tail_of d ch) in Hl.
  eexists p', _. split; [exact Hrel|]. split.
  { unfold size in *; cbn. rewrite length_take. lia. }
  split; [done|]. split; [done|].
  assert (Hperm : live_window p' ≡ₚ tail_of d ch ++ live_window p).
  { rewrite Hl, (Permutation_app_comm (live_window p)).
    apply Permutation_app_tail.
    rewrite Permutation_app_comm. by rewrite take_drop. }
  constructor; [done | |]; rewrite Hperm; [done|].
  apply Forall_app. unfold in_pool in *. rewrite Hpf, Hps. done.
Qed.


Lemma conservation_from (initial outstanding : Z) (calls : list call) :
  forall p t,
    pool_invariant p ->
    free_pool_count_ p = initial - sum_grabbed t + sum_released t ->
    free_pool_capacity_ p = initial + outstanding ->
    preconditions true outstanding calls p t ->
    after_each_call (conserved initial) calls p t.
Proof.
  induction calls as [|c calls IH]; intros p t Hinv Hcount Hcap Hpre; [done|].
  destruct Hpre as [Hc Hrest]. cbn [after_each_call].
  destruct c as [d ch|d ch].
  - destruct Hc as [Hd _].
    destruct (grab_keeps_invariant d p ch Hinv ltac:(lia))
      as (e & p' & ch' & n & Hg & Hn & Hsz & Hcnt & Hcap' & Hinv').
    unfold step in *. rewrite Hg in *.
    assert (Hcons : free_pool_count_ p' =
              initial - (sum_grabbed t + (size ch' - size ch)) + sum_released t) by lia.
    split; [|apply IH; [done | exact Hcons | lia | done]].
    destruct Hinv' as [[] ? ?]. repeat split; cbn; try done; lia.
  - destruct Hc as (Hd & Hsize & Htot & Hown).
    destruct (Hown eq_refl) as [Hnd Hin].
    destruct (release_keeps_invariant d p ch Hinv ltac:(lia) ltac:(lia) ltac:(lia) Hnd Hin)
      as (p' & ch' & Hr & Hsz & Hcnt & Hcap' & Hinv').
    unfold step in *. rewrite Hr in *.
    assert (Hcons : free_pool_count_ p' =
              initial - sum_grabbed t + (sum_released t + (size ch - size ch'))) by lia.
    split; [|apply IH; [done | exact Hcons | lia | done]].
    destruct Hinv' as [[] ? ?]. repeat split; cbn; try done; lia.
Qed.

Lemma count_from (initial outstanding : Z) (calls : list call) :
  forall p t,
    pool_shape p ->
    free_pool_count_ p = initial - sum_grabbed t + sum_released t ->
    free_pool_capacity_ p = initial + outstanding ->
    preconditions false outstanding calls p t ->
    after_each_call (count_conserved initial) calls p t.
Proof.
  induction calls as [|c calls IH]; intros p t Hs Hcount Hcap Hpre; [done|].
  destruct Hpre as [Hc Hrest]. cbn [after_each_call].
  destruct c as [d ch|d ch].
  - destruct Hc as [Hd _].
    assert (Hg : exists e p' ch' n,
               grab d p ch = (e, p', ch') /\ 0 <= n /\ size ch' = size ch + n
               /\ free_pool_count_ p' = free_pool_count_ p - n
               /\ free_pool_capacity_ p' = free_pool_capacity_ p /\ pool_shape p').
    { destruct (decide (free_pool_count_ p = 0)) as [Hz|Hz].
      - exists kErrorCodeMemoryNoFreePages, p, ch, 0. unfold grab.
        rewrite Hz. cbn. split; [done|]. by do 3 (split; [lia|]).
      - assert (Hpos : 0 < free_pool_count_ p) by (destruct Hs; lia).
        destruct (grab_spec d p ch Hs Hpos ltac:(lia))
          as (p' & Hg & _ & Hc & _ & Hcap' & _ & _ & Hs').
        eexists _, p', _, (Z.min d (free_pool_count_ p)). split; [exact Hg|].
        split; [lia|]. split; [|done].
        unfold size, push_back; cbn. rewrite length_app, length_take.
        pose proof (live_window_length p Hs). lia. }
    destruct Hg as (e & p' & ch' & n & Hg & Hn & Hsz & Hcnt & Hcap' & Hs').
    unfold step in *. rewrite Hg in *.
    assert (Hcons : free_pool_count_ p' =
              initial - (sum_grabbed t + (size ch' - size ch)) + sum_released t) by lia.
    split; [|apply IH; [done | exact Hcons | lia | done]].
    destruct Hs'. split; cbn; [done | lia].
  - destruct Hc as (Hd & Hsize & Htot & _).
    destruct (release_spec d p ch Hs ltac:(lia) ltac:(lia) ltac:(lia))
      as (p' & w & _ & Hr & _ & Hcnt & Hcap' & _ & _ & Hs').
    unfold step in *. rewrite Hr in *.
    assert (Hsz : size {| capacity := capacity ch;
                          chunk_ := take (Z.to_nat (size ch - d)) (chunk_ ch) |}
                  = size ch - d).
    { unfold size in *; cbn. rewrite length_take. lia. }
    rewrite Hsz in *.
    assert (Hcons : free_pool_count_ p' =
              initial - sum_grabbed t + (sum_released t + (size ch - (size ch - d)))) by lia.
    split; [|apply IH; [done | exact Hcons | lia | done]].
    destruct Hs'. split; cbn; [done | lia].
Qed.

(** C1 (as amended).  After each call of a sequence of [grab] and
    [release] calls that respects the stated preconditions -- a grab
    fits its chunk; a release takes no more than its chunk holds and
    keeps the total released within the total grabbed plus the pages
    that were out of the pool at the start -- on a well-formed pool,
    [free_pool_count_] is the initial count minus the offsets grabbed
    plus the offsets released and lies within
    [[0, free_pool_capacity_]].  When moreover the pool satisfies the
    invariant at the start and every release hands back pages of this
    pool that are not free already, each once, the live window holds
    pairwise distinct offsets of [[pages_for_free_pool_, pool_size_)]
    after each call. *)
Theorem pool_conservation (calls : list call) (p : PagePoolPimpl) :
  pool_shape p ->
  preconditions false (free_pool_capacity_ p - free_pool_count_ p) calls p
    {| sum_grabbed := 0; sum_released := 0 |} ->
  after_each_call (count_conserved (free_pool_count_ p)) calls p
    {| sum_grabbed := 0; sum_released := 0 |}
  /\ (pool_invariant p ->
      preconditions true (free_pool_capacity_ p - free_pool_count_ p) calls p
        {| sum_grabbed := 0; sum_released := 0 |} ->
      after_each_call (conserved (free_pool_count_ p)) calls p
        {| sum_grabbed := 0; sum_released := 0 |}).
Proof.
  intros Hs Hpre. split.
  - apply (count_from _ (free_pool_capacity_ p - free_pool_count_ p));
      [done | cbn; lia | lia | done].
  - intros Hinv Hown.
    apply (conservation_from _ (free_pool_capacity_ p - free_pool_count_ p));
      [done | cbn; lia | lia | done].
Qed.

(** C5.  On a pool with free pages, [grab] succeeds, also when it grants
    fewer than desired: it takes the first [min desired free_pool_count_]
    offsets of the live window, read from the array in at most two
    ranges (the second only when the head wraps), appends them to the
    chunk in that order, and lowers [free_pool_count_] by their
    number. *)
Theorem grab_transfers_from_head (d : Z) (p : PagePoolPimpl) (ch : PagePoolOffsetChunk) :
  pool_shape p -> 0 < free_pool_count_ p -> 0 <= d < 2 ^ 32 ->
  size ch + d <= capacity ch ->
  let n := Z.min d (free_pool_count_ p) in
  exists p' seg1 seg2,
    grab d p ch = (kErrorCodeOk, p', push_back ch (seg1 ++ seg2))
    /\ seg1 = read_range (free_pool_ p) (free_pool_head_ p) (Z.of_nat (length seg1))
    /\ seg2 = read_range (free_pool_ p) 0 (Z.of_nat (length seg2))
    /\ (free_pool_head_ p + n <= free_pool_capacity_ p -> seg2 = [])
    /\ seg1 ++ seg2 = take (Z.to_nat n) (live_window p)
    /\ Z.of_nat (length (seg1 ++ seg2)) = n
    /\ live_window p' = drop (Z.to_nat n) (live_window p)
    /\ free_pool_count_ p' = free_pool_count_ p - n
    /\ size (push_back ch (seg1 ++ seg2)) <= capacity ch.
Proof.
  intros Hs Hpos Hd Hfit n.
  destruct (grab_spec d p ch Hs Hpos ltac:(lia)) as (p' & Hg & Hl & Hc & _).
  pose proof (window_segments p (Z.to_nat n) Hs ltac:(lia)) as Hseg. cbn zeta in Hseg.
  pose proof Hs as [Hlen Hh Hcn _ _ _].
  set (w := (Z.to_nat n `min` Z.to_nat (free_pool_capacity_ p - free_pool_head_ p))%nat) in *.
  exists p', (read_range (free_pool_ p) (free_pool_head_ p) (Z.of_nat w)),
         (read_range (free_pool_ p) 0 (Z.of_nat (Z.to_nat n - w))).
  assert (Hl1 : length (read_range (free_pool_ p) (free_pool_head_ p) (Z.of_nat w)) = w).
  { unfold read_range. rewrite length_take, length_drop. lia. }
  assert (Hl2 : length (read_range (free_pool_ p) 0 (Z.of_nat (Z.to_nat n - w)))
                = (Z.to_nat n - w)%nat).
  { unfold read_range. rewrite length_take, length_drop. lia. }
  rewrite <- Hseg. split; [exact Hg|].
  split; [by rewrite Hl1|]. split; [by rewrite Hl2|].
  split.
  { intros Hnw. replace (Z.to_nat n - w)%nat with 0%nat by lia. done. }
  split; [done|].
  assert (Hlen' : Z.of_nat (length (take (Z.to_nat n) (live_window p))) = n).
  { rewrite length_take. pose proof (live_window_length p Hs). lia. }
  split; [done|]. split; [done|]. split; [done|].
  unfold size, push_back in *; cbn. rewrite length_app. lia.
Qed.

(** C6.  [release] of no more than the chunk holds: when the count would
    pass [free_pool_capacity_] it ends the process on the duplicate-page
    error; otherwise it takes exactly the last [desired] offsets off the
    chunk, appends them to the live window in at most two pieces, and
    raises [free_pool_count_] by [desired]. *)
Theorem release_appends_or_aborts (d : Z) (p : PagePoolPimpl) (ch : PagePoolOffsetChunk) :
  pool_shape p -> 0 <= d < 2 ^ 32 -> size ch >= d ->
  (free_pool_count_ p + d > free_pool_capacity_ p ->
   release d p ch = Aborted kErrorCodeMemoryDuplicatePage)
  /\ (free_pool_count_ p + d <= free_pool_capacity_ p ->
      exists p' ch' seg1 seg2,
        release d p ch = Returned (p', ch')
        /\ chunk_ ch = chunk_ ch' ++ tail_of d ch
        /\ Z.of_nat (length (tail_of d ch)) = d
        /\ size ch' = size ch - d
        /\ tail_of d ch = seg2 ++ seg1
        /\ live_window p' = live_window p ++ seg1 ++ seg2
        /\ free_pool_count_ p' = free_pool_count_ p + d).
Proof.
  intros Hs Hd Hsize. split.
  - intros Hover. destruct Hs. unfold release.
    rewrite u64_small by lia.
    destruct (Z.gtb_spec (free_pool_count_ p + d) (free_pool_capacity_ p)); [done | lia].
  - intros Hfit.
    destruct (release_spec d p ch Hs ltac:(lia) ltac:(lia) Hfit)
      as (p' & w & Hw & Hrel & Hl & Hc & _).
    fold (tail_of d ch) in Hl.
    eexists p', _, _, _. split; [exact Hrel|]. cbn [chunk_].
    split; [unfold tail_of; by rewrite take_drop|].
    split; [unfold tail_of, size in *; rewrite length_drop; lia|].
    split; [unfold size in *; cbn; rewrite length_take; lia|].
    split; [symmetry; apply take_drop|]. done.
Qed.

(** C7.  [grab] returns [kErrorCodeMemoryNoFreePages] exactly when
    [free_pool_count_] is zero at the call, and then leaves the pool and
    the chunk as they were; otherwise it returns [kErrorCodeOk]. *)
Theorem grab_fails_iff_no_free_pages (d : Z) (p : PagePoolPimpl) (ch : PagePoolOffsetChunk) :
  ((grab d p ch).1.1 = kErrorCodeMemoryNoFreePages <-> free_pool_count_ p = 0)
  /\ (free_pool_count_ p = 0 -> grab d p ch = (kErrorCodeMemoryNoFreePages, p, ch))
  /\ (free_pool_count_ p <> 0 -> (grab d p ch).1.1 = kErrorCodeOk).
Proof.
  unfold grab. destruct (Z.eqb_spec (free_pool_count_ p) 0) as [Hz|Hz].
  - done.
  - destruct (_ >? _); cbn; (split; [split; [discriminate | done] | done]).
Qed.

Lemma push_back_nil ch : push_back ch [] = ch.
Proof. destruct ch. unfold push_back; cbn. by rewrite app_nil_r. Qed.

(** C10.  [grab(0, chunk)] on a pool without free pages still returns
    [kErrorCodeMemoryNoFreePages]; on a pool with free pages it returns
    [kErrorCodeOk] and leaves the chunk and the pool as they were. *)
Theorem grab_zero (p : PagePoolPimpl) (ch : PagePoolOffsetChunk) :
  pool_shape p ->
  (free_pool_count_ p = 0 -> grab 0 p ch = (kErrorCodeMemoryNoFreePages, p, ch))
  /\ (0 < free_pool_count_ p -> grab 0 p ch = (kErrorCodeOk, p, ch)).
Proof.
  intros [Hlen Hh Hc Hp Hsz Hb]. unfold grab. split; intros Hz.
  - by rewrite Hz.
  - destruct (Z.eqb_spec (free_pool_count_ p) 0) as [|_]; [lia|].
    rewrite Z.min_l, Z.add_0_r by lia. rewrite (u64_small (free_pool_head_ p)) by lia.
    destruct (Z.gtb_spec (free_pool_head_ p) (free_pool_capacity_ p)) as [|_]; [lia|].
    unfold read_range; cbn. rewrite push_back_nil.
    rewrite Z.add_0_r, Z.sub_0_r, !u64_small by lia.
    by destruct p.
Qed.

(** C8.  Grabbing [n] offsets into an empty chunk and releasing what was
    grabbed gives back a pool with the same [free_pool_count_] and the
    same free offsets, up to their order in the queue; the chunk is
    empty again. *)
Theorem grab_release_round_trip (n capacity_ : Z) (p : PagePoolPimpl) :
  pool_shape p -> 0 <= n < 2 ^ 32 -> n <= capacity_ ->
  exists e p1 ch1 p2 ch2,
    grab n p {| capacity := capacity_; chunk_ := [] |} = (e, p1, ch1)
    /\ release (size ch1) p1 ch1 = Returned (p2, ch2)
    /\ (n <= free_pool_count_ p -> size ch1 = n)
    /\ chunk_ ch2 = []
    /\ free_pool_count_ p2 = free_pool_count_ p
    /\ live_window p2 ≡ₚ live_window p.
Proof.
  intros Hs Hn Hcap. pose proof Hs as [Hlen Hh Hc Hp Hsz Hb].
  set (ch := {| capacity := capacity_; chunk_ := [] |}).
  destruct (decide (free_pool_count_ p = 0)) as [Hz|Hz].
  - destruct (release_spec 0 p ch Hs ltac:(done) ltac:(done) ltac:(lia))
      as (p2 & w & _ & Hrel & Hl & Hcnt & _).
    eexists _, p, ch, p2, _.
    split; [unfold grab; by rewrite Hz|]. split; [exact Hrel|].
    split; [intros; unfold size, ch; cbn; lia|]. split; [done|]. split; [lia|].
    rewrite Hl. cbn. by rewrite drop_nil, take_nil, !app_nil_r.
  - destruct (grab_spec n p ch Hs ltac:(lia) ltac:(lia))
      as (p1 & Hg & Hl1 & Hc1 & _ & Hcap1 & _ & _ & Hs1).
    set (m := Z.min n (free_pool_count_ p)) in *.
    set (ch1 := push_back ch (take (Z.to_nat m) (live_window p))) in *.
    assert (Hsz1 : size ch1 = m).
    { unfold size, ch1; cbn. rewrite length_take.
      pose proof (live_window_length p Hs). lia. }
    destruct (release_spec (size ch1) p1 ch1 Hs1 ltac:(lia) ltac:(lia) ltac:(lia))
      as (p2 & w & _ & Hrel & Hl2 & Hc2 & _).
    eexists _, p1, ch1, p2, _.
    split; [exact Hg|]. split; [exact Hrel|].
    split; [lia|]. split; [by rewrite Z.sub_diag|]. split; [lia|].
    rewrite Hl2, Hl1, Z.sub_diag, drop_0.
    rewrite (Permutation_app_comm (drop _ (chunk_ ch1))), take_drop.
    cbn. by rewrite Permutation_app_comm, take_drop.
Qed.


(** *** Instances *)

(** Runs the next call of a sequence on concrete data. *)
Ltac eval_step :=
  match goal with
  | |- context [step ?c ?p ?t] =>
    let H := fresh in
    let v := eval vm_compute in (step c p t) in
    assert (H : step c p t = v) by (vm_compute; reflexivity);
    rewrite H; clear H; cbv beta iota
  end.

Lemma example_pool_shape :
  pool_shape {| pool_size_ := 7; pages_for_free_pool_ := 1; free_pool_ := [1; 2; 3; 4; 5; 6];
                free_pool_capacity_ := 6; free_pool_head_ := 4; free_pool_count_ := 5 |}.
Proof. constructor; cbn; lia. Defined.

(** C1, the claim as stated fails: a pool of two pages, both grabbed,
    then a release of a chunk that names page 1 twice.  Every stated
    precondition holds, whatever the initial content is taken to be, and
    the live window ends up as [[1; 1]]. *)
Lemma pool_conservation_needs_owned_pages :
  let p := {| pool_size_ := 3; pages_for_free_pool_ := 1; free_pool_ := [1; 2];
              free_pool_capacity_ := 2; free_pool_head_ := 0; free_pool_count_ := 2 |} in
  let calls := [Grab 2 {| capacity := 8; chunk_ := [] |};
                Release 2 {| capacity := 8; chunk_ := [1; 1] |}] in
  pool_invariant p
  /\ (forall initial_content, 0 <= initial_content ->
      preconditions false initial_content calls p {| sum_grabbed := 0; sum_released := 0 |})
  /\ ~ after_each_call (conserved (free_pool_count_ p)) calls p
         {| sum_grabbed := 0; sum_released := 0 |}.
Proof.
  intros p calls. split; [|split].
  - constructor; [constructor; cbn; lia | |].
    + cbn. apply (bool_decide_unpack _). vm_compute. exact I.
    + cbn. repeat constructor; unfold in_pool; cbn; lia.
  - intros initial_content Hi. subst p calls.
    cbn [preconditions]. repeat eval_step.
    repeat split; try discriminate; unfold size; cbn; lia.
  - subst p calls. cbn [after_each_call]. repeat eval_step.
    intros [_ [(_ & _ & Hnd & _) _]]. cbn in Hnd.
    apply NoDup_cons in Hnd as [Hin _]. apply Hin. set_solver.
Qed.

Lemma pool_conservation_witness :
  let p := {| pool_size_ := 7; pages_for_free_pool_ := 1; free_pool_ := [1; 2; 3; 4; 5; 6];
              free_pool_capacity_ := 6; free_pool_head_ := 4; free_pool_count_ := 5 |} in
  let calls := [Grab 4 {| capacity := 8; chunk_ := [] |};
                Release 2 {| capacity := 8; chunk_ := [4; 5; 6] |};
                Release 3 {| capacity := 8; chunk_ := [4; 1; 2] |}] in
  let t := {| sum_grabbed := 0; sum_released := 0 |} in
  (pool_shape p
   /\ preconditions false (free_pool_capacity_ p - free_pool_count_ p) calls p t)
  /\ (pool_invariant p
      /\ preconditions true (free_pool_capacity_ p - free_pool_count_ p) calls p t)
  /\ after_each_call (count_conserved (free_pool_count_ p)) calls p t
  /\ after_each_call (conserved (free_pool_count_ p)) calls p t.
Proof.
  intros p calls t.
  assert (Hinv : pool_invariant p).
  { constructor; [exact example_pool_shape | |]; cbn.
    - apply (bool_decide_unpack _). vm_compute. exact I.
    - repeat constructor; unfold in_pool; cbn; lia. }
  assert (Hshape : pool_shape p) by exact example_pool_shape.
  assert (Hpre : preconditions false (free_pool_capacity_ p - free_pool_count_ p) calls p t).
  { subst p calls t. cbn [preconditions]. repeat eval_step.
    repeat split; try discriminate; unfold size; cbn; lia. }
  assert (Hown : preconditions true (free_pool_capacity_ p - free_pool_count_ p) calls p t).
  { subst p calls t. cbn [preconditions]. repeat eval_step.
    repeat split; try discriminate; unfold size, tail_of, in_pool; cbn; try lia;
      try (apply (bool_decide_unpack _); vm_compute; exact I);
      repeat constructor; lia. }
  exact (conj (conj Hshape Hpre)
           (conj (conj Hinv Hown)
              (conj (proj1 (pool_conservation calls p Hshape Hpre))
                    (proj2 (pool_conservation calls p Hshape Hpre) Hinv Hown)))).
Defined.


(** C5 on a window that wraps: head 4 of 6, five free, four desired. *)
Lemma grab_transfers_from_head_witness :
  let p := {| pool_size_ := 7; pages_for_free_pool_ := 1; free_pool_ := [1; 2; 3; 4; 5; 6];
              free_pool_capacity_ := 6; free_pool_head_ := 4; free_pool_count_ := 5 |} in
  let ch := {| capacity := 8; chunk_ := [9] |} in
  (pool_shape p /\ 0 < free_pool_count_ p /\ 0 <= 4 < 2 ^ 32
   /\ size ch + 4 <= capacity ch)
  /\ exists p' seg1 seg2,
       grab 4 p ch = (kErrorCodeOk, p', push_back ch (seg1 ++ seg2))
       /\ seg1 = read_range (free_pool_ p) (free_pool_head_ p) (Z.of_nat (length seg1))
       /\ seg2 = read_range (free_pool_ p) 0 (Z.of_nat (length seg2))
       /\ (free_pool_head_ p + Z.min 4 (free_pool_count_ p) <= free_pool_capacity_ p
           -> seg2 = [])
       /\ seg1 ++ seg2 = take (Z.to_nat (Z.min 4 (free_pool_count_ p))) (live_window p)
       /\ Z.of_nat (length (seg1 ++ seg2)) = Z.min 4 (free_pool_count_ p)
       /\ live_window p' = drop (Z.to_nat (Z.min 4 (free_pool_count_ p))) (live_window p)
       /\ free_pool_count_ p' = free_pool_count_ p - Z.min 4 (free_pool_count_ p)
       /\ size (push_back ch (seg1 ++ seg2)) <= capacity ch.
Proof.
  intros p ch.
  assert (H1 : 0 < free_pool_count_ p) by (cbn; lia).
  assert (H2 : 0 <= 4 < 2 ^ 32) by lia.
  assert (H3 : size ch + 4 <= capacity ch) by (unfold size; cbn; lia).
  exact (conj (conj example_pool_shape (conj H1 (conj H2 H3)))
              (grab_transfers_from_head 4 p ch example_pool_shape H1 H2 H3)).
Defined.

(** C6 on a tail that wraps: head 4 of 6, one free, three released. *)
Lemma release_appends_or_aborts_witness :
  let p := {| pool_size_ := 7; pages_for_free_pool_ := 1; free_pool_ := [1; 2; 3; 4; 5; 6];
              free_pool_capacity_ := 6; free_pool_head_ := 4; free_pool_count_ := 1 |} in
  let ch := {| capacity := 8; chunk_ := [6; 1; 2; 3] |} in
  (pool_shape p /\ 0 <= 3 < 2 ^ 32 /\ size ch >= 3)
  /\ (free_pool_count_ p + 3 > free_pool_capacity_ p ->
      release 3 p ch = Aborted kErrorCodeMemoryDuplicatePage)
  /\ (free_pool_count_ p + 3 <= free_pool_capacity_ p ->
      exists p' ch' seg1 seg2,
        release 3 p ch = Returned (p', ch')
        /\ chunk_ ch = chunk_ ch' ++ tail_of 3 ch
        /\ Z.of_nat (length (tail_of 3 ch)) = 3
        /\ size ch' = size ch - 3
        /\ tail_of 3 ch = seg2 ++ seg1
        /\ live_window p' = live_window p ++ seg1 ++ seg2
        /\ free_pool_count_ p' = free_pool_count_ p + 3).
Proof.
  intros p ch.
  assert (H1 : pool_shape p) by (constructor; cbn; lia).
  assert (H2 : 0 <= 3 < 2 ^ 32) by lia.
  assert (H3 : size ch >= 3) by (unfold size; cbn; lia).
  exact (conj (conj H1 (conj H2 H3)) (release_appends_or_aborts 3 p ch H1 H2 H3)).
Defined.

Lemma grab_zero_witness :
  let p := {| pool_size_ := 7; pages_for_free_pool_ := 1; free_pool_ := [1; 2; 3; 4; 5; 6];
              free_pool_capacity_ := 6; free_pool_head_ := 4; free_pool_count_ := 5 |} in
  let ch := {| capacity := 8; chunk_ := [9] |} in
  pool_shape p
  /\ (free_pool_count_ p = 0 -> grab 0 p ch = (kErrorCodeMemoryNoFreePages, p, ch))
  /\ (0 < free_pool_count_ p -> grab 0 p ch = (kErrorCodeOk, p, ch)).
Proof.
  intros p ch. exact (conj example_pool_shape (grab_zero p ch example_pool_shape)).
Defined.

Lemma grab_release_round_trip_witness :
  let p := {| pool_size_ := 7; pages_for_free_pool_ := 1; free_pool_ := [1; 2; 3; 4; 5; 6];
              free_pool_capacity_ := 6; free_pool_head_ := 4; free_pool_count_ := 5 |} in
  (pool_shape p /\ 0 <= 4 < 2 ^ 32 /\ 4 <= 8)
  /\ exists e p1 ch1 p2 ch2,
       grab 4 p {| capacity := 8; chunk_ := [] |} = (e, p1, ch1)
       /\ release (size ch1) p1 ch1 = Returned (p2, ch2)
       /\ (4 <= free_pool_count_ p -> size ch1 = 4)
       /\ chunk_ ch2 = []
       /\ free_pool_count_ p2 = free_pool_count_ p
       /\ live_window p2 ≡ₚ live_window p.
Proof.
  intros p.
  assert (H1 : 0 <= 4 < 2 ^ 32) by lia.
  assert (H2 : 4 <= 8) by lia.
  exact (conj (conj example_pool_shape (conj H1 H2))
              (grab_release_round_trip 4 8 p example_pool_shape H1 H2)).
Defined.


(** ** Beyond the stated properties: set-up, tear-down and composition *)

(** *** [initialize_once] *)

(** X1.  [initialize_once] returns [kErrorCodeOk] and leaves a full pool
    that satisfies the invariant: every page behind the free-pool array
    is free, once, in ascending order, and the array fits in the pages
    set aside for it.  This needs an offset type that is no larger than
    a page and wide enough to number every page of the arena. *)
Theorem initialize_once_establishes_invariant
    (kPageSize sizeof_PagePoolOffset : Z) (int_div_ceil : Z -> Z -> Z)
    (get_size : Z -> Z) (page_pool_size_mb_per_node_ : Z) :
  let memory_size := get_size (u64 (Z.shiftl page_pool_size_mb_per_node_ 20)) in
  let total_pages := memory_size / kPageSize in
  let r := initialize_once kPageSize sizeof_PagePoolOffset int_div_ceil get_size
             page_pool_size_mb_per_node_ in
  0 < sizeof_PagePoolOffset <= kPageSize ->
  0 <= memory_size < 2 ^ 64 ->
  (forall a b, 0 <= a -> 0 < b ->
     b * (int_div_ceil a b - 1) < a <= b * int_div_ceil a b) ->
  total_pages <= 2 ^ (8 * sizeof_PagePoolOffset) ->
  total_pages <= 2 ^ 52 ->
  r.1 = kErrorCodeOk
  /\ pool_invariant r.2
  /\ free_pool_head_ r.2 = 0
  /\ free_pool_count_ r.2 = free_pool_capacity_ r.2
  /\ pool_size_ r.2 = total_pages
  /\ pages_for_free_pool_ r.2 + free_pool_capacity_ r.2 = pool_size_ r.2
  /\ live_window r.2 = seqZ (pages_for_free_pool_ r.2) (free_pool_capacity_ r.2)
  /\ free_pool_capacity_ r.2 * sizeof_PagePoolOffset
     <= pages_for_free_pool_ r.2 * kPageSize.
Proof.
  intros memory_size total_pages r Hsz Hmem Hceil Hwidth Hbound.
  assert (HT0 : 0 <= total_pages) by (apply Z.div_pos; lia).
  assert (HTk : total_pages * kPageSize <= memory_size).
  { subst total_pages. rewrite Z.mul_comm. apply Z.mul_div_le. lia. }
  assert (HTs : 0 <= total_pages * sizeof_PagePoolOffset <= total_pages * kPageSize) by nia.
  subst r. unfold initialize_once. fold memory_size. fold total_pages. cbn [fst snd].
  rewrite (u64_small (total_pages * _)) by lia.
  set (P := int_div_ceil (total_pages * sizeof_PagePoolOffset) kPageSize).
  destruct (Hceil (total_pages * sizeof_PagePoolOffset) kPageSize ltac:(lia) ltac:(lia))
    as [Hlo Hhi]. fold P in Hlo, Hhi.
  assert (HP : 0 <= P <= total_pages) by nia.
  rewrite (u64_small (total_pages - P)) by lia.
  set (cap := total_pages - P).
  assert (Harr : (fun i => to_PagePoolOffset sizeof_PagePoolOffset (u64 (P + i)))
                   <$> seqZ 0 cap = seqZ P cap).
  { replace (seqZ P cap) with (Z.add P <$> seqZ 0 cap)
      by (rewrite fmap_add_seqZ; f_equal; lia).
    apply list_fmap_ext. intros i x Hx. apply lookup_seqZ in Hx as [-> Hi].
    unfold to_PagePoolOffset. rewrite u64_small by lia. apply Z.mod_small. lia. }
  rewrite Harr.
  assert (Hlive : live_window
            {| pool_size_ := total_pages; pages_for_free_pool_ := P;
               free_pool_ := seqZ P cap; free_pool_capacity_ := cap;
               free_pool_head_ := 0; free_pool_count_ := cap |} = seqZ P cap).
  { unfold live_window; cbn. rewrite app_nil_r. apply take_ge.
    rewrite length_seqZ. lia. }
  split; [done|]. split.
  { constructor.
    - constructor; cbn; rewrite ?length_seqZ; lia.
    - rewrite Hlive. apply NoDup_seqZ.
    - rewrite Hlive. apply Forall_seqZ. unfold in_pool; cbn. lia. }
  cbn [free_pool_head_ free_pool_count_ free_pool_capacity_ pool_size_ pages_for_free_pool_].
  repeat (split; [first [done | lia]|]). nia.
Qed.

(** A 2 MB pool of 4 KB pages and 4-byte offsets: 512 pages, the first
    of which holds the array, and 511 free pages. *)
Lemma initialize_once_establishes_invariant_witness :
  let int_div_ceil := fun a b => (a + b - 1) / b in
  let get_size := fun size : Z => size in
  let r := initialize_once 4096 4 int_div_ceil get_size 2 in
  (0 < 4 <= 4096
   /\ 0 <= get_size (u64 (Z.shiftl 2 20)) < 2 ^ 64
   /\ (forall a b, 0 <= a -> 0 < b ->
         b * (int_div_ceil a b - 1) < a <= b * int_div_ceil a b)
   /\ get_size (u64 (Z.shiftl 2 20)) / 4096 <= 2 ^ (8 * 4)
   /\ get_size (u64 (Z.shiftl 2 20)) / 4096 <= 2 ^ 52)
  /\ r.1 = kErrorCodeOk
  /\ pool_invariant r.2
  /\ free_pool_head_ r.2 = 0
  /\ free_pool_count_ r.2 = free_pool_capacity_ r.2
  /\ pool_size_ r.2 = get_size (u64 (Z.shiftl 2 20)) / 4096
  /\ pages_for_free_pool_ r.2 + free_pool_capacity_ r.2 = pool_size_ r.2
  /\ live_window r.2 = seqZ (pages_for_free_pool_ r.2) (free_pool_capacity_ r.2)
  /\ free_pool_capacity_ r.2 * 4 <= pages_for_free_pool_ r.2 * 4096.
Proof.
  intros int_div_ceil get_size r.
  assert (H1 : 0 < 4 <= 4096) by lia.
  assert (H2 : 0 <= get_size (u64 (Z.shiftl 2 20)) < 2 ^ 64) by (vm_compute; split; congruence).
  assert (H3 : forall a b, 0 <= a -> 0 < b ->
                 b * (int_div_ceil a b - 1) < a <= b * int_div_ceil a b).
  { intros a b Ha Hb. subst int_div_ceil. cbv beta.
    pose proof (Z.div_mod (a + b - 1) b ltac:(lia)).
    pose proof (Z.mod_pos_bound (a + b - 1) b Hb). lia. }
  assert (H4 : get_size (u64 (Z.shiftl 2 20)) / 4096 <= 2 ^ (8 * 4))
    by (vm_compute; congruence).
  assert (H5 : get_size (u64 (Z.shiftl 2 20)) / 4096 <= 2 ^ 52)
    by (vm_compute; congruence).
  exact (conj (conj H1 (conj H2 (conj H3 (conj H4 H5))))
              (initialize_once_establishes_invariant 4096 4 int_div_ceil get_size 2
                 H1 H2 H3 H4 H5)).
Defined.

(** *** What the calls leave alone *)

(** The pool that [grab] returns, cursor by cursor. *)
Lemma grab_pool d p ch :
  pool_shape p -> 0 < free_pool_count_ p -> 0 <= d ->
  let n := Z.min d (free_pool_count_ p) in
  (grab d p ch).1.2
  = set_free_pool_count (free_pool_count_ p - n)
      (set_free_pool_head
         (if decide (free_pool_head_ p + n <= free_pool_capacity_ p)
          then free_pool_head_ p + n
          else free_pool_head_ p + n - free_pool_capacity_ p) p).
Proof.
  intros [Hlen Hh Hc Hp Hsz Hb] Hpos Hd n. unfold grab.
  destruct (Z.eqb_spec (free_pool_count_ p) 0) as [|_]; [lia|].
  fold n. assert (Hn : 0 <= n <= free_pool_count_ p) by (subst n; lia).
  rewrite (u64_small (_ + n)) by lia.
  destruct (Z.gtb_spec (free_pool_head_ p + n) (free_pool_capacity_ p)) as [Hw|Hw];
    case_decide; try lia; cbn.
  - rewrite (u64_small (free_pool_capacity_ p - _)) by lia.
    rewrite (u64_small (n - _)), (u64_small (free_pool_count_ p - _)) by lia.
    rewrite (u64_small (0 + _)), (u64_small (_ - _ - _)) by lia.
    unfold set_free_pool_count, set_free_pool_head; cbn. f_equal; lia.
  - rewrite (u64_small (_ + n)), (u64_small (_ - n)) by lia. done.
Qed.

(** X2.  [grab] on a well-formed pool returns a well-formed pool.  It
    reads the free-pool array and never writes it, leaves the sizes of
    the pool alone, and only appends to the chunk. *)
Theorem grab_keeps_shape (d : Z) (p : PagePoolPimpl) (ch : PagePoolOffsetChunk) :
  pool_shape p -> 0 <= d ->
  pool_shape (grab d p ch).1.2
  /\ free_pool_ (grab d p ch).1.2 = free_pool_ p
  /\ free_pool_capacity_ (grab d p ch).1.2 = free_pool_capacity_ p
  /\ pages_for_free_pool_ (grab d p ch).1.2 = pages_for_free_pool_ p
  /\ pool_size_ (grab d p ch).1.2 = pool_size_ p
  /\ capacity (grab d p ch).2 = capacity ch
  /\ chunk_ ch `prefix_of` chunk_ (grab d p ch).2.
Proof.
  intros Hs Hd. destruct (decide (free_pool_count_ p = 0)) as [Hz|Hz].
  - unfold grab. rewrite Hz. cbn. do 6 (split; [done|]). reflexivity.
  - assert (Hpos : 0 < free_pool_count_ p) by (destruct Hs; lia).
    destruct (grab_spec d p ch Hs Hpos Hd)
      as (p' & -> & _ & _ & Harr & Hcap & Hpf & Hps & Hs').
    cbn. do 6 (split; [done|]). by apply prefix_app_r.
Qed.

Lemma grab_keeps_shape_witness :
  let p := {| pool_size_ := 7; pages_for_free_pool_ := 1; free_pool_ := [1; 2; 3; 4; 5; 6];
              free_pool_capacity_ := 6; free_pool_head_ := 4; free_pool_count_ := 5 |} in
  let ch := {| capacity := 8; chunk_ := [9] |} in
  (pool_shape p /\ 0 <= 2)
  /\ pool_shape (grab 2 p ch).1.2
  /\ free_pool_ (grab 2 p ch).1.2 = free_pool_ p
  /\ free_pool_capacity_ (grab 2 p ch).1.2 = free_pool_capacity_ p
  /\ pages_for_free_pool_ (grab 2 p ch).1.2 = pages_for_free_pool_ p
  /\ pool_size_ (grab 2 p ch).1.2 = pool_size_ p
  /\ capacity (grab 2 p ch).2 = capacity ch
  /\ chunk_ ch `prefix_of` chunk_ (grab 2 p ch).2.
Proof.
  intros p ch. assert (H : 0 <= 2) by lia.
  exact (conj (conj example_pool_shape H) (grab_keeps_shape 2 p ch example_pool_shape H)).
Defined.

(** X3.  [release], whenever it returns, has left the head, the sizes
    of the pool and the length of the array as they were, whatever the
    pool and the chunk: it only writes entries of the array and raises
    the count. *)
Theorem release_moves_only_the_tail (d : Z) (p p' : PagePoolPimpl)
    (ch ch' : PagePoolOffsetChunk) :
  release d p ch = Returned (p', ch') ->
  free_pool_head_ p' = free_pool_head_ p
  /\ free_pool_capacity_ p' = free_pool_capacity_ p
  /\ pages_for_free_pool_ p' = pages_for_free_pool_ p
  /\ pool_size_ p' = pool_size_ p
  /\ length (free_pool_ p') = length (free_pool_ p)
  /\ capacity ch' = capacity ch
  /\ chunk_ ch' `prefix_of` chunk_ ch.
Proof.
  unfold release. destruct (_ >? _); [done|].
  destruct (_ >? _); unfold move_to, write_range; cbn; intros [= <- <-]; cbn;
    rewrite ?length_inserts; do 6 (split; [done|]).
  - rewrite take_take. apply prefix_take.
  - apply prefix_take.
Qed.

Lemma release_moves_only_the_tail_witness :
  let p := {| pool_size_ := 7; pages_for_free_pool_ := 1; free_pool_ := [1; 2; 3; 4; 5; 6];
              free_pool_capacity_ := 6; free_pool_head_ := 4; free_pool_count_ := 1 |} in
  let ch := {| capacity := 8; chunk_ := [6; 1; 2; 3] |} in
  let p' := {| pool_size_ := 7; pages_for_free_pool_ := 1; free_pool_ := [1; 2; 3; 4; 5; 3];
               free_pool_capacity_ := 6; free_pool_head_ := 4; free_pool_count_ := 4 |} in
  let ch' := {| capacity := 8; chunk_ := [6] |} in
  release 3 p ch = Returned (p', ch')
  /\ free_pool_head_ p' = free_pool_head_ p
  /\ free_pool_capacity_ p' = free_pool_capacity_ p
  /\ pages_for_free_pool_ p' = pages_for_free_pool_ p
  /\ pool_size_ p' = pool_size_ p
  /\ length (free_pool_ p') = length (free_pool_ p)
  /\ capacity ch' = capacity ch
  /\ chunk_ ch' `prefix_of` chunk_ ch.
Proof.
  intros p ch p' ch'.
  assert (H : release 3 p ch = Returned (p', ch')) by (vm_compute; reflexivity).
  exact (conj H (release_moves_only_the_tail 3 p p' ch ch' H)).
Defined.

(** *** How the calls compose *)

(** X4.  Two grabs in a row take from the pool and put into the chunk
    what one grab of the sum takes and puts, as long as the pool holds
    that many pages. *)
Theorem grab_twice_is_grab_of_sum (a b : Z) (p : PagePoolPimpl) (ch : PagePoolOffsetChunk) :
  pool_shape p -> 0 <= a -> 0 <= b -> a + b <= free_pool_count_ p ->
  (grab b (grab a p ch).1.2 (grab a p ch).2).1.2 = (grab (a + b) p ch).1.2
  /\ (grab b (grab a p ch).1.2 (grab a p ch).2).2 = (grab (a + b) p ch).2.
Proof.
  intros Hs Ha Hb Hab. pose proof Hs as [Hlen Hh Hc Hp Hsz Hbd].
  destruct (decide (free_pool_count_ p = 0)) as [Hz|Hz].
  { assert (a = 0) as -> by lia. assert (b = 0) as -> by lia.
    unfold grab. rewrite Hz. cbn. by rewrite Hz. }
  assert (Hpos : 0 < free_pool_count_ p) by lia.
  pose proof (grab_pool a p ch Hs Hpos Ha) as Hpa.
  pose proof (grab_pool (a + b) p ch Hs Hpos ltac:(lia)) as Hpab.
  destruct (grab_spec a p ch Hs Hpos Ha) as (p1 & Hga & Hl1 & Hc1 & _ & _ & _ & _ & Hs1).
  destruct (grab_spec (a + b) p ch Hs Hpos ltac:(lia)) as (p2 & Hgab & _).
  cbn zeta in Hpa, Hpab. rewrite Z.min_l in Hpa, Hpab, Hga, Hl1, Hc1, Hgab by lia.
  rewrite Hga in Hpa |- *. rewrite Hgab in Hpab |- *. cbn [fst snd] in *.
  destruct (decide (free_pool_count_ p1 = 0)) as [Hz1|Hz1].
  { assert (b = 0) by lia. subst b. replace (a + 0) with a in * by lia.
    unfold grab at 1 2. rewrite Hz1, Z.eqb_refl. cbn [fst snd].
    split; [congruence | done]. }
  assert (Hpos1 : 0 < free_pool_count_ p1) by (destruct Hs1; lia).
  pose proof (grab_pool b p1 (push_back ch (take (Z.to_nat a) (live_window p))) Hs1 Hpos1 Hb)
    as Hpb.
  destruct (grab_spec b p1 (push_back ch (take (Z.to_nat a) (live_window p))) Hs1 Hpos1 Hb)
    as (p3 & Hgb & _).
  cbn zeta in Hpb. rewrite Z.min_l in Hpb, Hgb by lia.
  rewrite Hgb in Hpb |- *. cbn [fst snd] in *. split.
  - rewrite Hpb, Hpab, Hpa. unfold set_free_pool_count, set_free_pool_head; cbn.
    f_equal; [repeat case_decide; lia | lia].
  - unfold push_back; cbn. f_equal. rewrite <- app_assoc. f_equal.
    rewrite Hl1, Z2Nat.inj_add by lia. apply take_take_drop.
Qed.

Lemma grab_twice_is_grab_of_sum_witness :
  let p := {| pool_size_ := 7; pages_for_free_pool_ := 1; free_pool_ := [1; 2; 3; 4; 5; 6];
              free_pool_capacity_ := 6; free_pool_head_ := 4; free_pool_count_ := 5 |} in
  let ch := {| capacity := 8; chunk_ := [9] |} in
  (pool_shape p /\ 0 <= 2 /\ 0 <= 3 /\ 2 + 3 <= free_pool_count_ p)
  /\ (grab 3 (grab 2 p ch).1.2 (grab 2 p ch).2).1.2 = (grab (2 + 3) p ch).1.2
  /\ (grab 3 (grab 2 p ch).1.2 (grab 2 p ch).2).2 = (grab (2 + 3) p ch).2.
Proof.
  intros p ch.
  assert (H1 : 0 <= 2) by lia. assert (H2 : 0 <= 3) by lia.
  assert (H3 : 2 + 3 <= free_pool_count_ p) by (cbn; lia).
  exact (conj (conj example_pool_shape (conj H1 (conj H2 H3)))
              (grab_twice_is_grab_of_sum 2 3 p ch example_pool_shape H1 H2 H3)).
Defined.

(** X5.  The free list is a queue: pages that are released are handed
    out only after every page that was free before.  A grab of no more
    than the pool held fills its chunk with the same pages whether or
    not a release came first. *)
Theorem released_pages_wait_behind_free_ones (d n : Z) (p : PagePoolPimpl)
    (released grabbed : PagePoolOffsetChunk) :
  pool_shape p -> 0 <= d <= size released -> d < 2 ^ 32 ->
  free_pool_count_ p + d <= free_pool_capacity_ p ->
  0 < free_pool_count_ p -> 0 <= n <= free_pool_count_ p ->
  exists p' released',
    release d p released = Returned (p', released')
    /\ (grab n p' grabbed).1.1 = kErrorCodeOk
    /\ (grab n p' grabbed).2 = (grab n p grabbed).2.
Proof.
  intros Hs Hd Hd32 Hfit Hpos Hn.
  destruct (release_spec d p released Hs Hd Hd32 Hfit)
    as (p' & w & _ & Hrel & Hl & Hc & _ & _ & _ & Hs').
  destruct (grab_spec n p grabbed Hs Hpos ltac:(lia)) as (p1 & Hg1 & _).
  destruct (grab_spec n p' grabbed Hs' ltac:(lia) ltac:(lia)) as (p2 & Hg2 & _).
  eexists p', _. split; [exact Hrel|]. rewrite Hg1, Hg2. cbn. split; [done|].
  f_equal. rewrite Hl, Hc, !Z.min_l by lia.
  apply take_app_le. pose proof (live_window_length p Hs). lia.
Qed.

Lemma released_pages_wait_behind_free_ones_witness :
  let p := {| pool_size_ := 7; pages_for_free_pool_ := 1; free_pool_ := [1; 2; 3; 4; 5; 6];
              free_pool_capacity_ := 6; free_pool_head_ := 4; free_pool_count_ := 3 |} in
  let released := {| capacity := 8; chunk_ := [3; 4] |} in
  let grabbed := {| capacity := 8; chunk_ := [] |} in
  (pool_shape p /\ 0 <= 2 <= size released /\ 2 < 2 ^ 32
   /\ free_pool_count_ p + 2 <= free_pool_capacity_ p
   /\ 0 < free_pool_count_ p /\ 0 <= 3 <= free_pool_count_ p)
  /\ exists p' released',
       release 2 p released = Returned (p', released')
       /\ (grab 3 p' grabbed).1.1 = kErrorCodeOk
       /\ (grab 3 p' grabbed).2 = (grab 3 p grabbed).2.
Proof.
  intros p released grabbed.
  assert (H0 : pool_shape p) by (constructor; cbn; lia).
  assert (H1 : 0 <= 2 <= size released) by (unfold size; cbn; lia).
  assert (H2 : 2 < 2 ^ 32) by lia.
  assert (H3 : free_pool_count_ p + 2 <= free_pool_capacity_ p) by (cbn; lia).
  assert (H4 : 0 < free_pool_count_ p) by (cbn; lia).
  assert (H5 : 0 <= 3 <= free_pool_count_ p) by (cbn; lia).
  exact (conj (conj H0 (conj H1 (conj H2 (conj H3 (conj H4 H5)))))
              (released_pages_wait_behind_free_ones 2 3 p released grabbed
                 H0 H1 H2 H3 H4 H5)).
Defined.

(** X6.  [grab] hands out no page twice: on a pool that satisfies the
    invariant the pages it appends to the chunk are pairwise distinct
    pages of the pool, none of them is free afterwards, and together
    with the pages still free they are the pages that were free. *)
Theorem grab_hands_out_each_page_once (d : Z) (p : PagePoolPimpl)
    (ch : PagePoolOffsetChunk) :
  pool_invariant p -> 0 < free_pool_count_ p -> 0 <= d ->
  exists p' granted,
    grab d p ch = (kErrorCodeOk, p', push_back ch granted)
    /\ NoDup granted
    /\ Forall (in_pool p) granted
    /\ (forall x, x ∈ granted -> x ∉ live_window p')
    /\ live_window p ≡ₚ granted ++ live_window p'
    /\ pool_invariant p'.
Proof.
  intros [Hs Hnd Hr] Hpos Hd.
  destruct (grab_spec d p ch Hs Hpos Hd) as (p' & Hg & Hl & _ & _ & _ & Hpf & Hps & Hs').
  set (n := Z.to_nat (Z.min d (free_pool_count_ p))) in *.
  pose proof (take_drop n (live_window p)) as Hsplit.
  rewrite <- Hsplit in Hnd, Hr.
  apply NoDup_app in Hnd as (Hnd1 & Hdisj & Hnd2). apply Forall_app in Hr as [Hr1 Hr2].
  exists p', (take n (live_window p)). split; [exact Hg|]. split; [done|]. split; [done|].
  rewrite Hl. split; [done|]. split; [by rewrite Hsplit|].
  constructor; [done | by rewrite Hl |]. rewrite Hl. unfold in_pool in *.
  by rewrite Hpf, Hps.
Qed.

Lemma grab_hands_out_each_page_once_witness :
  let p := {| pool_size_ := 7; pages_for_free_pool_ := 1; free_pool_ := [1; 2; 3; 4; 5; 6];
              free_pool_capacity_ := 6; free_pool_head_ := 4; free_pool_count_ := 5 |} in
  let ch := {| capacity := 8; chunk_ := [] |} in
  (pool_invariant p /\ 0 < free_pool_count_ p /\ 0 <= 4)
  /\ exists p' granted,
       grab 4 p ch = (kErrorCodeOk, p', push_back ch granted)
       /\ NoDup granted
       /\ Forall (in_pool p) granted
       /\ (forall x, x ∈ granted -> x ∉ live_window p')
       /\ live_window p ≡ₚ granted ++ live_window p'
       /\ pool_invariant p'.
Proof.
  intros p ch.
  assert (H0 : pool_invariant p).
  { constructor; [exact example_pool_shape | |]; cbn.
    - apply (bool_decide_unpack _). vm_compute. exact I.
    - repeat constructor; unfold in_pool; cbn; lia. }
  assert (H1 : 0 < free_pool_count_ p) by (cbn; lia).
  assert (H2 : 0 <= 4) by lia.
  exact (conj (conj H0 (conj H1 H2)) (grab_hands_out_each_page_once 4 p ch H0 H1 H2)).
Defined.

(** *** Tear-down *)

Lemma run_calls_conserved (initial outstanding : Z) (calls : list call) :
  forall p t,
    pool_invariant p ->
    free_pool_count_ p = initial - sum_grabbed t + sum_released t ->
    free_pool_capacity_ p = initial + outstanding ->
    preconditions true outstanding calls p t ->
    exists p' t',
      run_calls calls p t = Returned (p', t')
      /\ pool_invariant p'
      /\ free_pool_count_ p' = initial - sum_grabbed t' + sum_released t'
      /\ free_pool_capacity_ p' = initial + outstanding.
Proof.
  induction calls as [|c calls IH]; intros p t Hinv Hcount Hcap Hpre.
  { by exists p, t. }
  destruct Hpre as [Hc Hrest]. cbn [run_calls].
  destruct c as [d ch|d ch].
  - destruct Hc as [Hd _].
    destruct (grab_keeps_invariant d p ch Hinv ltac:(lia))
      as (e & p' & ch' & n & Hg & Hn & Hsz & Hcnt & Hcap' & Hinv').
    unfold step in *. rewrite Hg in *. apply IH; [done | cbn; lia | lia | done].
  - destruct Hc as (Hd & Hsize & Htot & Hown).
    destruct (Hown eq_refl) as [Hnd Hin].
    destruct (release_keeps_invariant d p ch Hinv ltac:(lia) ltac:(lia) ltac:(lia) Hnd Hin)
      as (p' & ch' & Hr & Hsz & Hcnt & Hcap' & Hinv').
    unfold step in *. rewrite Hr in *. apply IH; [done | cbn; lia | lia | done].
Qed.

(** X7.  The leak check of [uninitialize_once] is exact.  After a
    sequence of calls that respects the preconditions, on a pool that
    was full at the start, the sequence returns,
    [uninitialize_once] returns [kErrorCodeOk], and it logs the warning
    exactly when more pages were grabbed than released. *)
Theorem teardown_warns_iff_pages_are_out (calls : list call) (p : PagePoolPimpl) :
  pool_invariant p ->
  free_pool_count_ p = free_pool_capacity_ p ->
  preconditions true 0 calls p {| sum_grabbed := 0; sum_released := 0 |} ->
  exists p' t',
    run_calls calls p {| sum_grabbed := 0; sum_released := 0 |} = Returned (p', t')
    /\ (uninitialize_once p').1.1 = kErrorCodeOk
    /\ ((uninitialize_once p').1.2 = true <-> sum_released t' < sum_grabbed t')
    /\ ((uninitialize_once p').1.2 = false <-> sum_released t' = sum_grabbed t').
Proof.
  intros Hinv Hfull Hpre.
  destruct (run_calls_conserved (free_pool_count_ p) 0 calls p
              {| sum_grabbed := 0; sum_released := 0 |} Hinv
              ltac:(cbn; lia) ltac:(lia) Hpre)
    as (p' & t' & Hrun & [[] _ _] & Hcnt & Hcap).
  exists p', t'. split; [done|]. split; [done|]. unfold uninitialize_once; cbn.
  destruct (Z.eqb_spec (free_pool_count_ p') (free_pool_capacity_ p')); cbn;
    split; split; intros; try done; lia.
Qed.

Lemma teardown_warns_iff_pages_are_out_witness :
  let p := {| pool_size_ := 7; pages_for_free_pool_ := 1; free_pool_ := [1; 2; 3; 4; 5; 6];
              free_pool_capacity_ := 6; free_pool_head_ := 4; free_pool_count_ := 6 |} in
  let calls := [Grab 4 {| capacity := 8; chunk_ := [] |};
                Release 3 {| capacity := 8; chunk_ := [5; 6; 1; 2] |}] in
  (pool_invariant p
   /\ free_pool_count_ p = free_pool_capacity_ p
   /\ preconditions true 0 calls p {| sum_grabbed := 0; sum_released := 0 |})
  /\ exists p' t',
       run_calls calls p {| sum_grabbed := 0; sum_released := 0 |} = Returned (p', t')
       /\ (uninitialize_once p').1.1 = kErrorCodeOk
       /\ ((uninitialize_once p').1.2 = true <-> sum_released t' < sum_grabbed t')
       /\ ((uninitialize_once p').1.2 = false <-> sum_released t' = sum_grabbed t').
Proof.
  intros p calls.
  assert (H0 : pool_invariant p).
  { constructor; [constructor; cbn; lia | |]; cbn.
    - apply (bool_decide_unpack _). vm_compute. exact I.
    - repeat constructor; unfold in_pool; cbn; lia. }
  assert (H1 : free_pool_count_ p = free_pool_capacity_ p) by reflexivity.
  assert (H2 : preconditions true 0 calls p {| sum_grabbed := 0; sum_released := 0 |}).
  { subst p calls. cbn [preconditions]. repeat eval_step.
    repeat split; try discriminate; unfold size, tail_of, in_pool; cbn; try lia;
      try (apply (bool_decide_unpack _); vm_compute; exact I);
      repeat constructor; lia. }
  exact (conj (conj H0 (conj H1 H2)) (teardown_warns_iff_pages_are_out calls p H0 H1 H2)).
Defined.

End PagePoolFacts.

Module SnapshotFacts.
Import Memory SnapshotManager.

Lemma is_error_false r : is_error r = false <-> r = kRetOk.
Proof.
  unfold is_error, kRetOk. rewrite bool_decide_eq_false.
  split; [intros H; by destruct (decide (r = kErrorCodeOk)) | intros -> H; by apply H].
Qed.

Lemma is_error_ok : is_error kRetOk = false.
Proof. reflexivity. Qed.

Lemma is_error_true r : is_error r = true <-> r <> kRetOk.
Proof. unfold is_error, kRetOk. by rewrite bool_decide_eq_true. Qed.

(** *** Nothing is published before [publish] *)

Lemma unpublished_refl e : unpublished e e.
Proof.
  split; [done|]. split; [done|]. exists []. rewrite app_nil_r. split; [done | apply not_elem_of_nil].
Qed.

Lemma unpublished_trans e1 e2 e3 :
  unpublished e1 e2 -> unpublished e2 e3 -> unpublished e1 e3.
Proof.
  intros (Hc1 & Ht1 & a1 & He1 & Hn1) (Hc2 & Ht2 & a2 & He2 & Hn2).
  split; [congruence|]. split; [congruence|]. exists (a1 ++ a2).
  rewrite He2, He1, app_assoc. split; [done | by apply not_elem_of_app].
Qed.

Lemma unpublished_emit x e :
  x <> SnapshotTakenBroadcast -> unpublished e (emit x e).
Proof.
  intros Hx. split; [done|]. split; [done|]. exists [x]. split; [done|].
  apply not_elem_of_cons. split; [done | apply not_elem_of_nil].
Qed.

Lemma unpublished_intro e e' added :
  control_block_ e' = control_block_ e ->
  previous_snapshot_time_ e' = previous_snapshot_time_ e ->
  effects e' = effects e ++ added ->
  Forall (fun x => x <> SnapshotTakenBroadcast) added ->
  unpublished e e'.
Proof.
  intros Hc Ht He Hn. split; [done|]. split; [done|]. exists added. split; [done|].
  intros Hin. rewrite Forall_forall in Hn. by apply (Hn _ Hin).
Qed.

Lemma glean_logs_returns env s e :
  exists r e1,
    glean_logs env s e = Returned ((r, get_new_root_page_pointers env s), e1)
    /\ unpublished e e1.
Proof.
  exists (gleaner_execute env s), (emit (GleanerExecuted (id_ s)) e).
  split; [reflexivity|]. by apply unpublished_emit.
Qed.

Lemma snapshot_metadata_returns env s ptrs e :
  exists r e2, snapshot_metadata env s ptrs e = Returned (r, e2) /\ unpublished e e2.
Proof.
  unfold snapshot_metadata, CHECK_ERROR, bind, ret, modify.
  destruct (clone_all_storage_metadata env) as [cloned roots].
  destruct (is_error cloned); [eauto using unpublished_refl|].
  destruct (negb (fs_exists env) && negb (fs_create_directories env));
    [eauto using unpublished_refl|].
  destruct (is_error (save_to_file env _)); [eauto using unpublished_refl|].
  eexists _, _. split; [reflexivity|].
  apply (unpublished_intro _ _ [MetadataFileSaved (id_ s); MetadataFileSynced (id_ s)]);
    [done | done | cbn; by rewrite <- app_assoc | by repeat constructor].
Qed.

Lemma snapshot_savepoint_returns env s e :
  exists r e3, snapshot_savepoint env s e = Returned (r, e3) /\ unpublished e e3.
Proof.
  unfold snapshot_savepoint, CHECK_ERROR, bind, ret, modify.
  destruct (is_error _); [eauto using unpublished_refl|].
  eexists _, _. split; [reflexivity|].
  apply (unpublished_intro _ _ [SavepointTaken (id_ s) (valid_until_epoch_ s)]);
    [done | done | done | by repeat constructor].
Qed.


(** The loop over the storages returns; it touches the volatile pools
    and nothing else of the state, and an error it returns is the answer
    of the composer it invoked last. *)
Lemma replace_pointers_storages_returns env s ptrs ids :
  forall r0 chunks e,
  exists r chunks' e',
    replace_pointers_storages env s ptrs ids r0 chunks e = Returned ((r, chunks'), e')
    /\ control_block_ e' = control_block_ e
    /\ previous_snapshot_time_ e' = previous_snapshot_time_ e
    /\ accepting_xct e' = accepting_xct e
    /\ metadata_files e' = metadata_files e
    /\ latest_savepoint e' = latest_savepoint e
    /\ (exists added, effects e' = effects e ++ added
          /\ Forall (fun x => x <> SnapshotTakenBroadcast) added)
    /\ (is_error r0 = false -> is_error r = true ->
        exists storage pointer chunks_in pools_in,
          storage ∈ ids
          /\ ptrs !! storage = Some pointer
          /\ (composer_replace_pointers env storage s pointer chunks_in pools_in).1.1 = r).
Proof.
  induction ids as [|id ids IH]; intros r0 chunks e.
  - exists r0, chunks, e. split; [done|]. do 5 (split; [done|]).
    split; [exists []; by rewrite app_nil_r|]. congruence.
  - cbn [replace_pointers_storages].
    destruct (ptrs !! id) as [pointer|] eqn:Hp.
    + unfold bind, get, modify, ret.
      destruct (composer_replace_pointers env id s pointer chunks (volatile_pools e))
        as [[r1 chunks1] pools1] eqn:Hcomp.
      destruct (is_error r1) eqn:Hr1.
      * eexists _, _, _. split; [reflexivity|]. do 5 (split; [done|]).
        split; [exists [ComposerInvoked id]; split; [done | by repeat constructor]|].
        intros _ _. exists id, pointer, chunks, (volatile_pools e).
        split; [apply list_elem_of_here|]. split; [done|]. by rewrite Hcomp.
      * destruct (IH r1 chunks1 (emit (ComposerInvoked id) (set_volatile_pools pools1 e)))
          as (r & chunks' & e' & Hrun & Hcb & Ht & Ha & Hm & Hs & (added & He & Hn) & Herr).
        exists r, chunks', e'. split; [exact Hrun|]. do 5 (split; [done|]).
        split.
        { exists (ComposerInvoked id :: added). rewrite He. cbn.
          rewrite <- app_assoc. split; [done | by constructor]. }
        intros _ Hr. destruct (Herr Hr1 Hr) as (B & ptr & ci & pi & Hin & Hl & Hc).
        exists B, ptr, ci, pi. split; [by apply list_elem_of_further | done].
    + destruct (IH r0 chunks e)
        as (r & chunks' & e' & Hrun & Hcb & Ht & Ha & Hm & Hs & Hadd & Herr).
      exists r, chunks', e'. split; [exact Hrun|]. do 5 (split; [done|]).
      split; [done|]. intros H0 Hr.
      destruct (Herr H0 Hr) as (B & ptr & ci & pi & Hin & Hl & Hc).
      exists B, ptr, ci, pi. split; [by apply list_elem_of_further | done].
Qed.

(** [replace_pointers] either ends the process or returns without
    having published anything or written a file or a savepoint.  Once
    the file set is open it has resumed the transactions when it
    returns, and an error it returns is the answer of a composer. *)
Lemma replace_pointers_returns env s ptrs e r e' :
  replace_pointers env s ptrs e = Returned (r, e') ->
  unpublished e e'
  /\ metadata_files e' = metadata_files e
  /\ latest_savepoint e' = latest_savepoint e
  /\ (is_error (fileset_initialize env) = true ->
      r = fileset_initialize env /\ e' = e)
  /\ (is_error (fileset_initialize env) = false ->
      accepting_xct e' = true
      /\ (is_error r = true ->
          exists storage pointer chunks_in pools_in,
            1 <= storage <= max_storage_id_ s
            /\ ptrs !! storage = Some pointer
            /\ (composer_replace_pointers env storage s pointer chunks_in pools_in).1.1
               = r)).
Proof.
  unfold replace_pointers, CHECK_ERROR, bind, ret.
  destruct (is_error (fileset_initialize env)) eqn:Hf.
  - intros [= <- <-]. split; [apply unpublished_refl|]. by repeat split.
  - unfold modify at 1.
    match goal with |- context [replace_pointers_storages env s ptrs ?ids ?r0 ?c ?st] =>
      destruct (replace_pointers_storages_returns env s ptrs ids r0 c st)
        as (r1 & chunks' & e1 & Hrun & Hcb & Ht & Ha & Hm & Hs & (added & He & Hn) & Herr)
    end.
    rewrite Hrun. unfold modify, get.
    destruct (release_dropped_chunks _ _) as [pools|c] eqn:Hrel; [|done].
    intros [= <- <-]. cbn in *. split.
    { apply (unpublished_intro _ _ (XctPaused :: added ++ [XctResumed]));
        [done | done | cbn; rewrite He; cbn; by rewrite <- !app_assoc |].
      constructor; [done|]. apply Forall_app. split; [done | by repeat constructor]. }
    do 2 (split; [done|]). split; [done|]. intros _. split; [done|].
    intros Hr. destruct (Herr eq_refl Hr) as (B & ptr & ci & pi & Hin & Hl & Hc).
    exists B, ptr, ci, pi. split; [|done].
    apply elem_of_seqZ in Hin. lia.
Qed.

Lemma publish_returns env s e :
  exists e',
    publish env s e = Returned (tt, e')
    /\ control_block_ e' =
         {| snapshot_epoch_ := valid_until_epoch_ s;
            previous_snapshot_id_ := id_ s;
            immediate_snapshot_requested_ :=
              immediate_snapshot_requested_ (control_block_ e) |}
    /\ previous_snapshot_time_ e' = system_clock_now env
    /\ accepting_xct e' = accepting_xct e
    /\ metadata_files e' = metadata_files e
    /\ latest_savepoint e' = latest_savepoint e
    /\ volatile_pools e' = volatile_pools e
    /\ effects e' = effects e ++ [SnapshotTakenBroadcast].
Proof. eexists. split; [reflexivity|]. by repeat split. Qed.

(** [handle_snapshot_triggered], phase by phase. *)
Lemma handle_snapshot_triggered_phases env e :
  let s := new_snapshot_of env e in
  handle_snapshot_triggered env e =
    match glean_logs env s e with
    | Returned ((r1, ptrs), e1) =>
      if is_error r1 then Returned ((r1, s), e1) else
      match snapshot_metadata env s ptrs e1 with
      | Returned (r2, e2) =>
        if is_error r2 then Returned ((r2, s), e2) else
        match snapshot_savepoint env s e2 with
        | Returned (r3, e3) =>
          if is_error r3 then Returned ((r3, s), e3) else
          match replace_pointers env s ptrs e3 with
          | Returned (r4, e4) =>
            if is_error r4 then Returned ((r4, s), e4) else
            match publish env s e4 with
            | Returned (_, e5) => Returned ((kRetOk, s), e5)
            | Aborted c => Aborted c
            end
          | Aborted c => Aborted c
          end
        | Aborted c => Aborted c
        end
      | Aborted c => Aborted c
      end
    | Aborted c => Aborted c
    end.
Proof.
  intros s. unfold handle_snapshot_triggered, CHECK_ERROR, bind at 1 2 3, get.
  fold s. destruct (glean_logs env s e) as [[[r1 ptrs] e1]|]; [|done].
  unfold bind at 1, ret at 1. destruct (is_error r1); [done|].
  unfold bind at 1. destruct (snapshot_metadata env s ptrs e1) as [[r2 e2]|]; [|done].
  destruct (is_error r2); [done|].
  unfold bind at 1. destruct (snapshot_savepoint env s e2) as [[r3 e3]|]; [|done].
  destruct (is_error r3); [done|].
  unfold bind at 1. destruct (replace_pointers env s ptrs e3) as [[r4 e4]|]; [|done].
  destruct (is_error r4); [done|]. done.
Qed.


Lemma earlier_phases_unpublished env e ptrs e3 :
  earlier_phases_succeed env e ptrs e3 -> unpublished e e3.
Proof.
  intros (e1 & e2 & Hg & Hm & Hs).
  destruct (glean_logs_returns env (new_snapshot_of env e) e) as (? & x1 & Hg' & U1).
  destruct (snapshot_metadata_returns env (new_snapshot_of env e) ptrs e1)
    as (? & x2 & Hm' & U2).
  destruct (snapshot_savepoint_returns env (new_snapshot_of env e) e2)
    as (? & x3 & Hs' & U3).
  assert (x1 = e1) as -> by congruence.
  assert (x2 = e2) as -> by congruence.
  assert (x3 = e3) as -> by congruence.
  eauto using unpublished_trans.
Qed.

Lemma phases_succeed_unpublished env e e4 :
  phases_succeed env e e4 -> unpublished e e4.
Proof.
  intros (ptrs & e3 & Hearlier & Hr).
  apply replace_pointers_returns in Hr as [U _].
  eauto using unpublished_trans, earlier_phases_unpublished.
Qed.

Lemma phase_fails_unpublished env e r e' :
  phase_fails env e r e' -> unpublished e e'.
Proof.
  intros [_ H]. set (s := new_snapshot_of env e) in *.
  destruct (glean_logs_returns env s e) as (? & x1 & Hg' & U1).
  destruct H as [(ptrs & Hg)|[(ptrs & e1 & Hg & Hm)|[(ptrs & e1 & e2 & Hg & Hm & Hs)
                |(ptrs & e3 & Hearlier & Hr)]]].
  - by assert (x1 = e') as -> by congruence.
  - assert (x1 = e1) as -> by congruence.
    destruct (snapshot_metadata_returns env s ptrs e1) as (? & x2 & Hm' & U2).
    assert (x2 = e') as -> by congruence. eauto using unpublished_trans.
  - assert (x1 = e1) as -> by congruence.
    destruct (snapshot_metadata_returns env s ptrs e1) as (? & x2 & Hm' & U2).
    assert (x2 = e2) as -> by congruence.
    destruct (snapshot_savepoint_returns env s e2) as (? & x3 & Hs' & U3).
    assert (x3 = e') as -> by congruence. eauto using unpublished_trans.
  - apply replace_pointers_returns in Hr as [U _].
    eauto using unpublished_trans, earlier_phases_unpublished.
Qed.

Lemma phases_succeed_returns env e e4 :
  phases_succeed env e e4 ->
  exists e',
    publish env (new_snapshot_of env e) e4 = Returned (tt, e')
    /\ handle_snapshot_triggered env e = Returned ((kRetOk, new_snapshot_of env e), e').
Proof.
  intros (ptrs & e3 & (e1 & e2 & Hg & Hm & Hs) & Hr).
  destruct (publish_returns env (new_snapshot_of env e) e4) as (e' & Hp & _).
  exists e'. split; [done|].
  rewrite handle_snapshot_triggered_phases. cbn zeta.
  rewrite Hg; cbv beta iota. rewrite is_error_ok, Hm; cbv beta iota.
  rewrite is_error_ok, Hs; cbv beta iota. rewrite is_error_ok, Hr; cbv beta iota.
  by rewrite is_error_ok, Hp.
Qed.

Lemma phase_fails_returns env e r e' :
  phase_fails env e r e' ->
  handle_snapshot_triggered env e = Returned ((r, new_snapshot_of env e), e').
Proof.
  intros [Herr H]. rewrite handle_snapshot_triggered_phases. cbn zeta.
  destruct H as [(ptrs & Hg)|[(ptrs & e1 & Hg & Hm)|[(ptrs & e1 & e2 & Hg & Hm & Hs)
                |(ptrs & e3 & (e1 & e2 & Hg & Hm & Hs) & Hr)]]].
  - by rewrite Hg, Herr.
  - rewrite Hg; cbv beta iota. by rewrite is_error_ok, Hm, Herr.
  - rewrite Hg; cbv beta iota. rewrite is_error_ok, Hm; cbv beta iota.
    by rewrite is_error_ok, Hs, Herr.
  - rewrite Hg; cbv beta iota. rewrite is_error_ok, Hm; cbv beta iota.
    rewrite is_error_ok, Hs; cbv beta iota. by rewrite is_error_ok, Hr, Herr.
Qed.

Lemma handle_snapshot_triggered_returned env e r s' e' :
  handle_snapshot_triggered env e = Returned ((r, s'), e') ->
  s' = new_snapshot_of env e
  /\ ((r = kRetOk
       /\ exists e4, phases_succeed env e e4
                     /\ publish env (new_snapshot_of env e) e4 = Returned (tt, e'))
      \/ phase_fails env e r e').
Proof.
  rewrite handle_snapshot_triggered_phases. cbn zeta.
  set (s := new_snapshot_of env e).
  destruct (glean_logs env s e) as [[[r1 ptrs] e1]|] eqn:Hg; [|done].
  destruct (is_error r1) eqn:H1.
  { intros [= <- <- <-]. split; [done|]. right. split; [done|]. left. by exists ptrs. }
  apply is_error_false in H1 as ->.
  destruct (snapshot_metadata env s ptrs e1) as [[r2 e2]|] eqn:Hm; [|done].
  destruct (is_error r2) eqn:H2.
  { intros [= <- <- <-]. split; [done|]. right. split; [done|]. right; left.
    by exists ptrs, e1. }
  apply is_error_false in H2 as ->.
  destruct (snapshot_savepoint env s e2) as [[r3 e3]|] eqn:Hs; [|done].
  destruct (is_error r3) eqn:H3.
  { intros [= <- <- <-]. split; [done|]. right. split; [done|]. right; right; left.
    by exists ptrs, e1, e2. }
  apply is_error_false in H3 as ->.
  assert (Hearlier : earlier_phases_succeed env e ptrs e3) by by exists e1, e2.
  destruct (replace_pointers env s ptrs e3) as [[r4 e4]|] eqn:Hr; [|done].
  destruct (is_error r4) eqn:H4.
  { intros [= <- <- <-]. split; [done|]. right. split; [done|]. right; right; right.
    by exists ptrs, e3. }
  apply is_error_false in H4 as ->.
  destruct (publish env s e4) as [[[] e5]|] eqn:Hp; [|done].
  intros [= <- <- <-]. split; [done|]. left. split; [done|].
  exists e4. split; [by exists ptrs, e3 | done].
Qed.

(** C3.  [handle_snapshot_triggered] returns [kRetOk] exactly when
    [glean_logs], [snapshot_metadata], [snapshot_savepoint] and
    [replace_pointers] all succeed.  Then, and only after them, it sets
    [snapshot_epoch_] to the new [valid_until_epoch_], records the id in
    [previous_snapshot_id_] and broadcasts [snapshot_taken]: up to the
    end of the fourth phase the control block is untouched and no
    broadcast was made.  When a phase returns an error the function
    returns that error, with the control block untouched and without a
    broadcast. *)
Theorem publication_iff_all_phases_succeed (env : Collaborators) (e : Engine) :
  let s := new_snapshot_of env e in
  ((exists e', handle_snapshot_triggered env e = Returned ((kRetOk, s), e'))
   <-> (exists e4, phases_succeed env e e4))
  /\ (forall e4, phases_succeed env e e4 ->
      exists e',
        handle_snapshot_triggered env e = Returned ((kRetOk, s), e')
        /\ unpublished e e4
        /\ snapshot_epoch_ (control_block_ e') = valid_until_epoch_ s
        /\ previous_snapshot_id_ (control_block_ e') = id_ s
        /\ effects e' = effects e4 ++ [SnapshotTakenBroadcast])
  /\ (forall r e', phase_fails env e r e' ->
      handle_snapshot_triggered env e = Returned ((r, s), e') /\ unpublished e e')
  /\ (forall r s' e', handle_snapshot_triggered env e = Returned ((r, s'), e') ->
      s' = s /\ (r = kRetOk \/ phase_fails env e r e')).
Proof.
  intros s. split; [split|split; [|split]].
  - intros [e' H]. apply handle_snapshot_triggered_returned in H as [_ [[_ (e4 & H & _)]|H]].
    + by exists e4.
    + destruct H as [H _]. done.
  - intros [e4 H]. apply phases_succeed_returns in H as (e' & _ & H). by exists e'.
  - intros e4 H. pose proof (phases_succeed_unpublished _ _ _ H) as U.
    apply phases_succeed_returns in H as (e' & Hp & H).
    destruct (publish_returns env s e4) as (e'' & Hp' & Hcb & _ & _ & _ & _ & _ & Heff).
    fold s in Hp. rewrite Hp in Hp'. injection Hp' as <-.
    exists e'. split; [done|]. split; [done|]. by rewrite Hcb.
  - intros r e' H. split; [by apply phase_fails_returns | by eapply phase_fails_unpublished].
  - intros r s' e' H. apply handle_snapshot_triggered_returned in H as [-> H].
    split; [done|]. destruct H as [[-> _]|H]; [by left | by right].
Qed.


(** *** What the earlier phases leave behind *)




(** *** Runs one after another *)

Lemma next_id_range id :
  1 <= (if id =? kNullSnapshotId then 1 else increment id) <= 2 ^ 32 - 1.
Proof.
  destruct (id =? kNullSnapshotId); [lia|]. unfold increment, u32, kNullSnapshotId.
  pose proof (Z.mod_pos_bound (id + 1) (2 ^ 32) ltac:(lia)).
  destruct (Z.eqb_spec ((id + 1) mod 2 ^ 32) 0); lia.
Qed.

Lemma next_id_succ id :
  1 <= id < 2 ^ 32 - 1 ->
  (if id =? kNullSnapshotId then 1 else increment id) = id + 1.
Proof.
  intros Hid. unfold increment, u32, kNullSnapshotId.
  destruct (Z.eqb_spec id 0); [lia|]. rewrite Z.mod_small by lia.
  destruct (Z.eqb_spec (id + 1) 0); lia.
Qed.

Lemma next_id_wraps :
  (if 2 ^ 32 - 1 =? kNullSnapshotId then 1 else increment (2 ^ 32 - 1)) = 1.
Proof. reflexivity. Qed.

Lemma snapshot_runs_chained envs :
  forall e,
    epochs_asserted envs e ->
    chained (snapshot_epoch_ (control_block_ e)) (previous_snapshot_id_ (control_block_ e))
      (snapshot_runs envs e).
Proof.
  induction envs as [|env envs IH]; intros e Hassert; [done|].
  destruct Hassert as [[Hvalid Hafter] Hrest]. cbn [snapshot_runs].
  destruct (handle_snapshot_triggered env e) as [[[r s] e']|] eqn:Hrun; [|done].
  pose proof (handle_snapshot_triggered_returned _ _ _ _ _ Hrun) as [-> Hcases].
  destruct (is_error r) eqn:Hr.
  - destruct Hcases as [[-> _]|Hfail]; [by rewrite is_error_ok in Hr|].
    apply phase_fails_unpublished in Hfail as [Hcb _]. rewrite <- Hcb. by apply IH.
  - destruct Hcases as [[_ (e4 & Hok & Hpub)]|[Hfail _]]; [|congruence].
    destruct (publish_returns env (new_snapshot_of env e) e4) as (e5 & Hp & Hcb & _).
    assert (e5 = e') as -> by congruence.
    unfold is_valid in *. cbn [chained new_snapshot_of id_ base_epoch_ valid_until_epoch_].
    split; [done|]. split; [lia|]. split.
    { intros Hne. destruct Hafter as [H0|Hgt]; [|lia].
      apply negb_false_iff, Z.eqb_eq in H0. lia. }
    split; [done|].
    specialize (IH e' Hrest). by rewrite Hcb in IH.
Qed.

Lemma chained_adjacent ss :
  forall epoch id i s s',
    chained epoch id ss ->
    ss !! i = Some s -> ss !! S i = Some s' ->
    valid_until_epoch_ s < valid_until_epoch_ s'
    /\ base_epoch_ s' = valid_until_epoch_ s
    /\ 1 <= id_ s <= 2 ^ 32 - 1
    /\ id_ s' = (if id_ s =? kNullSnapshotId then 1 else increment (id_ s)).
Proof.
  induction ss as [|s0 ss IH]; intros epoch id i s s' Hch Hi Hsi; [done|].
  destruct Hch as (Hbase & Hvalid & Hgrow & Hid & Hrest).
  destruct i as [|i].
  - injection Hi as <-. destruct ss as [|s1 ss]; [done|]. injection Hsi as <-.
    destruct Hrest as (Hbase' & _ & Hgrow' & Hid' & _).
    split; [by apply Hgrow'|]. split; [done|]. split; [|done].
    rewrite Hid. apply next_id_range.
  - by apply (IH _ _ i s s' Hrest).
Qed.

(** C4 (as amended).  Over calls of [handle_snapshot_triggered] whose
    asserted precondition holds (the durable epoch is valid and later
    than the snapshot epoch), the snapshots of the successful calls have
    strictly increasing [valid_until_epoch_]; the [base_epoch_] of each
    is the [valid_until_epoch_] of the one before, and that of the first
    is the snapshot epoch the control block started with; the ids
    increase by one as long as the id before is below [2^32 - 1], after
    which the next id is 1. *)
Theorem snapshot_monotonicity (envs : list Collaborators) (e : Engine) :
  epochs_asserted envs e ->
  let ss := snapshot_runs envs e in
  (forall s, ss !! 0%nat = Some s ->
     base_epoch_ s = snapshot_epoch_ (control_block_ e))
  /\ (forall i s s', ss !! i = Some s -> ss !! S i = Some s' ->
        valid_until_epoch_ s < valid_until_epoch_ s'
        /\ base_epoch_ s' = valid_until_epoch_ s
        /\ (id_ s < 2 ^ 32 - 1 -> id_ s' = id_ s + 1)
        /\ (id_ s = 2 ^ 32 - 1 -> id_ s' = 1)).
Proof.
  intros Hassert ss. pose proof (snapshot_runs_chained envs e Hassert) as Hch.
  fold ss in Hch. split.
  - intros s Hs. destruct ss as [|s0 ss']; [done|]. injection Hs as <-. by destruct Hch.
  - intros i s s' Hi Hsi.
    destruct (chained_adjacent ss _ _ i s s' Hch Hi Hsi) as (Hlt & Hbase & Hrange & Hid).
    split; [done|]. split; [done|]. split.
    + intros Hbelow. rewrite Hid. apply next_id_succ. lia.
    + intros Hmax. rewrite Hid, Hmax. apply next_id_wraps.
Qed.

(** C9 (as amended).  A wake-up of the daemon takes no snapshot when the
    snapshot epoch is valid and equals the durable epoch; otherwise,
    when an immediate snapshot was requested, it clears the request and
    takes a snapshot; otherwise it takes a snapshot exactly when the
    clock has reached the time of the previous snapshot plus
    [snapshot_interval_milliseconds_], that is, when the time since the
    previous snapshot is the interval or more. *)
Theorem check_triggers_priority (env : Collaborators) (now : Z) (e : Engine) :
  let previous_epoch := snapshot_epoch_ (control_block_ e) in
  let elapsed := now - previous_snapshot_time_ e in
  let interval := snapshot_interval_milliseconds_ env * ticks_per_millisecond env in
  exists triggered e',
    check_triggers env now e = Returned (triggered, e')
    /\ handle_snapshot_wakeup env now e
       = (if triggered
          then COERCE_ERROR
                 (bind (handle_snapshot_triggered env) (fun r => ret r.1)) e'
          else Returned (tt, e'))
    /\ (if is_valid previous_epoch && (previous_epoch =? get_durable_global_epoch env)
        then triggered = false /\ e' = e
        else if immediate_snapshot_requested_ (control_block_ e)
        then triggered = true
             /\ immediate_snapshot_requested_ (control_block_ e') = false
             /\ snapshot_epoch_ (control_block_ e') = snapshot_epoch_ (control_block_ e)
             /\ previous_snapshot_id_ (control_block_ e')
                = previous_snapshot_id_ (control_block_ e)
             /\ effects e' = effects e
        else (triggered = true <-> interval <= elapsed) /\ e' = e).
Proof.
  intros previous_epoch elapsed interval.
  unfold handle_snapshot_wakeup, check_triggers, bind, get.
  fold previous_epoch.
  destruct (is_valid previous_epoch && (previous_epoch =? get_durable_global_epoch env)).
  { exists false, e. by repeat split. }
  destruct (immediate_snapshot_requested_ (control_block_ e)).
  { eexists true, _. split; [reflexivity|]. split; [reflexivity|]. by repeat split. }
  destruct (Z.geb_spec now
              (previous_snapshot_time_ e
               + snapshot_interval_milliseconds_ env * ticks_per_millisecond env)).
  - exists true, e. split; [done|]. split; [done|]. split; [|done].
    subst elapsed interval. split; [lia | done].
  - exists false, e. split; [done|]. split; [done|]. split; [|done].
    subst elapsed interval. split; [done | lia].
Qed.


(** *** Instances *)

(** Runs the next call of a sequence on concrete data. *)
Ltac eval_run :=
  match goal with
  | |- context [handle_snapshot_triggered ?env ?e] =>
    let H := fresh in
    let v := eval vm_compute in (handle_snapshot_triggered env e) in
    assert (H : handle_snapshot_triggered env e = v) by (vm_compute; reflexivity);
    rewrite H; clear H; cbv beta iota
  end.

(** A run in which all four phases succeed: snapshot 4 up to epoch 6 is
    published, after the composers of the storages 1 and 2 ran and the
    two pages they dropped went back to the pool. *)
Example successful_run_publishes :
  let env := example_env 6 0 1 in
  let e := example_engine 5 3 in
  let e' := state_after (handle_snapshot_triggered env e) e in
  handle_snapshot_triggered env e
    = Returned ((kRetOk, {| id_ := 4; base_epoch_ := 5; valid_until_epoch_ := 6;
                            max_storage_id_ := 3 |}), e')
  /\ control_block_ e'
     = {| snapshot_epoch_ := 6; previous_snapshot_id_ := 4;
          immediate_snapshot_requested_ := false |}
  /\ effects e'
     = [GleanerExecuted 4; MetadataFileSaved 4; MetadataFileSynced 4; SavepointTaken 4 6;
        XctPaused; ComposerInvoked 1; ComposerInvoked 2; XctResumed;
        SnapshotTakenBroadcast]
  /\ free_pool_count_ <$> volatile_pools e' = [4]
  /\ live_window <$> volatile_pools e' = [[5; 6; 1; 2]].
Proof.
  intros env e e'. do 4 (split; [vm_compute; reflexivity|]). vm_compute; reflexivity.
Qed.


(** C4, the claim as stated fails: from the id [2^32 - 2] the next two
    snapshots have the ids [2^32 - 1] and 1. *)
Lemma snapshot_id_wraps_to_one :
  let envs := [example_env 6 0 1; example_env 7 0 3] in
  let e := example_engine 5 4294967294 in
  epochs_asserted envs e
  /\ snapshot_runs envs e
     = [ {| id_ := 4294967295; base_epoch_ := 5; valid_until_epoch_ := 6;
            max_storage_id_ := 3 |};
         {| id_ := 1; base_epoch_ := 6; valid_until_epoch_ := 7;
            max_storage_id_ := 3 |} ]
  /\ ~ (forall i s s', snapshot_runs envs e !! i = Some s ->
          snapshot_runs envs e !! S i = Some s' -> id_ s < id_ s').
Proof.
  intros envs e.
  assert (Hruns : snapshot_runs envs e
     = [ {| id_ := 4294967295; base_epoch_ := 5; valid_until_epoch_ := 6;
            max_storage_id_ := 3 |};
         {| id_ := 1; base_epoch_ := 6; valid_until_epoch_ := 7;
            max_storage_id_ := 3 |} ]) by (vm_compute; reflexivity).
  split; [|split; [exact Hruns|]].
  - subst envs e. cbn [epochs_asserted]. repeat eval_run.
    repeat split; try reflexivity; right; cbn; lia.
  - intros H. rewrite Hruns in H.
    specialize (H 0%nat _ _ eq_refl eq_refl). cbn in H. lia.
Qed.

Lemma snapshot_monotonicity_witness :
  let envs := [example_env 6 0 1; example_env 7 1 1; example_env 8 0 3] in
  let e := example_engine 5 3 in
  let ss := snapshot_runs envs e in
  epochs_asserted envs e
  /\ (forall s, ss !! 0%nat = Some s ->
        base_epoch_ s = snapshot_epoch_ (control_block_ e))
  /\ (forall i s s', ss !! i = Some s -> ss !! S i = Some s' ->
        valid_until_epoch_ s < valid_until_epoch_ s'
        /\ base_epoch_ s' = valid_until_epoch_ s
        /\ (id_ s < 2 ^ 32 - 1 -> id_ s' = id_ s + 1)
        /\ (id_ s = 2 ^ 32 - 1 -> id_ s' = 1)).
Proof.
  intros envs e ss.
  assert (Hassert : epochs_asserted envs e).
  { subst envs e. cbn [epochs_asserted]. repeat eval_run.
    repeat split; try reflexivity; right; cbn; lia. }
  exact (conj Hassert (snapshot_monotonicity envs e Hassert)).
Defined.

(** C9, the claim as stated fails: one second after the previous
    snapshot, with an interval of one second, the time since the
    previous snapshot does not exceed the interval, and the wake-up
    takes a snapshot. *)
Lemma triggered_when_interval_just_elapsed :
  let env := example_env 6 0 1 in
  let e := example_engine 5 3 in
  let now := 1000000 in
  is_valid (snapshot_epoch_ (control_block_ e))
    && (snapshot_epoch_ (control_block_ e) =? get_durable_global_epoch env) = false
  /\ immediate_snapshot_requested_ (control_block_ e) = false
  /\ ~ (now - previous_snapshot_time_ e
        > snapshot_interval_milliseconds_ env * ticks_per_millisecond env)
  /\ check_triggers env now e = Returned (true, e).
Proof.
  intros env e now. split; [reflexivity|]. split; [reflexivity|].
  split; [cbn; lia | reflexivity].
Qed.


(** ** Beyond the stated properties: the phases and the daemon *)

(** *** The metadata file *)

Lemma install_root_pages_fold (ptrs : gmap Z Z) (ids : list Z) :
  forall (roots : gmap Z Z) (id : Z),
    foldl (fun roots id =>
             match ptrs !! id with
             | Some new_pointer => <[id := new_pointer]> roots
             | None => roots
             end) roots ids !! id
    = match ptrs !! id with
      | Some new_pointer => if decide (id ∈ ids) then Some new_pointer else roots !! id
      | None => roots !! id
      end.
Proof.
  induction ids as [|x ids IH]; intros roots id; cbn [foldl].
  { destruct (ptrs !! id); [|done]. case_decide as Hin; [|done].
    by apply elem_of_nil in Hin. }
  rewrite IH. destruct (ptrs !! id) as [p|] eqn:Hp.
  - destruct (decide (id ∈ ids)) as [Hin|Hin].
    + rewrite decide_True; [done | by apply list_elem_of_further].
    + destruct (decide (x = id)) as [->|Hne].
      * rewrite Hp, lookup_insert_eq. rewrite decide_True; [done | apply list_elem_of_here].
      * rewrite decide_False by (rewrite not_elem_of_cons; naive_solver).
        destruct (ptrs !! x); [by rewrite lookup_insert_ne | done].
  - destruct (ptrs !! x) as [q|] eqn:Hq; [|done].
    rewrite lookup_insert_ne; [done | congruence].
Qed.

Lemma install_root_pages_lookup (largest : Z) (ptrs roots : gmap Z Z) (id : Z) :
  install_root_pages largest ptrs roots !! id
  = match ptrs !! id with
    | Some new_pointer => if decide (1 <= id <= largest) then Some new_pointer
                          else roots !! id
    | None => roots !! id
    end.
Proof.
  unfold install_root_pages. rewrite install_root_pages_fold.
  destruct (ptrs !! id); [|done].
  destruct (decide (id ∈ seqZ 1 largest)) as [Hin|Hin]; rewrite elem_of_seqZ in Hin;
    case_decide; first [done | lia].
Qed.

Lemma snapshot_metadata_cases env s ptrs e r e' :
  snapshot_metadata env s ptrs e = Returned (r, e') ->
  (is_error r = true /\ e' = e)
  \/ (r = kRetOk
      /\ e' = emit (MetadataFileSynced (id_ s))
                (emit (MetadataFileSaved (id_ s))
                   (set_metadata_files
                      (<[id_ s :=
                           {| metadata_id_ := id_ s;
                              metadata_base_epoch_ := base_epoch_ s;
                              metadata_valid_until_epoch_ := valid_until_epoch_ s;
                              largest_storage_id_ := max_storage_id_ s;
                              root_snapshot_page_id_ :=
                                install_root_pages (max_storage_id_ s) ptrs
                                  (clone_all_storage_metadata env).2 |}]>
                         (metadata_files e)) e))).
Proof.
  unfold snapshot_metadata, CHECK_ERROR, bind, ret, modify.
  destruct (clone_all_storage_metadata env) as [cloned roots].
  destruct (is_error cloned) eqn:H1; [intros [= <- <-]; by left|].
  destruct (negb (fs_exists env) && negb (fs_create_directories env));
    [intros [= <- <-]; by left|].
  destruct (is_error (save_to_file env _)) eqn:H2; [intros [= <- <-]; by left|].
  intros [= <- <-]. by right.
Qed.

Lemma snapshot_savepoint_cases env s e r e' :
  snapshot_savepoint env s e = Returned (r, e') ->
  (is_error r = true /\ e' = e)
  \/ (r = kRetOk
      /\ e' = emit (SavepointTaken (id_ s) (valid_until_epoch_ s))
                (set_latest_savepoint (id_ s, valid_until_epoch_ s) e)).
Proof.
  unfold snapshot_savepoint, CHECK_ERROR, bind, ret, modify.
  destruct (is_error _) eqn:H1; [intros [= <- <-]; by left|].
  intros [= <- <-]. by right.
Qed.

(** X8.  The metadata file that [snapshot_metadata] writes: it carries
    the id, the epochs and the largest storage id of the snapshot; for a
    storage from 1 to [max_storage_id_] with a new root page it records
    that page, and for every other storage the root page that the
    storage manager reported (a new root page for a storage outside
    that range is dropped).  The files of other snapshots stay as they
    are. *)
Theorem metadata_file_records_new_roots (env : Collaborators) (s : Snapshot)
    (ptrs : gmap Z Z) (e e' : Engine) :
  snapshot_metadata env s ptrs e = Returned (kRetOk, e') ->
  exists metadata,
    metadata_files e' !! id_ s = Some metadata
    /\ metadata_id_ metadata = id_ s
    /\ metadata_base_epoch_ metadata = base_epoch_ s
    /\ metadata_valid_until_epoch_ metadata = valid_until_epoch_ s
    /\ largest_storage_id_ metadata = max_storage_id_ s
    /\ (forall storage,
          root_snapshot_page_id_ metadata !! storage
          = match ptrs !! storage with
            | Some new_pointer =>
              if decide (1 <= storage <= max_storage_id_ s) then Some new_pointer
              else (clone_all_storage_metadata env).2 !! storage
            | None => (clone_all_storage_metadata env).2 !! storage
            end)
    /\ (forall id, id <> id_ s -> metadata_files e' !! id = metadata_files e !! id).
Proof.
  intros H. apply snapshot_metadata_cases in H as [[H _]|[_ ->]].
  { by rewrite is_error_ok in H. }
  eexists. cbn. split; [apply lookup_insert_eq|]. cbn. do 4 (split; [done|]). split.
  - intros storage. apply install_root_pages_lookup.
  - intros id Hne. by rewrite lookup_insert_ne.
Qed.

Lemma metadata_file_records_new_roots_witness :
  let env := example_env 6 0 1 in
  let s := {| id_ := 4; base_epoch_ := 5; valid_until_epoch_ := 6; max_storage_id_ := 1 |} in
  let ptrs : gmap Z Z := <[1 := 100]> (<[2 := 200]> ∅) in
  let e := example_engine 5 3 in
  let e' := state_after (snapshot_metadata env s ptrs e) e in
  snapshot_metadata env s ptrs e = Returned (kRetOk, e')
  /\ exists metadata,
       metadata_files e' !! id_ s = Some metadata
       /\ metadata_id_ metadata = id_ s
       /\ metadata_base_epoch_ metadata = base_epoch_ s
       /\ metadata_valid_until_epoch_ metadata = valid_until_epoch_ s
       /\ largest_storage_id_ metadata = max_storage_id_ s
       /\ (forall storage,
             root_snapshot_page_id_ metadata !! storage
             = match ptrs !! storage with
               | Some new_pointer =>
                 if decide (1 <= storage <= max_storage_id_ s) then Some new_pointer
                 else (clone_all_storage_metadata env).2 !! storage
               | None => (clone_all_storage_metadata env).2 !! storage
               end)
       /\ (forall id, id <> id_ s -> metadata_files e' !! id = metadata_files e !! id).
Proof.
  intros env s ptrs e e'.
  assert (H : snapshot_metadata env s ptrs e = Returned (kRetOk, e'))
    by (vm_compute; reflexivity).
  exact (conj H (metadata_file_records_new_roots env s ptrs e e' H)).
Defined.

(** *** [replace_pointers] *)

Lemma release_overflow d p ch :
  pool_shape p -> 0 <= d < 2 ^ 32 ->
  free_pool_count_ p + d > free_pool_capacity_ p ->
  release d p ch = Aborted kErrorCodeMemoryDuplicatePage.
Proof.
  intros [] Hd Hover. unfold release. rewrite PagePoolFacts.u64_small by lia.
  destruct (Z.gtb_spec (free_pool_count_ p + d) (free_pool_capacity_ p)); [done | lia].
Qed.

(** X9.  Handing the dropped pages back, node by node: when every pool
    has room for its chunk, each pool takes up exactly the pages of its
    chunk behind the pages it held, and the pools of nodes without a
    chunk stay as they are; otherwise the process ends on the
    duplicate-page error, at a pool that a chunk would over-fill. *)
Theorem dropped_chunks_go_back_to_their_pools (chunks : list PagePoolOffsetChunk) :
  forall pools : list PagePoolPimpl,
  Forall pool_shape pools ->
  Forall (fun chunk => size chunk < 2 ^ 32) chunks ->
  match release_dropped_chunks chunks pools with
  | Returned pools' =>
    length pools' = length pools
    /\ forall i pool pool',
         pools !! i = Some pool -> pools' !! i = Some pool' ->
         pool_shape pool'
         /\ match chunks !! i with
            | Some chunk =>
              free_pool_count_ pool' = free_pool_count_ pool + size chunk
              /\ live_window pool' ≡ₚ live_window pool ++ chunk_ chunk
            | None => pool' = pool
            end
  | Aborted c =>
    c = kErrorCodeMemoryDuplicatePage
    /\ exists i chunk pool,
         chunks !! i = Some chunk /\ pools !! i = Some pool
         /\ free_pool_count_ pool + size chunk > free_pool_capacity_ pool
  end.
Proof.
  induction chunks as [|chunk chunks IH]; intros pools Hshapes Hsizes.
  { cbn. split; [done|]. intros i pool pool' H1 H2. rewrite H1 in H2.
    injection H2 as <-. split; [|done]. by eapply Forall_lookup_1 in Hshapes. }
  destruct pools as [|pool pools].
  { cbn. split; [done|]. by intros i pool pool' H1. }
  apply Forall_cons in Hshapes as [Hs Hshapes]. apply Forall_cons in Hsizes as [Hsz Hsizes].
  specialize (IH pools Hshapes Hsizes). cbn [release_dropped_chunks].
  assert (Hsize0 : 0 <= size chunk) by (unfold size; lia).
  assert (Hone :
    match (if negb (empty chunk)
           then match release (u32 (size chunk)) pool chunk with
                | Returned (volatile_pool, _) => Returned volatile_pool
                | Aborted c => Aborted c
                end
           else Returned pool) with
    | Returned pool' =>
      pool_shape pool'
      /\ free_pool_count_ pool' = free_pool_count_ pool + size chunk
      /\ live_window pool' ≡ₚ live_window pool ++ chunk_ chunk
    | Aborted c =>
      c = kErrorCodeMemoryDuplicatePage
      /\ free_pool_count_ pool + size chunk > free_pool_capacity_ pool
    end).
  { unfold empty. case_bool_decide as Hempty; cbn [negb].
    { unfold size. rewrite Hempty. cbn. rewrite app_nil_r. split; [done|]. split; [lia|done]. }
    rewrite PagePoolFacts.u32_small by lia.
    destruct (decide (free_pool_count_ pool + size chunk <= free_pool_capacity_ pool))
      as [Hfit|Hover].
    - destruct (PagePoolFacts.release_spec (size chunk) pool chunk Hs
                  ltac:(lia) ltac:(lia) Hfit)
        as (pool' & w & _ & -> & Hl & Hc & _ & _ & _ & Hs').
      split; [done|]. split; [done|]. rewrite Hl, Z.sub_diag, drop_0.
      apply Permutation_app_head. rewrite Permutation_app_comm. by rewrite take_drop.
    - rewrite (release_overflow (size chunk) pool chunk Hs) by lia. split; [done | lia]. }
  destruct (if negb (empty chunk) then _ else _) as [pool'|c].
  - destruct Hone as (Hs' & Hc & Hl).
    destruct (release_dropped_chunks chunks pools) as [pools'|c].
    + destruct IH as [Hlen IH]. split; [cbn; by rewrite Hlen|].
      intros [|i] q q' H1 H2; cbn in *.
      * injection H1 as <-. injection H2 as <-. done.
      * by apply IH.
    + destruct IH as (-> & i & ch & q & H1 & H2 & H3). split; [done|].
      by exists (S i), ch, q.
  - destruct Hone as [-> Hover]. split; [done|]. by exists 0%nat, chunk, pool.
Qed.

Lemma dropped_chunks_go_back_to_their_pools_witness :
  let chunks := [{| capacity := 4095; chunk_ := [1; 2] |}; {| capacity := 4095; chunk_ := [] |}] in
  let pools :=
    [{| pool_size_ := 7; pages_for_free_pool_ := 1; free_pool_ := [1; 2; 3; 4; 5; 6];
        free_pool_capacity_ := 6; free_pool_head_ := 4; free_pool_count_ := 2 |};
     {| pool_size_ := 3; pages_for_free_pool_ := 1; free_pool_ := [1; 2];
        free_pool_capacity_ := 2; free_pool_head_ := 0; free_pool_count_ := 2 |}] in
  (Forall pool_shape pools /\ Forall (fun chunk => size chunk < 2 ^ 32) chunks)
  /\ match release_dropped_chunks chunks pools with
     | Returned pools' =>
       length pools' = length pools
       /\ forall i pool pool',
            pools !! i = Some pool -> pools' !! i = Some pool' ->
            pool_shape pool'
            /\ match chunks !! i with
               | Some chunk =>
                 free_pool_count_ pool' = free_pool_count_ pool + size chunk
                 /\ live_window pool' ≡ₚ live_window pool ++ chunk_ chunk
               | None => pool' = pool
               end
     | Aborted c =>
       c = kErrorCodeMemoryDuplicatePage
       /\ exists i chunk pool,
            chunks !! i = Some chunk /\ pools !! i = Some pool
            /\ free_pool_count_ pool + size chunk > free_pool_capacity_ pool
     end.
Proof.
  intros chunks pools.
  assert (H1 : Forall pool_shape pools) by (repeat constructor; cbn; lia).
  assert (H2 : Forall (fun chunk => size chunk < 2 ^ 32) chunks)
    by (repeat constructor; unfold size; cbn; lia).
  exact (conj (conj H1 H2) (dropped_chunks_go_back_to_their_pools chunks pools H1 H2)).
Defined.

(** The loop over the storages: the composers it invokes are the first
    storages with a new root page, in ascending order, and all of them
    when it ends without an error. *)
Lemma replace_pointers_storages_trace env s ptrs ids :
  forall r0 chunks e r chunks' e',
    replace_pointers_storages env s ptrs ids r0 chunks e = Returned ((r, chunks'), e') ->
    exists invoked,
      effects e' = effects e ++ (ComposerInvoked <$> invoked)
      /\ invoked `prefix_of` filter (fun id => is_Some (ptrs !! id)) ids
      /\ (is_error r = false -> invoked = filter (fun id => is_Some (ptrs !! id)) ids).
Proof.
  induction ids as [|id ids IH]; intros r0 chunks e r chunks' e'.
  - intros [= <- <- <-]. exists []. cbn. rewrite app_nil_r. by repeat split.
  - cbn [replace_pointers_storages].
    destruct (ptrs !! id) as [pointer|] eqn:Hp.
    + rewrite filter_cons_True by (by rewrite Hp).
      unfold bind, get, modify, ret.
      destruct (composer_replace_pointers env id s pointer chunks (volatile_pools e))
        as [[r1 chunks1] pools1].
      destruct (is_error r1) eqn:Hr1.
      * intros [= <- <- <-]. exists [id]. cbn. split; [done|]. split; [|congruence].
        by apply (prefix_cons id []), prefix_nil.
      * intros Hrun. apply IH in Hrun as (invoked & He & Hpre & Hall).
        exists (id :: invoked). rewrite He. cbn. rewrite <- app_assoc. split; [done|].
        split; [by apply prefix_cons | intros Hr; by rewrite Hall].
    + rewrite filter_cons_False by (rewrite Hp; by intros []).
      apply IH.
Qed.

Lemma replace_pointers_effects env s ptrs e r e' :
  replace_pointers env s ptrs e = Returned (r, e') ->
  is_error (fileset_initialize env) = false ->
  exists invoked,
    effects e' = effects e ++ [XctPaused] ++ (ComposerInvoked <$> invoked) ++ [XctResumed]
    /\ invoked `prefix_of` storages_to_replace s ptrs
    /\ (r = kRetOk -> invoked = storages_to_replace s ptrs).
Proof.
  unfold replace_pointers, CHECK_ERROR, bind, ret. intros Hrp Hf. rewrite Hf in Hrp.
  unfold modify at 1 in Hrp.
  destruct (replace_pointers_storages env s ptrs _ _ _ _) as [[[r1 chunks'] e1]|] eqn:Hrun;
    [|done].
  apply replace_pointers_storages_trace in Hrun as (invoked & He & Hpre & Hall).
  unfold modify, get in Hrp.
  destruct (release_dropped_chunks _ _) as [pools|c]; [|done].
  injection Hrp as <- <-. exists invoked. cbn in *. rewrite He. cbn.
  rewrite <- !app_assoc. split; [done|]. split; [done|]. intros ->. by apply Hall.
Qed.

(** *** The loop of [replace_pointers] stops at the first composer that fails *)

Lemma replace_pointers_storages_app env s ptrs ids1 ids2 :
  forall r0 chunks e,
    is_error r0 = false ->
    replace_pointers_storages env s ptrs (ids1 ++ ids2) r0 chunks e
    = match replace_pointers_storages env s ptrs ids1 r0 chunks e with
      | Returned ((r1, chunks1), e1) =>
        if is_error r1 then Returned ((r1, chunks1), e1)
        else replace_pointers_storages env s ptrs ids2 r1 chunks1 e1
      | Aborted c => Aborted c
      end.
Proof.
  induction ids1 as [|id ids1 IH]; intros r0 chunks e H0.
  - cbn [app replace_pointers_storages]. unfold ret. by rewrite H0.
  - cbn [app replace_pointers_storages].
    destruct (ptrs !! id) as [pointer|]; [|by apply IH].
    unfold bind, get, modify, ret.
    destruct (composer_replace_pointers env id s pointer chunks (volatile_pools e))
      as [[r1 chunks1] pools1].
    destruct (is_error r1) eqn:H1; [by rewrite H1 | by apply IH].
Qed.

Lemma seqZ_split_at (b n : Z) :
  1 <= b <= n -> seqZ 1 n = seqZ 1 (b - 1) ++ b :: seqZ (b + 1) (n - b).
Proof.
  intros Hb. replace n with ((b - 1) + (1 + (n - b))) at 1 by lia.
  rewrite seqZ_app by lia. f_equal.
  replace (1 + (b - 1)) with b by lia. rewrite seqZ_cons by lia.
  f_equal. f_equal; lia.
Qed.

Lemma seqZ_split_inv (n b : Z) (before after : list Z) :
  seqZ 1 n = before ++ b :: after -> 1 <= b <= n /\ before = seqZ 1 (b - 1).
Proof.
  intros Hsplit.
  assert (Hb : seqZ 1 n !! length before = Some b)
    by (rewrite Hsplit; by apply list_lookup_middle).
  apply lookup_seqZ in Hb as [Hb Hn].
  assert (Hrange : 1 <= b <= n) by lia. split; [done|].
  rewrite (seqZ_split_at b n Hrange) in Hsplit.
  apply app_inj_1 in Hsplit as [Hbefore _]; [done|].
  rewrite length_seqZ. lia.
Qed.

(** A run of the loop that ends on an error came without an error to
    the storage whose composer gave it, and went no further. *)
Lemma replace_pointers_storages_failed env s ptrs ids :
  forall r0 chunks e r chunks' e',
    replace_pointers_storages env s ptrs ids r0 chunks e = Returned ((r, chunks'), e') ->
    is_error r0 = false -> is_error r = true ->
    exists before b after pointer r1 chunks1 e1,
      ids = before ++ b :: after
      /\ ptrs !! b = Some pointer
      /\ replace_pointers_storages env s ptrs before r0 chunks e
         = Returned ((r1, chunks1), e1)
      /\ is_error r1 = false
      /\ (composer_replace_pointers env b s pointer chunks1 (volatile_pools e1)).1.1 = r
      /\ effects e' = effects e1 ++ [ComposerInvoked b].
Proof.
  induction ids as [|id ids IH]; intros r0 chunks e r chunks' e'.
  - intros [= <- <- <-] H0 Hr. congruence.
  - cbn [replace_pointers_storages].
    destruct (ptrs !! id) as [pointer|] eqn:Hp.
    + unfold bind, get, modify, ret.
      destruct (composer_replace_pointers env id s pointer chunks (volatile_pools e))
        as [[r1 chunks1] pools1] eqn:Hcomp.
      destruct (is_error r1) eqn:H1.
      * intros [= <- <- <-] H0 _.
        exists [], id, ids, pointer, r0, chunks, e.
        do 4 (split; [done|]). by rewrite Hcomp.
      * intros Hrun _ Hr.
        destruct (IH _ _ _ _ _ _ Hrun H1 Hr)
          as (before & b & after & ptr & r2 & chunks2 & e2 & -> & Hb & Hbefore & H2 & Hans
              & Heff).
        exists (id :: before), b, after, ptr, r2, chunks2, e2.
        split; [done|]. split; [done|]. split; [|done].
        cbn [replace_pointers_storages]. rewrite Hp. unfold bind, get, modify, ret.
        by rewrite Hcomp, H1.
    + intros Hrun H0 Hr.
      destruct (IH _ _ _ _ _ _ Hrun H0 Hr)
        as (before & b & after & ptr & r2 & chunks2 & e2 & -> & Hb & Hbefore & H2 & Hans
            & Heff).
      exists (id :: before), b, after, ptr, r2, chunks2, e2.
      split; [done|]. split; [done|]. split; [|done].
      cbn [replace_pointers_storages]. by rewrite Hp.
Qed.

(** When the loop comes to a storage whose composer fails, it ends
    there, on that error. *)
Lemma composer_answers_stops env s ptrs e b r :
  composer_answers env s ptrs e b r -> is_error r = true ->
  exists chunks' e_b,
    replace_pointers_storages env s ptrs (seqZ 1 (max_storage_id_ s)) kRetOk
      (replicate (get_soc_count env) (clear {| capacity := kMaxSize env; chunk_ := [] |}))
      (emit XctPaused (set_accepting_xct false e))
    = Returned ((r, chunks'), e_b)
    /\ effects e_b
       = effects e ++ [XctPaused]
         ++ (ComposerInvoked
               <$> filter (fun id => is_Some (ptrs !! id)) (seqZ 1 (b - 1)) ++ [b]).
Proof.
  intros (pointer & r0 & chunks & e_at & Hb & Hp & Hrun & H0 & Hans) Hr.
  rewrite (seqZ_split_at b _ Hb), replace_pointers_storages_app, Hrun, H0 by done.
  cbn [replace_pointers_storages]. rewrite Hp. unfold bind, get, modify, ret.
  destruct (composer_replace_pointers env b s pointer chunks (volatile_pools e_at))
    as [[r1 chunks1] pools1]. cbn in Hans. subst r1. rewrite Hr.
  eexists _, _. split; [reflexivity|].
  apply replace_pointers_storages_trace in Hrun as (invoked & He & _ & Hall).
  cbn. rewrite He, (Hall H0), fmap_app. cbn. by rewrite <- !app_assoc.
Qed.



(** What [replace_pointers] has invoked when it returns, the snapshot
    file set being open. *)
Lemma replace_pointers_loop env s ptrs e r e' :
  replace_pointers env s ptrs e = Returned (r, e') ->
  is_error (fileset_initialize env) = false ->
  exists invoked,
    effects e' = effects e ++ [XctPaused] ++ (ComposerInvoked <$> invoked) ++ [XctResumed]
    /\ invoked `prefix_of` storages_to_replace s ptrs
    /\ (r = kRetOk -> invoked = storages_to_replace s ptrs)
    /\ (is_error r = true ->
        exists b,
          composer_answers env s ptrs e b r
          /\ invoked = filter (fun id => is_Some (ptrs !! id)) (seqZ 1 (b - 1)) ++ [b])
    /\ (forall b r_b,
          composer_answers env s ptrs e b r_b -> is_error r_b = true ->
          r = r_b
          /\ invoked = filter (fun id => is_Some (ptrs !! id)) (seqZ 1 (b - 1)) ++ [b]).
Proof.
  unfold replace_pointers, CHECK_ERROR, bind, ret. intros Hrp Hf. rewrite Hf in Hrp.
  unfold modify at 1 in Hrp.
  destruct (replace_pointers_storages env s ptrs _ _ _ _) as [[[r1 chunks'] e1]|] eqn:Hrun;
    [|done].
  unfold modify, get in Hrp.
  destruct (release_dropped_chunks _ _) as [pools|c]; [|done].
  injection Hrp as <- <-.
  assert (Hinj : Inj (=) (=) ComposerInvoked) by (intros ?? [=]; done).
  assert (Hstops : forall b r_b invoked,
            effects e1 = effects e ++ [XctPaused] ++ (ComposerInvoked <$> invoked) ->
            composer_answers env s ptrs e b r_b -> is_error r_b = true ->
            r1 = r_b
            /\ invoked = filter (fun id => is_Some (ptrs !! id)) (seqZ 1 (b - 1)) ++ [b]).
  { intros b r_b invoked He Hans Hr.
    destruct (composer_answers_stops _ _ _ _ _ _ Hans Hr) as (chunks_b & e_b & Hrun_b & He_b).
    rewrite Hrun in Hrun_b. injection Hrun_b as -> _ ->. split; [done|].
    rewrite He in He_b. apply app_inv_head, app_inv_head in He_b.
    by apply (inj (fmap ComposerInvoked)) in He_b. }
  destruct (is_error r1) eqn:Hr1.
  - destruct (replace_pointers_storages_failed _ _ _ _ _ _ _ _ _ _ Hrun eq_refl Hr1)
      as (before & b & after & pointer & r0 & chunks0 & e0 & Hsplit & Hp & Hbefore & H0
          & Hans & Heff).
    pose proof (seqZ_split_inv _ _ _ _ Hsplit) as [Hb ->].
    pose proof Hbefore as Htrace.
    apply replace_pointers_storages_trace in Htrace as (invoked0 & He0 & _ & Hall0).
    rewrite (Hall0 H0) in He0. clear invoked0 Hall0.
    assert (He1 : effects e1 = effects e ++ [XctPaused]
                  ++ (ComposerInvoked
                        <$> filter (fun id => is_Some (ptrs !! id)) (seqZ 1 (b - 1)) ++ [b])).
    { rewrite Heff, He0, fmap_app. cbn. by rewrite <- !app_assoc. }
    exists (filter (fun id => is_Some (ptrs !! id)) (seqZ 1 (b - 1)) ++ [b]).
    split; [cbn; rewrite He1; cbn; by rewrite <- !app_assoc|].
    split.
    { unfold storages_to_replace. rewrite Hsplit, filter_app.
      apply prefix_app. rewrite filter_cons_True by (by rewrite Hp).
      apply prefix_cons, prefix_nil. }
    split; [intros ->; by rewrite is_error_ok in Hr1|].
    split.
    { intros _. exists b. split; [|done].
      by exists pointer, r0, chunks0, e0. }
    intros b' r_b Hans' Hr. by apply (Hstops b' r_b _ He1).
  - apply replace_pointers_storages_trace in Hrun as (invoked & He & Hpre & Hall).
    exists invoked. cbn in *.
    split; [cbn; rewrite He; cbn; by rewrite <- !app_assoc|].
    split; [done|]. split; [intros _; by apply Hall|].
    split; [done|].
    intros b r_b Hans Hr.
    assert (He1 : effects e1 = effects e ++ [XctPaused] ++ (ComposerInvoked <$> invoked))
      by (rewrite He; cbn; by rewrite <- !app_assoc).
    destruct (Hstops b r_b _ He1 Hans Hr) as [-> _]. congruence.
Qed.

(** X10.  [replace_pointers] invokes the composers only while the
    transactions are paused: when the snapshot file set cannot be
    opened it returns that error and has changed nothing; otherwise,
    when it returns, it has paused the transactions once, then invoked
    the composers of the storages with a new root page in ascending
    order, then resumed the transactions, which are accepted again.  It
    invoked all of those composers when it returns [kRetOk].  When it
    returns an error, the loop came without an error to a storage whose
    composer answered that error, and that composer is the last one
    invoked.  And whenever the loop comes to a storage whose composer
    answers an error, that error is what [replace_pointers] returns and
    that composer is the last one invoked. *)
Theorem composers_run_only_while_paused (env : Collaborators) (s : Snapshot)
    (ptrs : gmap Z Z) (e e' : Engine) (r : ErrorStack) :
  replace_pointers env s ptrs e = Returned (r, e') ->
  (is_error (fileset_initialize env) = true -> r = fileset_initialize env /\ e' = e)
  /\ (is_error (fileset_initialize env) = false ->
      accepting_xct e' = true
      /\ exists invoked,
           effects e' = effects e ++ [XctPaused] ++ (ComposerInvoked <$> invoked)
                        ++ [XctResumed]
           /\ invoked `prefix_of` storages_to_replace s ptrs
           /\ (r = kRetOk -> invoked = storages_to_replace s ptrs)
           /\ (is_error r = true ->
               exists b,
                 composer_answers env s ptrs e b r
                 /\ invoked
                    = filter (fun id => is_Some (ptrs !! id)) (seqZ 1 (b - 1)) ++ [b])
           /\ (forall b r_b,
                 composer_answers env s ptrs e b r_b -> is_error r_b = true ->
                 r = r_b
                 /\ invoked
                    = filter (fun id => is_Some (ptrs !! id)) (seqZ 1 (b - 1)) ++ [b])).
Proof.
  intros Hrp.
  pose proof (replace_pointers_returns _ _ _ _ _ _ Hrp) as (_ & _ & _ & Hbad & Hgood).
  split; [exact Hbad|]. intros Hf. destruct (Hgood Hf) as [Hacc _].
  split; [done|]. by eapply replace_pointers_loop.
Qed.

Lemma composers_run_only_while_paused_witness :
  let env := example_env 6 2 1 in
  let s := new_snapshot_of env (example_engine 5 3) in
  let ptrs := get_new_root_page_pointers env s in
  let e := example_engine 5 3 in
  let e' := state_after (replace_pointers env s ptrs e) e in
  let r := kErrorCodeOther 7 in
  replace_pointers env s ptrs e = Returned (r, e')
  /\ (is_error (fileset_initialize env) = true -> r = fileset_initialize env /\ e' = e)
  /\ (is_error (fileset_initialize env) = false ->
      accepting_xct e' = true
      /\ exists invoked,
           effects e' = effects e ++ [XctPaused] ++ (ComposerInvoked <$> invoked)
                        ++ [XctResumed]
           /\ invoked `prefix_of` storages_to_replace s ptrs
           /\ (r = kRetOk -> invoked = storages_to_replace s ptrs)
           /\ (is_error r = true ->
               exists b,
                 composer_answers env s ptrs e b r
                 /\ invoked
                    = filter (fun id => is_Some (ptrs !! id)) (seqZ 1 (b - 1)) ++ [b])
           /\ (forall b r_b,
                 composer_answers env s ptrs e b r_b -> is_error r_b = true ->
                 r = r_b
                 /\ invoked
                    = filter (fun id => is_Some (ptrs !! id)) (seqZ 1 (b - 1)) ++ [b])).
Proof.
  intros env s ptrs e e' r.
  assert (H : replace_pointers env s ptrs e = Returned (r, e'))
    by (vm_compute; reflexivity).
  exact (conj H (composers_run_only_while_paused env s ptrs e e' r H)).
Defined.



(** *** A whole run *)

(** The state that the three earlier phases leave when they succeed. *)
Lemma earlier_phases_state env e ptrs e3 :
  earlier_phases_succeed env e ptrs e3 ->
  let s := new_snapshot_of env e in
  ptrs = get_new_root_page_pointers env s
  /\ control_block_ e3 = control_block_ e
  /\ previous_snapshot_time_ e3 = previous_snapshot_time_ e
  /\ accepting_xct e3 = accepting_xct e
  /\ volatile_pools e3 = volatile_pools e
  /\ latest_savepoint e3 = (id_ s, valid_until_epoch_ s)
  /\ (exists metadata,
        metadata_files e3 = <[id_ s := metadata]> (metadata_files e)
        /\ metadata_valid_until_epoch_ metadata = valid_until_epoch_ s)
  /\ effects e3 = effects e ++ [GleanerExecuted (id_ s); MetadataFileSaved (id_ s);
                                MetadataFileSynced (id_ s);
                                SavepointTaken (id_ s) (valid_until_epoch_ s)].
Proof.
  intros (e1 & e2 & Hg & Hm & Hs) s. fold s in Hg, Hm, Hs.
  injection Hg as _ <- <-.
  apply snapshot_metadata_cases in Hm as [[Hm _]|[_ ->]]; [by rewrite is_error_ok in Hm|].
  apply snapshot_savepoint_cases in Hs as [[Hs _]|[_ ->]]; [by rewrite is_error_ok in Hs|].
  cbn. do 6 (split; [done|]). split; [by eexists|]. by rewrite <- !app_assoc.
Qed.

(** What a run that returns has done to the state, by the phase that
    ended it. *)
Lemma run_outcomes env e r s e' :
  handle_snapshot_triggered env e = Returned ((r, s), e') ->
  s = new_snapshot_of env e
  /\ ((is_error r = true
       /\ control_block_ e' = control_block_ e
       /\ (accepting_xct e' = accepting_xct e \/ accepting_xct e' = true)
       /\ (latest_savepoint e' = latest_savepoint e
           \/ latest_savepoint e' = (id_ s, valid_until_epoch_ s)))
      \/ (r = kRetOk
          /\ control_block_ e'
             = {| snapshot_epoch_ := valid_until_epoch_ s;
                  previous_snapshot_id_ := id_ s;
                  immediate_snapshot_requested_ :=
                    immediate_snapshot_requested_ (control_block_ e) |}
          /\ previous_snapshot_time_ e' = system_clock_now env
          /\ accepting_xct e' = true
          /\ latest_savepoint e' = (id_ s, valid_until_epoch_ s)
          /\ (exists metadata,
                metadata_files e' = <[id_ s := metadata]> (metadata_files e)
                /\ metadata_valid_until_epoch_ metadata = valid_until_epoch_ s)
          /\ effects e'
             = effects e
               ++ [GleanerExecuted (id_ s); MetadataFileSaved (id_ s);
                   MetadataFileSynced (id_ s);
                   SavepointTaken (id_ s) (valid_until_epoch_ s); XctPaused]
               ++ (ComposerInvoked
                     <$> storages_to_replace s (get_new_root_page_pointers env s))
               ++ [XctResumed; SnapshotTakenBroadcast])).
Proof.
  intros Hrun. apply handle_snapshot_triggered_returned in Hrun as [-> Hcases].
  split; [done|]. set (s := new_snapshot_of env e) in *.
  destruct Hcases as [[-> (e4 & (ptrs & e3 & Hearlier & Hrp) & Hpub)]|[Herr Hfail]].
  - right. split; [done|].
    destruct (earlier_phases_state _ _ _ _ Hearlier)
      as (-> & Hcb & Ht & Hacc & _ & Hsp & (metadata & Hfiles & Hmd) & Heff).
    fold s in Hsp, Hfiles, Hmd, Heff, Hrp.
    pose proof (replace_pointers_returns _ _ _ _ _ _ Hrp) as ([Hcb4 _] & Hf4 & Hs4 & Hbad & _).
    pose proof (replace_pointers_returns _ _ _ _ _ _ Hrp) as (_ & _ & _ & _ & Hgood).
    destruct (is_error (fileset_initialize env)) eqn:Hfs.
    { destruct (Hbad eq_refl) as [Hr _]. by rewrite <- Hr, is_error_ok in Hfs. }
    destruct (Hgood eq_refl) as [Hacc4 _].
    destruct (replace_pointers_effects _ _ _ _ _ _ Hrp Hfs) as (invoked & Heff4 & _ & Hall).
    destruct (publish_returns env s e4)
      as (e5 & Hp & Hcb5 & Ht5 & Hacc5 & Hf5 & Hs5 & _ & Heff5).
    assert (e5 = e') as -> by congruence.
    rewrite Hcb5, Hcb4, Hcb. split; [done|]. split; [done|].
    split; [congruence|]. split; [congruence|].
    split; [exists metadata; split; [congruence | done]|].
    rewrite Heff5, Heff4, Heff, (Hall eq_refl). by rewrite <- !app_assoc.
  - left. split; [done|].
    destruct Hfail as [(ptrs & Hg)|[(ptrs & e1 & Hg & Hm)|[(ptrs & e1 & e2 & Hg & Hm & Hs)
                      |(ptrs & e3 & Hearlier & Hrp)]]]; fold s in Hg || idtac.
    + injection Hg as _ _ <-. cbn. by repeat split; left.
    + injection Hg as _ _ <-. fold s in Hm.
      apply snapshot_metadata_cases in Hm as [[_ ->]|[-> _]]; [|by rewrite is_error_ok in Herr].
      cbn. by repeat split; left.
    + injection Hg as _ _ <-. fold s in Hm, Hs.
      apply snapshot_metadata_cases in Hm as [[Hm _]|[_ ->]]; [by rewrite is_error_ok in Hm|].
      apply snapshot_savepoint_cases in Hs as [[_ ->]|[-> _]]; [|by rewrite is_error_ok in Herr].
      cbn. by repeat split; left.
    + destruct (earlier_phases_state _ _ _ _ Hearlier)
        as (_ & Hcb & _ & Hacc & _ & Hsp & _ & _).
      fold s in Hsp, Hrp.
      pose proof (replace_pointers_returns _ _ _ _ _ _ Hrp)
        as ([Hcb4 _] & _ & Hs4 & Hbad & Hgood).
      split; [congruence|]. split; [|right; congruence].
      destruct (is_error (fileset_initialize env)) eqn:Hfs.
      * destruct (Hbad eq_refl) as [_ ->]. by left.
      * destruct (Hgood eq_refl) as [Hacc4 _]. by right.
Qed.

(** X11.  A run that returns never leaves the transactions paused: when
    they were accepted before [handle_snapshot_triggered], they are
    accepted after it, whichever phase ended the run. *)
Theorem run_leaves_transactions_accepted (env : Collaborators) (e e' : Engine)
    (r : ErrorStack) (s : Snapshot) :
  accepting_xct e = true ->
  handle_snapshot_triggered env e = Returned ((r, s), e') ->
  accepting_xct e' = true.
Proof.
  intros Hacc Hrun.
  apply run_outcomes in Hrun as [_ [(_ & _ & [H|H] & _)|(_ & _ & _ & H & _)]]; congruence.
Qed.

Lemma run_leaves_transactions_accepted_witness :
  let env := example_env 6 2 1 in
  let e := example_engine 5 3 in
  let e' := state_after (handle_snapshot_triggered env e) e in
  (accepting_xct e = true
   /\ handle_snapshot_triggered env e
      = Returned ((kErrorCodeOther 7, new_snapshot_of env e), e'))
  /\ accepting_xct e' = true.
Proof.
  intros env e e'.
  assert (H1 : accepting_xct e = true) by reflexivity.
  assert (H2 : handle_snapshot_triggered env e
               = Returned ((kErrorCodeOther 7, new_snapshot_of env e), e'))
    by (vm_compute; reflexivity).
  exact (conj (conj H1 H2) (run_leaves_transactions_accepted env e e' _ _ H1 H2)).
Defined.

(** X12.  After a run that returns [kRetOk] the control block, the
    savepoint and the metadata file agree: the savepoint names the id
    and the epoch of the control block, the epoch is the durable epoch
    of the run, the id is not the null id, the metadata file of that id
    is valid until that epoch, and the time of the previous snapshot is
    the clock reading of the run. *)
Theorem successful_run_is_on_record (env : Collaborators) (e e' : Engine) (s : Snapshot) :
  handle_snapshot_triggered env e = Returned ((kRetOk, s), e') ->
  let id := previous_snapshot_id_ (control_block_ e') in
  let epoch := snapshot_epoch_ (control_block_ e') in
  latest_savepoint e' = (id, epoch)
  /\ id = id_ s /\ id <> kNullSnapshotId
  /\ epoch = get_durable_global_epoch env
  /\ (exists metadata,
        metadata_files e' !! id = Some metadata
        /\ metadata_valid_until_epoch_ metadata = epoch)
  /\ previous_snapshot_time_ e' = system_clock_now env.
Proof.
  intros Hrun id epoch. subst id epoch.
  apply run_outcomes in Hrun as [-> [(Herr & _)|(_ & Hcb & Ht & _ & Hsp & Hmd & _)]].
  { by rewrite is_error_ok in Herr. }
  destruct Hmd as (metadata & Hfiles & Hep). rewrite Hcb. cbn.
  split; [done|]. split; [done|]. split.
  { pose proof (next_id_range (previous_snapshot_id_ (control_block_ e))).
    unfold kNullSnapshotId at 2. lia. }
  split; [done|]. split; [|done].
  exists metadata. by rewrite Hfiles, lookup_insert_eq.
Qed.

Lemma successful_run_is_on_record_witness :
  let env := example_env 6 0 1 in
  let e := example_engine 5 3 in
  let s := new_snapshot_of env e in
  let e' := state_after (handle_snapshot_triggered env e) e in
  let id := previous_snapshot_id_ (control_block_ e') in
  let epoch := snapshot_epoch_ (control_block_ e') in
  handle_snapshot_triggered env e = Returned ((kRetOk, s), e')
  /\ latest_savepoint e' = (id, epoch)
  /\ id = id_ s /\ id <> kNullSnapshotId
  /\ epoch = get_durable_global_epoch env
  /\ (exists metadata,
        metadata_files e' !! id = Some metadata
        /\ metadata_valid_until_epoch_ metadata = epoch)
  /\ previous_snapshot_time_ e' = system_clock_now env.
Proof.
  intros env e s e' id epoch.
  assert (H : handle_snapshot_triggered env e = Returned ((kRetOk, s), e'))
    by (vm_compute; reflexivity).
  exact (conj H (successful_run_is_on_record env e e' s H)).
Defined.

(** X13.  The order of a run that returns [kRetOk]: the gleaner, then
    the metadata file written and synced, then the savepoint, then the
    pause, the composers of all storages with a new root page in
    ascending order, the resume, and the broadcast last. *)
Theorem successful_run_order (env : Collaborators) (e e' : Engine) (s : Snapshot) :
  handle_snapshot_triggered env e = Returned ((kRetOk, s), e') ->
  effects e'
  = effects e
    ++ [GleanerExecuted (id_ s); MetadataFileSaved (id_ s); MetadataFileSynced (id_ s);
        SavepointTaken (id_ s) (valid_until_epoch_ s); XctPaused]
    ++ (ComposerInvoked <$> storages_to_replace s (get_new_root_page_pointers env s))
    ++ [XctResumed; SnapshotTakenBroadcast].
Proof.
  intros Hrun.
  apply run_outcomes in Hrun as [_ [(Herr & _)|(_ & _ & _ & _ & _ & _ & Heff)]]; [|done].
  by rewrite is_error_ok in Herr.
Qed.

Lemma successful_run_order_witness :
  let env := example_env 6 0 1 in
  let e := example_engine 5 3 in
  let s := new_snapshot_of env e in
  let e' := state_after (handle_snapshot_triggered env e) e in
  handle_snapshot_triggered env e = Returned ((kRetOk, s), e')
  /\ effects e'
     = effects e
       ++ [GleanerExecuted (id_ s); MetadataFileSaved (id_ s); MetadataFileSynced (id_ s);
           SavepointTaken (id_ s) (valid_until_epoch_ s); XctPaused]
       ++ (ComposerInvoked <$> storages_to_replace s (get_new_root_page_pointers env s))
       ++ [XctResumed; SnapshotTakenBroadcast].
Proof.
  intros env e s e'.
  assert (H : handle_snapshot_triggered env e = Returned ((kRetOk, s), e'))
    by (vm_compute; reflexivity).
  exact (conj H (successful_run_order env e e' s H)).
Defined.

(** The metadata file of a run that returned [kRetOk]. *)
Lemma run_metadata_file env e s e' :
  handle_snapshot_triggered env e = Returned ((kRetOk, s), e') ->
  metadata_files e' !! id_ s
  = Some {| metadata_id_ := id_ s;
            metadata_base_epoch_ := base_epoch_ s;
            metadata_valid_until_epoch_ := valid_until_epoch_ s;
            largest_storage_id_ := max_storage_id_ s;
            root_snapshot_page_id_ :=
              install_root_pages (max_storage_id_ s) (get_new_root_page_pointers env s)
                (clone_all_storage_metadata env).2 |}.
Proof.
  intros Hrun. apply handle_snapshot_triggered_returned in Hrun as [-> Hcases].
  set (s := new_snapshot_of env e) in *.
  destruct Hcases as [[_ (e4 & (ptrs & e3 & (e1 & e2 & Hg & Hm & Hs) & Hrp) & Hpub)]
                     |[Herr _]]; [|by rewrite is_error_ok in Herr].
  fold s in Hg, Hm, Hs.
  injection Hg as _ <- <-.
  apply snapshot_metadata_cases in Hm as [[Hm _]|[_ ->]]; [by rewrite is_error_ok in Hm|].
  apply snapshot_savepoint_cases in Hs as [[Hs _]|[_ ->]]; [by rewrite is_error_ok in Hs|].
  pose proof (replace_pointers_returns _ _ _ _ _ _ Hrp) as (_ & Hf4 & _).
  destruct (publish_returns env s e4) as (e5 & Hp & _ & _ & _ & Hf5 & _).
  assert (e5 = e') as -> by congruence.
  rewrite Hf5, Hf4. cbn. by rewrite lookup_insert_eq.
Qed.

(** X14.  A call of [handle_snapshot_triggered] that returns an error
    does not use up its snapshot id: a next call on the same control
    block is about a snapshot with the same id and the same base epoch,
    whatever it returns; and when it returns [kRetOk], the metadata file
    under that id is the one that this next call wrote, in place of any
    file that the failed call left there. *)
Theorem failed_run_id_is_issued_again (env1 env2 : Collaborators) (e e1 : Engine)
    (r1 : ErrorStack) (s1 : Snapshot) :
  handle_snapshot_triggered env1 e = Returned ((r1, s1), e1) ->
  is_error r1 = true ->
  let s2 := new_snapshot_of env2 e1 in
  id_ s2 = id_ s1
  /\ base_epoch_ s2 = base_epoch_ s1
  /\ forall r2 s2' e2,
       handle_snapshot_triggered env2 e1 = Returned ((r2, s2'), e2) ->
       s2' = s2
       /\ (r2 = kRetOk ->
           metadata_files e2 !! id_ s1
           = Some {| metadata_id_ := id_ s1;
                     metadata_base_epoch_ := base_epoch_ s1;
                     metadata_valid_until_epoch_ := get_durable_global_epoch env2;
                     largest_storage_id_ := get_largest_storage_id env2;
                     root_snapshot_page_id_ :=
                       install_root_pages (get_largest_storage_id env2)
                         (get_new_root_page_pointers env2 s2)
                         (clone_all_storage_metadata env2).2 |}).
Proof.
  intros Hrun1 Herr1 s2.
  apply run_outcomes in Hrun1 as [-> [(_ & Hcb & _)|(-> & _)]];
    [|by rewrite is_error_ok in Herr1].
  assert (Hid : id_ s2 = id_ (new_snapshot_of env1 e))
    by (unfold s2, new_snapshot_of; cbn; by rewrite Hcb).
  assert (Hbase : base_epoch_ s2 = base_epoch_ (new_snapshot_of env1 e))
    by (unfold s2, new_snapshot_of; cbn; by rewrite Hcb).
  split; [done|]. split; [done|].
  intros r2 s2' e2 Hrun2.
  pose proof (handle_snapshot_triggered_returned _ _ _ _ _ Hrun2) as [-> _].
  split; [done|]. intros ->.
  apply run_metadata_file in Hrun2. fold s2 in Hrun2.
  by rewrite <- Hid, <- Hbase, Hrun2.
Qed.

Lemma failed_run_id_is_issued_again_witness :
  let env1 := example_env 6 2 1 in
  let env2 := example_env 7 0 3 in
  let e := example_engine 5 3 in
  let e1 := state_after (handle_snapshot_triggered env1 e) e in
  let s1 := new_snapshot_of env1 e in
  let s2 := new_snapshot_of env2 e1 in
  (handle_snapshot_triggered env1 e = Returned ((kErrorCodeOther 7, s1), e1)
   /\ is_error (kErrorCodeOther 7) = true)
  /\ id_ s2 = id_ s1
  /\ base_epoch_ s2 = base_epoch_ s1
  /\ forall r2 s2' e2,
       handle_snapshot_triggered env2 e1 = Returned ((r2, s2'), e2) ->
       s2' = s2
       /\ (r2 = kRetOk ->
           metadata_files e2 !! id_ s1
           = Some {| metadata_id_ := id_ s1;
                     metadata_base_epoch_ := base_epoch_ s1;
                     metadata_valid_until_epoch_ := get_durable_global_epoch env2;
                     largest_storage_id_ := get_largest_storage_id env2;
                     root_snapshot_page_id_ :=
                       install_root_pages (get_largest_storage_id env2)
                         (get_new_root_page_pointers env2 s2)
                         (clone_all_storage_metadata env2).2 |}).
Proof.
  intros env1 env2 e e1 s1 s2.
  assert (H1 : handle_snapshot_triggered env1 e = Returned ((kErrorCodeOther 7, s1), e1))
    by (vm_compute; reflexivity).
  assert (H2 : is_error (kErrorCodeOther 7) = true) by reflexivity.
  exact (conj (conj H1 H2)
              (failed_run_id_is_issued_again env1 env2 e e1 _ s1 H1 H2)).
Defined.

(** X15.  Over any number of runs, whatever each returns, the savepoint
    is never more than one snapshot ahead of the control block: it names
    the snapshot of the control block or the one that the next run
    issues. *)
Theorem savepoint_stays_in_step (envs : list Collaborators) :
  forall e e',
    savepoint_in_step e ->
    run_all envs e = Returned (tt, e') ->
    savepoint_in_step e'.
Proof.
  induction envs as [|env envs IH]; intros e e' Hinv; cbn [run_all].
  { by intros [= <-]. }
  unfold bind at 1.
  destruct (handle_snapshot_triggered env e) as [[[r s] e1]|] eqn:Hrun; [|done].
  apply IH. clear IH.
  apply run_outcomes in Hrun as [-> [(_ & Hcb & _ & [Hsp|Hsp])|(_ & Hcb & _ & _ & Hsp & _)]];
    unfold savepoint_in_step in *; rewrite Hcb, Hsp.
  - done.
  - by right.
  - by left.
Qed.

Lemma savepoint_stays_in_step_witness :
  let envs := [example_env 6 0 1; example_env 7 2 3; example_env 8 1 3] in
  let e := example_engine 5 3 in
  let e' := state_after (run_all envs e) e in
  (savepoint_in_step e /\ run_all envs e = Returned (tt, e'))
  /\ savepoint_in_step e'.
Proof.
  intros envs e e'.
  assert (H1 : savepoint_in_step e) by (by left).
  assert (H2 : run_all envs e = Returned (tt, e')) by (vm_compute; reflexivity).
  exact (conj (conj H1 H2) (savepoint_stays_in_step envs e e' H1 H2)).
Defined.

(** *** The wake-up of the daemon and the immediate request *)

Lemma check_triggers_cases env now e b e1 :
  check_triggers env now e = Returned (b, e1) ->
  (b = false /\ e1 = e)
  \/ (b = true
      /\ is_valid (snapshot_epoch_ (control_block_ e))
         && (snapshot_epoch_ (control_block_ e) =? get_durable_global_epoch env) = false
      /\ e1 = set_control_block
                {| snapshot_epoch_ := snapshot_epoch_ (control_block_ e);
                   previous_snapshot_id_ := previous_snapshot_id_ (control_block_ e);
                   immediate_snapshot_requested_ := false |} e).
Proof.
  unfold check_triggers, bind, get, modify, ret.
  destruct (is_valid _ && _) eqn:Hlatest.
  { intros [= <- <-]. by left. }
  destruct (immediate_snapshot_requested_ (control_block_ e)) eqn:Hflag.
  { intros [= <- <-]. right. by repeat split. }
  destruct (now >=? _).
  - intros [= <- <-]. right. split; [done|]. split; [done|].
    destruct e as [[ep id fl] ? ? ? ? ? ?]. cbn in *. by subst.
  - intros [= <- <-]. by left.
Qed.

Lemma string_app_inj_r (t : string) :
  forall s1 s2 : string, s1 +:+ t = s2 +:+ t -> s1 = s2.
Proof.
  assert (Hlen : forall s1 s2 : string,
            String.length (s1 +:+ s2) = (String.length s1 + String.length s2)%nat).
  { induction s1 as [|a s1 IH]; intros s2; simpl; [done|]. by rewrite IH. }
  induction s1 as [|a1 s1 IH]; intros [|a2 s2] H; simpl in H.
  - done.
  - apply (f_equal String.length) in H. simpl in H. rewrite !Hlen in H. simpl in H. lia.
  - apply (f_equal String.length) in H. simpl in H. rewrite !Hlen in H. simpl in H. lia.
  - injection H as -> H. f_equal. by apply IH.
Qed.

(** X16.  The daemon has no graceful error handling: a wake-up that
    triggers a run in which some phase returns an error ends the
    process with that error. *)
Theorem wakeup_ends_process_when_a_phase_fails (env : Collaborators) (now : Z)
    (e e1 e' : Engine) (r : ErrorStack) :
  check_triggers env now e = Returned (true, e1) ->
  phase_fails env e1 r e' ->
  handle_snapshot_wakeup env now e = Aborted r.
Proof.
  intros Htrig Hfail. pose proof Hfail as [Herr _].
  apply phase_fails_returns in Hfail.
  unfold handle_snapshot_wakeup, bind at 1. rewrite Htrig.
  unfold COERCE_ERROR, bind, ret. rewrite Hfail. cbv beta iota delta [fst]. by rewrite Herr.
Qed.

Lemma wakeup_ends_process_when_a_phase_fails_witness :
  let env := example_env 6 2 1 in
  let e := example_engine 5 3 in
  let s := new_snapshot_of env e in
  let e3 := state_after
              ((let* _ := glean_logs env s in
                let* _ := snapshot_metadata env s (get_new_root_page_pointers env s) in
                snapshot_savepoint env s) e) e in
  let e' := state_after (handle_snapshot_triggered env e) e in
  (check_triggers env 6000000 e = Returned (true, e)
   /\ phase_fails env e (kErrorCodeOther 7) e')
  /\ handle_snapshot_wakeup env 6000000 e = Aborted (kErrorCodeOther 7).
Proof.
  intros env e s e3 e'.
  assert (H1 : check_triggers env 6000000 e = Returned (true, e))
    by (vm_compute; reflexivity).
  assert (H2 : phase_fails env e (kErrorCodeOther 7) e').
  { split; [reflexivity|]. right. right. right.
    exists (get_new_root_page_pointers env s), e3. split.
    - eexists _, _. split; [vm_compute; reflexivity|].
      split; vm_compute; reflexivity.
    - vm_compute; reflexivity. }
  exact (conj (conj H1 H2)
              (wakeup_ends_process_when_a_phase_fails env 6000000 e e e' _ H1 H2)).
Defined.

(** X17.  A wake-up returns only when it has changed nothing or has
    published a snapshot: in the second case the control block holds the
    durable epoch, the next snapshot id and no pending immediate
    request, the time of the previous snapshot is the clock reading, the
    broadcast is the last effect, and the transactions are accepted. *)
Theorem wakeup_returns_unchanged_or_published (env : Collaborators) (now : Z)
    (e e' : Engine) :
  handle_snapshot_wakeup env now e = Returned (tt, e') ->
  e' = e
  \/ (control_block_ e'
      = {| snapshot_epoch_ := get_durable_global_epoch env;
           previous_snapshot_id_ := next_snapshot_id (previous_snapshot_id_ (control_block_ e));
           immediate_snapshot_requested_ := false |}
      /\ previous_snapshot_time_ e' = system_clock_now env
      /\ accepting_xct e' = true
      /\ last (effects e') = Some SnapshotTakenBroadcast).
Proof.
  unfold handle_snapshot_wakeup, bind at 1.
  destruct (check_triggers env now e) as [[b e1]|] eqn:Htrig; [|done].
  apply check_triggers_cases in Htrig as [[-> ->]|(-> & _ & ->)].
  { intros [= <-]. by left. }
  unfold COERCE_ERROR, bind, ret.
  destruct (handle_snapshot_triggered env _) as [[[r s] e2]|] eqn:Hrun; [|done].
  cbv beta iota delta [fst]. destruct (is_error r) eqn:Herr; [done|]. intros [= <-]. right.
  apply run_outcomes in Hrun as [-> [(Herr' & _)|(_ & Hcb & Ht & Hacc & _ & _ & Heff)]];
    [congruence|].
  split; [by rewrite Hcb|]. split; [done|]. split; [done|].
  rewrite Heff.
  change [XctResumed; SnapshotTakenBroadcast]
    with ([XctResumed] ++ [SnapshotTakenBroadcast]).
  rewrite !app_assoc. apply last_snoc.
Qed.

Lemma wakeup_returns_unchanged_or_published_witness :
  let env := example_env 6 0 1 in
  let e := example_engine 5 3 in
  let e' := state_after (handle_snapshot_wakeup env 6000000 e) e in
  handle_snapshot_wakeup env 6000000 e = Returned (tt, e')
  /\ (e' = e
      \/ (control_block_ e'
          = {| snapshot_epoch_ := get_durable_global_epoch env;
               previous_snapshot_id_ :=
                 next_snapshot_id (previous_snapshot_id_ (control_block_ e));
               immediate_snapshot_requested_ := false |}
          /\ previous_snapshot_time_ e' = system_clock_now env
          /\ accepting_xct e' = true
          /\ last (effects e') = Some SnapshotTakenBroadcast)).
Proof.
  intros env e e'.
  assert (H : handle_snapshot_wakeup env 6000000 e = Returned (tt, e'))
    by (vm_compute; reflexivity).
  exact (conj H (wakeup_returns_unchanged_or_published env 6000000 e e' H)).
Defined.

(** X18.  Once a run has published a snapshot of a valid durable epoch,
    there is nothing to do until the durable epoch advances: a wake-up
    at any clock reading and an immediate request both return with the
    state unchanged, also when an immediate request is still pending. *)
Theorem nothing_to_do_until_durable_epoch_advances (env env' : Collaborators) (now : Z)
    (stop_requested : bool) (e e' : Engine) (s : Snapshot) :
  handle_snapshot_triggered env e = Returned ((kRetOk, s), e') ->
  get_durable_global_epoch env <> 0 ->
  get_durable_global_epoch env' = get_durable_global_epoch env ->
  handle_snapshot_wakeup env' now e' = Returned (tt, e')
  /\ trigger_snapshot_immediate env' stop_requested e' = Returned (tt, e').
Proof.
  intros Hrun Hvalid Hsame.
  apply run_outcomes in Hrun as [-> [(Herr & _)|(_ & Hcb & _)]];
    [by rewrite is_error_ok in Herr|].
  assert (Hlatest : is_valid (snapshot_epoch_ (control_block_ e'))
                    && (snapshot_epoch_ (control_block_ e')
                        =? get_durable_global_epoch env') = true).
  { rewrite Hcb, Hsame. cbn. unfold is_valid.
    rewrite Z.eqb_refl, andb_true_r, negb_true_iff. by apply Z.eqb_neq. }
  split.
  - unfold handle_snapshot_wakeup, bind at 1, check_triggers, bind, get, ret.
    by rewrite Hlatest.
  - unfold trigger_snapshot_immediate, bind, get, ret. by rewrite Hlatest.
Qed.

Lemma nothing_to_do_until_durable_epoch_advances_witness :
  let env := example_env 6 0 1 in
  let env' := example_env 6 2 9 in
  let e := example_engine 5 3 in
  let s := new_snapshot_of env e in
  let e' := state_after (handle_snapshot_triggered env e) e in
  (handle_snapshot_triggered env e = Returned ((kRetOk, s), e')
   /\ get_durable_global_epoch env <> 0
   /\ get_durable_global_epoch env' = get_durable_global_epoch env)
  /\ handle_snapshot_wakeup env' 9000000 e' = Returned (tt, e')
  /\ trigger_snapshot_immediate env' false e' = Returned (tt, e').
Proof.
  intros env env' e s e'.
  assert (H1 : handle_snapshot_triggered env e = Returned ((kRetOk, s), e'))
    by (vm_compute; reflexivity).
  assert (H2 : get_durable_global_epoch env <> 0) by (cbn; lia).
  assert (H3 : get_durable_global_epoch env' = get_durable_global_epoch env)
    by reflexivity.
  exact (conj (conj H1 (conj H2 H3))
              (nothing_to_do_until_durable_epoch_advances env env' 9000000 false e e' s
                 H1 H2 H3)).
Defined.

(** X19.  An immediate request is served at the next wake-up: unless
    the snapshot is already the latest, [trigger_snapshot_immediate]
    sets the request flag and changes nothing else, and the next
    wake-up -- at any clock reading, also before the interval has
    elapsed -- triggers a run and clears the flag.  When a stop has been
    requested, nothing is set. *)
Theorem immediate_request_is_served_at_next_wakeup (env : Collaborators) (now : Z)
    (e : Engine) :
  is_valid (snapshot_epoch_ (control_block_ e))
  && (snapshot_epoch_ (control_block_ e) =? get_durable_global_epoch env) = false ->
  let requested flag :=
    set_control_block
      {| snapshot_epoch_ := snapshot_epoch_ (control_block_ e);
         previous_snapshot_id_ := previous_snapshot_id_ (control_block_ e);
         immediate_snapshot_requested_ := flag |} e in
  trigger_snapshot_immediate env false e = Returned (tt, requested true)
  /\ check_triggers env now (requested true) = Returned (true, requested false)
  /\ trigger_snapshot_immediate env true e = Returned (tt, e).
Proof.
  intros Hlatest requested. subst requested.
  unfold trigger_snapshot_immediate, check_triggers, bind, get, modify, ret. cbn.
  by rewrite Hlatest, Z.eqb_refl.
Qed.

Lemma immediate_request_is_served_at_next_wakeup_witness :
  let env := example_env 6 0 1 in
  let e := example_engine 5 3 in
  let requested flag :=
    set_control_block
      {| snapshot_epoch_ := snapshot_epoch_ (control_block_ e);
         previous_snapshot_id_ := previous_snapshot_id_ (control_block_ e);
         immediate_snapshot_requested_ := flag |} e in
  is_valid (snapshot_epoch_ (control_block_ e))
  && (snapshot_epoch_ (control_block_ e) =? get_durable_global_epoch env) = false
  /\ trigger_snapshot_immediate env false e = Returned (tt, requested true)
  /\ check_triggers env 1 (requested true) = Returned (true, requested false)
  /\ trigger_snapshot_immediate env true e = Returned (tt, e).
Proof.
  intros env e requested.
  assert (H : is_valid (snapshot_epoch_ (control_block_ e))
              && (snapshot_epoch_ (control_block_ e) =? get_durable_global_epoch env)
              = false) by reflexivity.
  exact (conj H (immediate_request_is_served_at_next_wakeup env 1 e H)).
Defined.

(** X20.  Snapshots with different ids have different metadata files,
    whenever appending to the primary folder keeps different file names
    apart. *)
Theorem metadata_file_paths_are_distinct (path_append : string -> string -> string)
    (primary_folder_path : string) (id1 id2 : SnapshotId) :
  (forall name1 name2,
     path_append primary_folder_path name1 = path_append primary_folder_path name2 ->
     name1 = name2) ->
  get_snapshot_metadata_file_path path_append primary_folder_path id1
  = get_snapshot_metadata_file_path path_append primary_folder_path id2 ->
  id1 = id2.
Proof.
  intros Hinj Heq. unfold get_snapshot_metadata_file_path in Heq.
  apply Hinj in Heq. apply String.app_inj in Heq.
  apply string_app_inj_r in Heq. by apply pretty_Z_inj in Heq.
Qed.

Lemma metadata_file_paths_are_distinct_witness :
  let path_append := fun folder name : string => folder +:+ "/" +:+ name in
  ((forall name1 name2,
      path_append "snapshots/node_0" name1 = path_append "snapshots/node_0" name2 ->
      name1 = name2)
   /\ get_snapshot_metadata_file_path path_append "snapshots/node_0" 7
      = get_snapshot_metadata_file_path path_append "snapshots/node_0" 7)
  /\ 7 = 7.
Proof.
  intros path_append.
  assert (H1 : forall name1 name2,
             path_append "snapshots/node_0" name1 = path_append "snapshots/node_0" name2 ->
             name1 = name2).
  { intros name1 name2 H. by apply String.app_inj, String.app_inj in H. }
  assert (H2 : get_snapshot_metadata_file_path path_append "snapshots/node_0" 7
               = get_snapshot_metadata_file_path path_append "snapshots/node_0" 7)
    by reflexivity.
  exact (conj (conj H1 H2)
              (metadata_file_paths_are_distinct path_append "snapshots/node_0" 7 7 H1 H2)).
Defined.

(** X21.  A restart adopts a snapshot that was never published.  When a
    run has taken its savepoint and [replace_pointers] then returns an
    error, the control block still holds the previous snapshot; but
    [initialize_once] of the next start takes the control block from the
    savepoint, so that the unpublished snapshot has become the previous
    one: the next run is issued the id after it and starts from its
    epoch.  Without the log manager, [initialize_once] returns the error
    and changes nothing. *)
Theorem restart_adopts_unpublished_snapshot (env env' : Collaborators) (code : ErrorCode)
    (e e3 e1 : Engine) (ptrs : gmap Z Z) (r : ErrorStack) :
  let s := new_snapshot_of env e in
  earlier_phases_succeed env e ptrs e3 ->
  replace_pointers env s ptrs e3 = Returned (r, e1) ->
  is_error r = true ->
  control_block_ e1 = control_block_ e
  /\ SnapshotManager.initialize_once env' false code e1 = Returned (ERROR_STACK code, e1)
  /\ exists e2,
       SnapshotManager.initialize_once env' true code e1 = Returned (kRetOk, e2)
       /\ control_block_ e2
          = {| snapshot_epoch_ := valid_until_epoch_ s;
               previous_snapshot_id_ := id_ s;
               immediate_snapshot_requested_ := false |}
       /\ previous_snapshot_time_ e2 = system_clock_now env'
       /\ savepoint_in_step e2
       /\ id_ (new_snapshot_of env' e2) = next_snapshot_id (id_ s)
       /\ base_epoch_ (new_snapshot_of env' e2) = valid_until_epoch_ s.
Proof.
  intros s Hearlier Hrp Herr.
  apply earlier_phases_state in Hearlier as (_ & Hcb3 & _ & _ & _ & Hsp3 & _).
  apply replace_pointers_returns in Hrp as ((Hcb1 & _) & _ & Hsp1 & _).
  fold s in Hsp3. rewrite Hsp3 in Hsp1.
  split; [congruence|]. split; [done|].
  eexists. split; [reflexivity|]. unfold savepoint_in_step. cbn. rewrite Hsp1. cbn.
  split; [done|]. split; [done|]. split; [by left|]. done.
Qed.

Lemma restart_adopts_unpublished_snapshot_witness :
  let env := example_env 6 2 1 in
  let env' := example_env 8 0 1 in
  let e := example_engine 5 3 in
  let s := new_snapshot_of env e in
  let ptrs := get_new_root_page_pointers env s in
  let e3 := state_after
              ((let* _ := glean_logs env s in
                let* _ := snapshot_metadata env s ptrs in
                snapshot_savepoint env s) e) e in
  let e1 := state_after (replace_pointers env s ptrs e3) e3 in
  (earlier_phases_succeed env e ptrs e3
   /\ replace_pointers env s ptrs e3 = Returned (kErrorCodeOther 7, e1)
   /\ is_error (kErrorCodeOther 7) = true)
  /\ control_block_ e1 = control_block_ e
  /\ SnapshotManager.initialize_once env' false (kErrorCodeOther 9) e1
     = Returned (ERROR_STACK (kErrorCodeOther 9), e1)
  /\ exists e2,
       SnapshotManager.initialize_once env' true (kErrorCodeOther 9) e1
       = Returned (kRetOk, e2)
       /\ control_block_ e2
          = {| snapshot_epoch_ := valid_until_epoch_ s;
               previous_snapshot_id_ := id_ s;
               immediate_snapshot_requested_ := false |}
       /\ previous_snapshot_time_ e2 = system_clock_now env'
       /\ savepoint_in_step e2
       /\ id_ (new_snapshot_of env' e2) = next_snapshot_id (id_ s)
       /\ base_epoch_ (new_snapshot_of env' e2) = valid_until_epoch_ s.
Proof.
  intros env env' e s ptrs e3 e1.
  assert (H1 : earlier_phases_succeed env e ptrs e3).
  { eexists _, _. split; [vm_compute; reflexivity|]. split; vm_compute; reflexivity. }
  assert (H2 : replace_pointers env s ptrs e3 = Returned (kErrorCodeOther 7, e1))
    by (vm_compute; reflexivity).
  assert (H3 : is_error (kErrorCodeOther 7) = true) by reflexivity.
  exact (conj (conj H1 (conj H2 H3))
              (restart_adopts_unpublished_snapshot env env' (kErrorCodeOther 9)
                 e e3 e1 ptrs _ H1 H2 H3)).
Defined.

End SnapshotFacts.
